(** * Cross-Platform Intelligence Engine: a shallow embedding and its properties

    The development follows the JavaScript sources of the engine:
    the reputation engine, the identity resolver, the threat correlator
    and the network analyzer.

    Conventions shared by all modules:
    - JavaScript numbers that hold scores, weights and risks are exact
      rationals ([Q]); integer row identifiers (SERIAL columns) are [Z];
      counts are [nat].  Rounding of IEEE doubles is not modelled; where
      a sum of fractions would round, as in [calculateGini], the values
      are whole numbers ([Z]), which a JavaScript number holds exactly.
    - A JavaScript [Map] is an association list in insertion order,
      an array is a [list]; objects that are mutated through several
      references are kept in a store and referenced by position.  A plain
      object that is filled under arbitrary names has the members of
      [Object.prototype] and the order of enumeration modelled.
    - A query result is the list of its rows; the rows of a table are a
      [list] of records.  Where a query names a column that no statement
      of the repository creates, the table carries its columns and the
      result is the rows or the rejection. *)

From Stdlib Require Import String Ascii DecimalString.
From Stdlib Require Import Bool Arith ZArith QArith Qminmax List.
From Stdlib Require Import Lia Lqa Permutation Sorted Qabs.
Import ListNotations.

Set Implicit Arguments.

(** ** JavaScript helpers *)

Module JS.

Section Sorting.
Variable A : Type.
(** The comparator of [Array.prototype.sort]: a negative result puts the
    first argument first. *)
Variable cmp : A -> A -> Q.

Fixpoint insert_sorted (x : A) (l : list A) : list A :=
  match l with
  | [] => [x]
  | y :: l' =>
      if Qle_bool (cmp x y) 0 then x :: y :: l' else y :: insert_sorted x l'
  end.

(** [Array.prototype.sort] is stable; an insertion sort that inserts the
    elements from the right keeps equal elements in their original order. *)
Definition sort (l : list A) : list A := fold_right insert_sorted [] l.

Lemma insert_sorted_perm x l : Permutation (x :: l) (insert_sorted x l).
Proof.
  induction l as [|y l IH]; simpl; [reflexivity|].
  destruct (Qle_bool (cmp x y) 0); [reflexivity|].
  rewrite perm_swap. now apply perm_skip.
Qed.

Lemma sort_perm l : Permutation l (sort l).
Proof.
  induction l as [|x l IH]; simpl; [constructor|].
  rewrite <- insert_sorted_perm. now apply perm_skip.
Qed.
End Sorting.

Definition count_Q (n : nat) : Q := inject_Z (Z.of_nat n).

Definition Qlt_bool (x y : Q) : bool := negb (Qle_bool y x).

(** A [Map] from keys to arrays, filled with
    [if (!map.has(k)) map.set(k, []); map.get(k).push(v)], and an object
    used as a counter, filled with [counts[k] = (counts[k] || 0) + 1].
    Both keep their keys in insertion order. *)
Section Groups.
Variables K V : Type.
Variable eqb : K -> K -> bool.

Fixpoint group_push (k : K) (v : V) (m : list (K * list V)) : list (K * list V) :=
  match m with
  | [] => [(k, [v])]
  | (k', vs) :: m' =>
      if eqb k' k then (k', vs ++ [v]) :: m' else (k', vs) :: group_push k v m'
  end.

Fixpoint group_get (m : list (K * list V)) (k : K) : list V :=
  match m with
  | [] => []
  | (k', vs) :: m' => if eqb k' k then vs else group_get m' k
  end.

Fixpoint bump (k : K) (m : list (K * nat)) : list (K * nat) :=
  match m with
  | [] => [(k, 1%nat)]
  | (k', n) :: m' => if eqb k' k then (k', S n) :: m' else (k', n) :: bump k m'
  end.

Definition tally (keys : list K) : list (K * nat) :=
  fold_left (fun m k => bump k m) keys [].

Hypothesis eqb_eq : forall a b, eqb a b = true <-> a = b.

Lemma eqb_refl a : eqb a a = true.
Proof. now apply eqb_eq. Qed.

Lemma eqb_sym a b : eqb a b = eqb b a.
Proof.
  destruct (eqb a b) eqn:E.
  - apply eqb_eq in E. subst. symmetry. apply eqb_refl.
  - destruct (eqb b a) eqn:E'; [|reflexivity].
    apply eqb_eq in E'. subst. now rewrite eqb_refl in E.
Qed.

Lemma group_get_push k v m k' :
  group_get (group_push k v m) k' =
  if eqb k k' then group_get m k' ++ [v] else group_get m k'.
Proof.
  induction m as [|[k0 vs] m IH]; simpl.
  - reflexivity.
  - destruct (eqb k0 k) eqn:E0; simpl.
    + apply eqb_eq in E0. subst k0. now destruct (eqb k k').
    + destruct (eqb k0 k') eqn:E1; [|exact IH].
      apply eqb_eq in E1. subst k0. now rewrite eqb_sym, E0.
Qed.

Lemma group_push_keys k v m :
  map fst (group_push k v m) =
  if existsb (fun k' => eqb k' k) (map fst m) then map fst m
  else map fst m ++ [k].
Proof.
  induction m as [|[k0 vs] m IH]; simpl; [reflexivity|].
  destruct (eqb k0 k); simpl; [reflexivity|].
  rewrite IH. now destruct (existsb _ _).
Qed.

Lemma group_push_NoDup k v m :
  NoDup (map fst m) -> NoDup (map fst (group_push k v m)).
Proof.
  intro H. rewrite group_push_keys.
  destruct (existsb _ _) eqn:E; [exact H|].
  apply NoDup_app; [exact H|repeat constructor; simpl; tauto|].
  intros x Hx [<-|[]].
  assert (existsb (fun k' => eqb k' k) (map fst m) = true); [|congruence].
  apply existsb_exists. exists k. split; [exact Hx|apply eqb_refl].
Qed.

Lemma group_get_In m k vs :
  NoDup (map fst m) -> In (k, vs) m -> group_get m k = vs.
Proof.
  induction m as [|[k0 v0] m IH]; simpl; [tauto|].
  intros Hnd [H|H].
  - inversion H; subst. now rewrite eqb_refl.
  - inversion Hnd as [|? ? Hn Hd]; subst.
    destruct (eqb k0 k) eqn:E; [|auto].
    apply eqb_eq in E. subst k0. exfalso. apply Hn.
    apply in_map_iff. now exists (k, vs).
Qed.

Lemma group_get_has m k :
  group_get m k <> [] -> existsb (fun k' => eqb k' k) (map fst m) = true.
Proof.
  induction m as [|[k0 vs] m IH]; simpl; [congruence|].
  destruct (eqb k0 k); simpl; auto.
Qed.

Lemma group_get_nonempty m k :
  group_get m k <> [] -> In (k, group_get m k) m.
Proof.
  induction m as [|[k0 vs] m IH]; simpl; [congruence|].
  destruct (eqb k0 k) eqn:E; [|auto].
  apply eqb_eq in E. subst k0. now left.
Qed.

Fixpoint tally_get (m : list (K * nat)) (k : K) : nat :=
  match m with
  | [] => O
  | (k', n) :: m' => if eqb k' k then n else tally_get m' k
  end.

Lemma tally_get_bump k m k' :
  tally_get (bump k m) k' = if eqb k k' then S (tally_get m k') else tally_get m k'.
Proof.
  induction m as [|[k0 n] m IH]; simpl.
  - reflexivity.
  - destruct (eqb k0 k) eqn:E0; simpl.
    + apply eqb_eq in E0. subst k0. now destruct (eqb k k').
    + destruct (eqb k0 k') eqn:E1; [|exact IH].
      apply eqb_eq in E1. subst k0. now rewrite eqb_sym, E0.
Qed.

Lemma bump_keys k m :
  map fst (bump k m) =
  if existsb (fun k' => eqb k' k) (map fst m) then map fst m
  else map fst m ++ [k].
Proof.
  induction m as [|[k0 n] m IH]; simpl; [reflexivity|].
  destruct (eqb k0 k); simpl; [reflexivity|].
  rewrite IH. now destruct (existsb _ _).
Qed.

Lemma bump_NoDup k m : NoDup (map fst m) -> NoDup (map fst (bump k m)).
Proof.
  intro H. rewrite bump_keys.
  destruct (existsb _ _) eqn:E; [exact H|].
  apply NoDup_app; [exact H|repeat constructor; simpl; tauto|].
  intros x Hx [<-|[]].
  assert (existsb (fun k' => eqb k' k) (map fst m) = true); [|congruence].
  apply existsb_exists. exists k. split; [exact Hx|apply eqb_refl].
Qed.

Lemma tally_fold_get keys m0 k :
  tally_get (fold_left (fun m k => bump k m) keys m0) k
  = (tally_get m0 k + length (filter (fun k' => eqb k' k) keys))%nat.
Proof.
  revert m0. induction keys as [|k0 keys IH]; intro m0; simpl; [lia|].
  rewrite IH, tally_get_bump. destruct (eqb k0 k); simpl; lia.
Qed.

Lemma tally_fold_NoDup keys m0 :
  NoDup (map fst m0) -> NoDup (map fst (fold_left (fun m k => bump k m) keys m0)).
Proof.
  revert m0. induction keys as [|k0 keys IH]; intros m0 H; simpl; [exact H|].
  apply IH. now apply bump_NoDup.
Qed.

Lemma tally_NoDup keys : NoDup (map fst (tally keys)).
Proof. apply tally_fold_NoDup. constructor. Qed.

Lemma tally_get_In m k n :
  NoDup (map fst m) -> In (k, n) m -> tally_get m k = n.
Proof.
  induction m as [|[k0 n0] m IH]; simpl; [tauto|].
  intros Hnd [H|H].
  - inversion H; subst. now rewrite eqb_refl.
  - inversion Hnd as [|? ? Hn Hd]; subst.
    destruct (eqb k0 k) eqn:E; [|auto].
    apply eqb_eq in E. subst k0. exfalso. apply Hn.
    apply in_map_iff. now exists (k, n).
Qed.

Lemma tally_get_pos m k :
  (0 < tally_get m k)%nat -> In (k, tally_get m k) m.
Proof.
  induction m as [|[k0 n0] m IH]; simpl; [lia|].
  destruct (eqb k0 k) eqn:E; [|auto].
  apply eqb_eq in E. subst k0. now left.
Qed.

(** A key is listed with the number of its occurrences. *)
Lemma tally_In keys k n :
  (0 < n)%nat ->
  In (k, n) (tally keys) <-> length (filter (fun k' => eqb k' k) keys) = n.
Proof.
  intro Hn.
  assert (Hg : tally_get (tally keys) k = length (filter (fun k' => eqb k' k) keys))
    by (unfold tally; now rewrite tally_fold_get).
  split.
  - intro Hin. rewrite <- Hg. now apply tally_get_In; [apply tally_NoDup|].
  - intro Hl. rewrite <- Hl, <- Hg. apply tally_get_pos. lia.
Qed.

(** Filling a map from a list of items, as a [forEach] does. *)
Variable A : Type.
Variable key_of : A -> K.
Variable val_of : A -> V.

Definition group_by (items : list A) (m0 : list (K * list V)) : list (K * list V) :=
  fold_left (fun m x => group_push (key_of x) (val_of x) m) items m0.

Lemma group_get_group_by items m0 k :
  group_get (group_by items m0) k =
  group_get m0 k ++ map val_of (filter (fun x => eqb (key_of x) k) items).
Proof.
  unfold group_by. revert m0.
  induction items as [|x items IH]; intro m0; simpl.
  - now rewrite app_nil_r.
  - rewrite IH, group_get_push.
    destruct (eqb (key_of x) k); simpl; [now rewrite <- app_assoc|reflexivity].
Qed.

Lemma group_by_NoDup items m0 :
  NoDup (map fst m0) -> NoDup (map fst (group_by items m0)).
Proof.
  unfold group_by. revert m0.
  induction items as [|x items IH]; intros m0 H; simpl; [exact H|].
  apply IH. now apply group_push_NoDup.
Qed.
End Groups.

(** [a || b] on optional values: the first truthy operand.  [0] and the
    empty string are falsy, like [null] and [undefined]. *)
Definition truthy_num (o : option Z) : option Z :=
  match o with
  | Some z => if (z =? 0)%Z then None else Some z
  | None => None
  end.

Definition truthy_str (o : option string) : option string :=
  match o with
  | Some s => if String.eqb s EmptyString then None else Some s
  | None => None
  end.

End JS.

(** ** Facts about lists *)

Module ListFacts.

Section Combine.
Variable A : Type.

Lemma combine_seq_fst (l : list A) s :
  map fst (combine (seq s (length l)) l) = seq s (length l).
Proof.
  revert s. induction l as [|x l IH]; intro s; simpl; [reflexivity|].
  now rewrite IH.
Qed.

Lemma combine_seq_snd (l : list A) s :
  map snd (combine (seq s (length l)) l) = l.
Proof.
  revert s. induction l as [|x l IH]; intro s; simpl; [reflexivity|].
  now rewrite IH.
Qed.

Lemma combine_seq_In (l : list A) s i x :
  In (i, x) (combine (seq s (length l)) l) <->
  (s <= i)%nat /\ nth_error l (i - s) = Some x.
Proof.
  revert s. induction l as [|y l IH]; intro s; simpl.
  - split; [tauto|]. intros [_ H]. now destruct (i - s)%nat.
  - rewrite IH. split.
    + intros [H|[H1 H2]].
      * inversion H; subst. split; [lia|]. now rewrite Nat.sub_diag.
      * split; [lia|]. replace (i - s)%nat with (S (i - S s)) by lia. exact H2.
    + intros [H1 H2]. destruct (Nat.eq_dec s i) as [->|Hne].
      * left. rewrite Nat.sub_diag in H2. simpl in H2. congruence.
      * right. split; [lia|].
        replace (i - s)%nat with (S (i - S s)) in H2 by lia. exact H2.
Qed.

Lemma NoDup_map_fst_filter (B : Type) (f : B * A -> bool) (l : list (B * A)) :
  NoDup (map fst l) -> NoDup (map fst (filter f l)).
Proof.
  induction l as [|p l IH]; simpl; intro H; [constructor|].
  inversion H as [|? ? Hn Hd]; subst.
  destruct (f p); simpl; [|auto].
  constructor; [|auto]. intro Hin. apply Hn.
  apply in_map_iff in Hin. destruct Hin as [q [Hq Hin]].
  apply filter_In in Hin. apply in_map_iff. exists q. tauto.
Qed.

Lemma length_filter_snd (B : Type) (f : A -> bool) (l : list (B * A)) :
  length (filter (fun p => f (snd p)) l) = length (filter f (map snd l)).
Proof.
  induction l as [|p l IH]; simpl; [reflexivity|].
  destruct (f (snd p)); simpl; now rewrite IH.
Qed.

Lemma NoDup_map_filter_key (B C : Type) (f : A -> B) (g : A -> C)
    (p : C -> bool) (l : list A) :
  (forall x y, In x l -> In y l -> p (g x) = true -> p (g y) = true -> g x = g y) ->
  NoDup (map (fun r => (f r, g r)) l) ->
  NoDup (map f (filter (fun r => p (g r)) l)).
Proof.
  induction l as [|x l IH]; simpl; intros Hg H; [constructor|].
  inversion H as [|? ? Hn Hd]; subst.
  assert (IHl : NoDup (map f (filter (fun r => p (g r)) l))).
  { apply IH; [|exact Hd]. intros; apply Hg; auto. }
  destruct (p (g x)) eqn:E; simpl; [|exact IHl].
  constructor; [|exact IHl].
  intro Hin. apply Hn. apply in_map_iff in Hin.
  destruct Hin as [y [Hy Hin]]. apply filter_In in Hin. destruct Hin as [Hin Hp].
  apply in_map_iff. exists y. split; [|exact Hin].
  rewrite Hy. f_equal. apply Hg; auto.
Qed.

Lemma filter_count_NoDup (p : A -> bool) (l1 l2 : list A) :
  NoDup l1 -> NoDup l2 ->
  (forall x, p x = true -> In x l1) -> (forall x, p x = true -> In x l2) ->
  length (filter p l1) = length (filter p l2).
Proof.
  intros H1 H2 Hin1 Hin2. apply Permutation_length.
  apply NoDup_Permutation; try now apply NoDup_filter.
  intro x. rewrite !filter_In. split; intros [_ Hp]; auto.
Qed.
End Combine.

End ListFacts.

(** ** Threat correlator (ThreatIntelligenceAnalyzer) *)

Module Threat.

Open Scope Q_scope.

(** A threat signal as the detectors build it.  The description and the
    metadata object do not take part in scoring and are left out. *)
Record threat := mkThreat {
  type : string;
  subtype : string;
  agent_id : option Z;
  agent_name : option string;
  author : option string;
  risk_score : Q;
  correlation_boost : option Q
}.

(** *** The behavioural detector, [analyzeAgentBehavior] *)

(** A value of a column, as a query reads it. *)
Inductive value :=
| Null
| Int (z : Z)                      (* integers; time stamps in seconds *)
| Text (s : string)
| Json (fields : list (string * string)).   (* a JSONB object of text fields *)

(** A row gives the values of its columns; a table has the columns it was
    created with, and its rows. *)
Definition row := list (string * value).

Record relation := mkRelation {
  rel_columns : list string;
  rel_rows : list row
}.

Definition column (r : row) (c : string) : value :=
  match find (fun kv => String.eqb (fst kv) c) r with
  | Some kv => snd kv
  | None => Null
  end.

(** [CREATE TABLE IF NOT EXISTS skills] of the collector and
    [CREATE TABLE IF NOT EXISTS security_alerts] of the database set-up:
    the only statements of the repository that define the two tables. *)
Definition skills_columns : list string :=
  [ "id"; "external_id"; "name"; "author"; "version"; "downloads";
    "description"; "tags"; "security_score"; "verified"; "source_url";
    "metadata"; "last_updated"; "created_at"; "updated_at" ]%string.

Definition security_alerts_columns : list string :=
  [ "id"; "type"; "severity"; "title"; "description"; "metadata";
    "resolved"; "created_at" ]%string.

Definition skills_table (rows : list row) : relation :=
  mkRelation skills_columns rows.

Definition security_alerts_table (rows : list row) : relation :=
  mkRelation security_alerts_columns rows.

(** What [await query(...)] gives: the rows, or the rejection that the
    [catch] of the caller receives. *)
Inductive result (A : Type) :=
| Rows (rows : list A)
| Undefined_column (c : string).

Arguments Rows {A} rows.
Arguments Undefined_column {A} c.

(** A statement that names a column which its table does not have is
    refused before any row is read. *)
Definition missing_column (t : relation) (names : list string) : option string :=
  find (fun c => negb (existsb (String.eqb c) (rel_columns t))) names.

Definition days (n : Z) : Z := (n * 86400)%Z.

(** [v > NOW() - INTERVAL ...]; a comparison with NULL is not true. *)
Definition after (v : value) (t : Z) : bool :=
  match v with
  | Int z => (t <? z)%Z
  | _ => false
  end.

(** [a = b] of SQL; a comparison with NULL is not true. *)
Definition sql_eq (a b : value) : bool :=
  match a, b with
  | Int x, Int y => (x =? y)%Z
  | Text x, Text y => String.eqb x y
  | _, _ => false
  end.

(** [GROUP BY]: equal values, and the NULLs, form one group each. *)
Definition field_eq_dec (x y : string * string) : {x = y} + {x <> y}.
Proof. decide equality; apply string_dec. Defined.

Definition fields_eqb (a b : list (string * string)) : bool :=
  if list_eq_dec field_eq_dec a b then true else false.

Definition same_group (a b : value) : bool :=
  match a, b with
  | Null, Null => true
  | Int x, Int y => (x =? y)%Z
  | Text x, Text y => String.eqb x y
  | Json x, Json y => fields_eqb x y
  | _, _ => false
  end.

(** [metadata->>'skill_name'] *)
Definition json_text (v : value) (k : string) : value :=
  match v with
  | Json fields =>
      match find (fun kv => String.eqb (fst kv) k) fields with
      | Some kv => Text (snd kv)
      | None => Null
      end
  | _ => Null
  end.

(** The first query: agents with more than five skills in seven days,
    [SELECT agent_id, COUNT( * ) ... FROM skills WHERE created_at > ...
     GROUP BY agent_id HAVING COUNT( * ) > 5]. *)
Definition rapidCreators (now : Z) (skills : relation) : result (value * nat) :=
  match missing_column skills ["agent_id"; "created_at"]%string with
  | Some c => Undefined_column c
  | None =>
      Rows
        (filter (fun r => (5 <? snd r)%nat)
           (JS.tally same_group
              (map (fun s => column s "agent_id")
                 (filter (fun s => after (column s "created_at") (now - days 7))
                    (rel_rows skills)))))
  end.

(** The second query: authors whose skills are named by more than two
    credential or environment access alerts of the last thirty days,
    [FROM skills s JOIN security_alerts sa
       ON sa.metadata->>'skill_name' = s.name
     WHERE sa.type IN (...) AND sa.created_at > ...
     GROUP BY s.author HAVING COUNT( * ) > 2]. *)
Definition credential_alert (now : Z) (sa : row) : bool :=
  (sql_eq (column sa "type") (Text "credential_access")
   || sql_eq (column sa "type") (Text "environment_access"))
  && after (column sa "created_at") (now - days 30).

Definition names_skill (sa s : row) : bool :=
  sql_eq (json_text (column sa "metadata") "skill_name") (column s "name").

Definition credentialHarvesters (now : Z) (skills alerts : relation)
  : result (value * nat) :=
  match missing_column skills ["author"; "name"]%string,
        missing_column alerts ["metadata"; "type"; "created_at"]%string with
  | Some c, _ => Undefined_column c
  | None, Some c => Undefined_column c
  | None, None =>
      Rows
        (filter (fun r => (2 <? snd r)%nat)
           (JS.tally same_group
              (flat_map
                 (fun s =>
                    map (fun _ => column s "author")
                      (filter (fun sa => names_skill sa s && credential_alert now sa)
                         (rel_rows alerts)))
                 (rel_rows skills))))
  end.

(** The fields of a signal take the number or the text of a column. *)
Definition number_of (v : value) : option Z :=
  match v with Int z => Some z | _ => None end.

Definition text_of (v : value) : option string :=
  match v with Text s => Some s | _ => None end.

Definition rapid_skill_creation (agent : value * nat) : threat :=
  {| type := "agent_behavior"; subtype := "rapid_skill_creation";
     agent_id := number_of (fst agent); agent_name := None; author := None;
     risk_score := Qmin 0.9 (0.3 + JS.count_Q (snd agent) * 0.1);
     correlation_boost := None |}.

Definition credential_harvesting (harvester : value * nat) : threat :=
  {| type := "agent_behavior"; subtype := "credential_harvesting";
     agent_id := None; agent_name := text_of (fst harvester); author := None;
     risk_score := 0.8 + JS.count_Q (snd harvester) * 0.05;
     correlation_boost := None |}.

(** Both queries and both loops stand in one [try]: when a query is
    rejected, the [catch] logs the error and the function returns the
    signals pushed until then. *)
Definition analyzeAgentBehavior (now : Z) (skills alerts : relation)
  : list threat :=
  match rapidCreators now skills with
  | Undefined_column _ => []
  | Rows rapid =>
      map rapid_skill_creation rapid
      ++ match credentialHarvesters now skills alerts with
         | Undefined_column _ => []
         | Rows harvesters => map credential_harvesting harvesters
         end
  end.

(** A skill of one author that five recent credential-access alerts name. *)
Definition harvest_skill : row :=
  [ ("name", Text "env-dump"); ("author", Text "mallory");
    ("created_at", Int 1000) ]%string.

Definition harvest_alerts : list row :=
  repeat [ ("type", Text "credential_access");
           ("metadata", Json [("skill_name", "env-dump")]);
           ("created_at", Int 2000) ]%string 5.

(** A [skills] table to which a column [agent_id] was added by hand; no
    statement of the repository creates it. *)
Definition skills_with_agent_id (rows : list row) : relation :=
  mkRelation ("agent_id"%string :: skills_columns) rows.

(** *** Correlation, [correlateThreats] *)

(** Keys of the correlation [Map]: a number (from [agent_id]) and a string
    are never the same key. *)
Inductive key := KNum (z : Z) | KStr (s : string).

Definition key_eqb (a b : key) : bool :=
  match a, b with
  | KNum x, KNum y => (x =? y)%Z
  | KStr x, KStr y => String.eqb x y
  | _, _ => false
  end.

(** [threat.agent_id || threat.agent_name || threat.author || 'unknown'] *)
Definition correlation_key (t : threat) : key :=
  match JS.truthy_num (agent_id t) with
  | Some z => KNum z
  | None =>
      match JS.truthy_str (agent_name t) with
      | Some s => KStr s
      | None =>
          match JS.truthy_str (author t) with
          | Some s => KStr s
          | None => KStr "unknown"
          end
      end
  end.

(** The threat objects live in the [threats] array; the arrays held by the
    correlation map share them, so the map stores positions of the array. *)
Definition correlation_map := list (key * list nat).

Definition indexed (threats : list threat) : list (nat * threat) :=
  combine (seq 0 (length threats)) threats.

(** [threats.forEach(threat => { ...; correlationMap.get(key).push(threat) })] *)
Definition build_correlationMap (threats : list threat) : correlation_map :=
  JS.group_by key_eqb (fun p => correlation_key (snd p)) fst (indexed threats) [].

Definition boost (boostFactor : Q) (t : threat) : threat :=
  {| type := type t; subtype := subtype t;
     agent_id := agent_id t; agent_name := agent_name t; author := author t;
     risk_score := Qmin (risk_score t * boostFactor) 1.0;
     correlation_boost := Some boostFactor |}.

Fixpoint update_at (store : list threat) (ref : nat) (f : threat -> threat)
  : list threat :=
  match store, ref with
  | [], _ => []
  | t :: store', O => f t :: store'
  | t :: store', S ref' => t :: update_at store' ref' f
  end.

Definition boostFactor_of (n : nat) : Q := 1 + (JS.count_Q n - 1) * 0.2.

Definition boost_group (store : list threat) (agentThreats : list nat)
  : list threat :=
  if (1 <? length agentThreats)%nat then
    fold_left
      (fun st ref => update_at st ref (boost (boostFactor_of (length agentThreats))))
      agentThreats store
  else store.

Definition correlateThreats (threats : list threat) : list threat :=
  let correlationMap := build_correlationMap threats in
  let store :=
    fold_left (fun st entry => boost_group st (snd entry)) correlationMap threats in
  JS.sort (fun a b => risk_score b - risk_score a) store.

(** What the specification says of one signal: its risk is multiplied by
    the boost factor of its key and capped when the key has other signals. *)
Definition signalCount (threats : list threat) (k : key) : nat :=
  length (filter (fun t => key_eqb (correlation_key t) k) threats).

Definition correlated (threats : list threat) (t : threat) : threat :=
  let n := signalCount threats (correlation_key t) in
  if (1 <? n)%nat then boost (1 + (JS.count_Q n - 1) * 0.2) t else t.

Definition signal (agent : Z) (risk : Q) : threat :=
  mkThreat "supply_chain" "suspicious_skill" (Some agent) None None risk None.

(** The grouping in the words of the specification, read off the fields
    of two signals and not off the key of the map: two signals refer to
    the same agent when both carry the same agent id; a signal with an
    agent id and one without never do; two signals without an agent id do
    when they name the same agent or author, the agent name going before
    the author, and a signal that names nobody counting as one that names
    'unknown'. *)
Definition named (t : threat) : string :=
  match JS.truthy_str (agent_name t) with
  | Some s => s
  | None =>
      match JS.truthy_str (author t) with
      | Some s => s
      | None => "unknown"
      end
  end.

Definition same_reference (t t' : threat) : bool :=
  match JS.truthy_num (agent_id t), JS.truthy_num (agent_id t') with
  | Some a, Some a' => (a =? a')%Z
  | None, None => String.eqb (named t) (named t')
  | _, _ => false
  end.

(** The number of signals of an array that refer to the agent or author
    of a signal. *)
Definition signals_of (threats : list threat) (t : threat) : nat :=
  length (filter (same_reference t) threats).

Definition by_author (name : string) (risk : Q) : threat :=
  mkThreat "supply_chain" "unusual_update_pattern" None None (Some name) risk None.

Definition by_agent_name (name : string) (risk : Q) : threat :=
  mkThreat "network_threats" "reputation_manipulation" None (Some name) None risk None.

(** Signals of two agents, of an author and of an agent of the author's
    name. *)
Definition mixed_signals : list threat :=
  [ signal 42 0.5; signal 7 0.9; by_author "eve" 0.4; signal 42 0.5;
    by_agent_name "eve" 0.6; signal 42 0.5; by_author "bob" 0.3 ].

End Threat.

(** ** Properties of the threat correlator *)

Module ThreatFacts.
Import Threat ListFacts.
Open Scope Q_scope.

Lemma rapid_skill_creation_risk_bounded r :
  0 <= risk_score (rapid_skill_creation r) <= 1.
Proof.
  unfold rapid_skill_creation; simpl. split.
  - apply Q.min_glb; [lra|].
    assert (0 <= JS.count_Q (snd r)).
    { unfold JS.count_Q. change 0 with (inject_Z 0). rewrite <- Zle_Qle. lia. }
    nra.
  - apply Qle_trans with 0.9; [apply Q.le_min_l|lra].
Qed.

(** The first query names [agent_id], which the [skills] table of the
    repository does not have: it is rejected whatever the rows are. *)
Lemma rapidCreators_rejected now rows :
  rapidCreators now (skills_table rows) = Undefined_column "agent_id"%string.
Proof. reflexivity. Qed.


(** The risk of the credential-harvesting signal is not capped: had the
    table the column [agent_id], five findings would give 1.05. *)
Lemma credential_harvesting_uncapped :
  (exists t,
     analyzeAgentBehavior 3000 (skills_with_agent_id [harvest_skill])
       (security_alerts_table harvest_alerts) = [t]
     /\ subtype t = "credential_harvesting"%string
     /\ risk_score t == 1.05)
  /\ forall name n, (5 <= n)%nat ->
       1 < risk_score (credential_harvesting (name, n)).
Proof.
  split; [eexists; split; [vm_compute; reflexivity|split; reflexivity]|].
  intros name n Hn. unfold credential_harvesting. cbn [risk_score snd].
  assert (H : 5 <= JS.count_Q n).
  { unfold JS.count_Q. change 5 with (inject_Z 5). rewrite <- Zle_Qle. lia. }
  lra.
Qed.

Lemma key_eqb_eq a b : key_eqb a b = true <-> a = b.
Proof.
  destruct a, b; simpl; split; intro H; try discriminate; try congruence.
  - apply Z.eqb_eq in H. congruence.
  - inversion H. apply Z.eqb_refl.
  - apply String.eqb_eq in H. congruence.
  - inversion H. apply String.eqb_refl.
Qed.

Lemma key_eqb_refl a : key_eqb a a = true.
Proof. now apply key_eqb_eq. Qed.

Lemma key_eqb_sym a b : key_eqb a b = key_eqb b a.
Proof.
  destruct (key_eqb a b) eqn:E.
  - apply key_eqb_eq in E. subst. symmetry. apply key_eqb_refl.
  - destruct (key_eqb b a) eqn:E'; [|reflexivity].
    apply key_eqb_eq in E'. subst. now rewrite key_eqb_refl in E.
Qed.

Definition has_key (k : key) (p : nat * threat) : bool :=
  key_eqb (correlation_key (snd p)) k.

(** The positions of the signals of one key. *)
Definition group_refs (ts : list threat) (k : key) : list nat :=
  map fst (filter (has_key k) (indexed ts)).

Lemma build_refs ts k :
  JS.group_get key_eqb (build_correlationMap ts) k = group_refs ts k.
Proof.
  unfold build_correlationMap.
  now rewrite (JS.group_get_group_by _ key_eqb_eq).
Qed.

Lemma build_NoDup ts : NoDup (map fst (build_correlationMap ts)).
Proof. apply (JS.group_by_NoDup _ key_eqb_eq). constructor. Qed.

Lemma group_refs_NoDup ts k : NoDup (group_refs ts k).
Proof.
  apply NoDup_map_fst_filter. unfold indexed.
  rewrite combine_seq_fst. apply seq_NoDup.
Qed.

Lemma group_refs_length ts k : length (group_refs ts k) = signalCount ts k.
Proof.
  unfold group_refs, signalCount, has_key. rewrite length_map.
  rewrite (length_filter_snd (fun t => key_eqb (correlation_key t) k)).
  unfold indexed. now rewrite combine_seq_snd.
Qed.

Lemma group_refs_In ts k i :
  In i (group_refs ts k) <->
  exists t, nth_error ts i = Some t /\ correlation_key t = k.
Proof.
  unfold group_refs. rewrite in_map_iff. split.
  - intros [[j t] [Hj Hin]]. simpl in Hj. subst j.
    apply filter_In in Hin. destruct Hin as [Hin Hk].
    apply combine_seq_In in Hin. rewrite Nat.sub_0_r in Hin.
    exists t. split; [tauto|]. now apply key_eqb_eq.
  - intros [t [Hn Hk]]. exists (i, t). split; [reflexivity|].
    apply filter_In. split.
    + apply combine_seq_In. rewrite Nat.sub_0_r. split; [lia|exact Hn].
    + unfold has_key. simpl. now apply key_eqb_eq.
Qed.

Lemma nth_error_update_at st r f i :
  nth_error (update_at st r f) i =
  if (i =? r)%nat then option_map f (nth_error st i) else nth_error st i.
Proof.
  revert r i. induction st as [|t st IH]; intros r i; simpl.
  - destruct i, r; simpl; try reflexivity. now destruct (i =? r)%nat.
  - destruct r, i; simpl; try reflexivity. apply IH.
Qed.

Lemma nth_error_fold_update f refs st i :
  NoDup refs ->
  nth_error (fold_left (fun st ref => update_at st ref f) refs st) i =
  if existsb (Nat.eqb i) refs then option_map f (nth_error st i)
  else nth_error st i.
Proof.
  revert st. induction refs as [|r refs IH]; intros st Hnd; simpl; [reflexivity|].
  inversion Hnd as [|? ? Hn Hd]; subst.
  rewrite IH by assumption. rewrite nth_error_update_at.
  destruct (i =? r)%nat eqn:E; simpl; [|reflexivity].
  apply Nat.eqb_eq in E. subst i.
  destruct (existsb (Nat.eqb r) refs) eqn:Ex; [|reflexivity].
  apply existsb_exists in Ex. destruct Ex as [x [Hx Hr]].
  apply Nat.eqb_eq in Hr. subst x. contradiction.
Qed.

Lemma nth_error_boost_group st refs i :
  NoDup refs ->
  nth_error (boost_group st refs) i =
  if (1 <? length refs)%nat && existsb (Nat.eqb i) refs
  then option_map (boost (boostFactor_of (length refs))) (nth_error st i)
  else nth_error st i.
Proof.
  intro Hnd. unfold boost_group.
  destruct (1 <? length refs)%nat; simpl; [|reflexivity].
  now apply nth_error_fold_update.
Qed.

Lemma existsb_group_refs ts k i t :
  nth_error ts i = Some t ->
  existsb (Nat.eqb i) (group_refs ts k) = key_eqb (correlation_key t) k.
Proof.
  intro Hn. destruct (key_eqb (correlation_key t) k) eqn:E.
  - apply existsb_exists. exists i. split; [|apply Nat.eqb_refl].
    apply group_refs_In. exists t. split; [exact Hn|now apply key_eqb_eq].
  - destruct (existsb _ _) eqn:Ex; [|reflexivity].
    apply existsb_exists in Ex. destruct Ex as [x [Hx Hi]].
    apply Nat.eqb_eq in Hi. subst x. apply group_refs_In in Hx.
    destruct Hx as [t' [Ht' Hk]]. rewrite Hn in Ht'. inversion Ht'; subst.
    now rewrite key_eqb_refl in E.
Qed.

Lemma nth_error_boost_entries ts (m : correlation_map) st i t :
  NoDup (map fst m) ->
  (forall k refs, In (k, refs) m -> refs = group_refs ts k) ->
  nth_error ts i = Some t ->
  nth_error (fold_left (fun st entry => boost_group st (snd entry)) m st) i =
  if existsb (fun k => key_eqb k (correlation_key t)) (map fst m)
     && (1 <? signalCount ts (correlation_key t))%nat
  then option_map (boost (boostFactor_of (signalCount ts (correlation_key t))))
         (nth_error st i)
  else nth_error st i.
Proof.
  intros Hnd Hrefs Hn. revert st Hnd Hrefs.
  induction m as [|[k refs] m IH]; intros st Hnd Hrefs; simpl; [reflexivity|].
  inversion Hnd as [|? ? Hnk Hd]; subst.
  assert (Hr : refs = group_refs ts k) by (apply Hrefs; now left).
  rewrite IH; [|assumption|intros; apply Hrefs; now right].
  rewrite nth_error_boost_group by (rewrite Hr; apply group_refs_NoDup).
  rewrite Hr, group_refs_length, (existsb_group_refs _ _ _ Hn).
  rewrite (key_eqb_sym (correlation_key t) k).
  destruct (key_eqb k (correlation_key t)) eqn:E; simpl.
  - apply key_eqb_eq in E. subst k.
    replace (existsb _ (map fst m)) with false;
      [simpl; now rewrite andb_true_r|].
    symmetry. apply not_true_is_false. intro Ex.
    apply existsb_exists in Ex. destruct Ex as [x [Hx Hk]].
    apply key_eqb_eq in Hk. subst x. contradiction.
  - now rewrite andb_false_r.
Qed.

Lemma has_entry ts i t :
  nth_error ts i = Some t ->
  existsb (fun k => key_eqb k (correlation_key t))
    (map fst (build_correlationMap ts)) = true.
Proof.
  intro Hn.
  apply JS.group_get_has. rewrite build_refs. intro He.
  assert (Hin : In i (group_refs ts (correlation_key t)))
    by (apply group_refs_In; now exists t).
  now rewrite He in Hin.
Qed.

Lemma length_update_at st r f : length (update_at st r f) = length st.
Proof.
  revert r. induction st as [|t st IH]; intro r; simpl; [reflexivity|].
  destruct r; simpl; [reflexivity|]. now rewrite IH.
Qed.

Lemma length_boost_group st refs : length (boost_group st refs) = length st.
Proof.
  unfold boost_group. destruct (1 <? length refs)%nat; [|reflexivity].
  generalize (boost (boostFactor_of (length refs))) as f. intro f.
  revert st. induction refs as [|r refs IH]; intro st; simpl; [reflexivity|].
  now rewrite IH, length_update_at.
Qed.

Lemma length_boost_entries (m : correlation_map) st :
  length (fold_left (fun st entry => boost_group st (snd entry)) m st) = length st.
Proof.
  revert st. induction m as [|e m IH]; intro st; simpl; [reflexivity|].
  now rewrite IH, length_boost_group.
Qed.

Lemma boosted_store ts :
  fold_left (fun st entry => boost_group st (snd entry))
    (build_correlationMap ts) ts
  = map (correlated ts) ts.
Proof.
  apply nth_error_ext. intro i. rewrite nth_error_map.
  destruct (nth_error ts i) as [t|] eqn:Hn.
  - rewrite (@nth_error_boost_entries ts (build_correlationMap ts) ts i t).
    + rewrite (has_entry _ _ Hn), Hn. simpl. unfold correlated.
      now destruct (1 <? _)%nat.
    + apply build_NoDup.
    + intros k refs Hin. rewrite <- build_refs. symmetry.
      apply (JS.group_get_In _ key_eqb_eq); [apply build_NoDup|exact Hin].
    + exact Hn.
  - simpl. apply nth_error_None. apply nth_error_None in Hn.
    now rewrite length_boost_entries.
Qed.

Lemma signalCount_pos ts t : In t ts -> (1 <= signalCount ts (correlation_key t))%nat.
Proof.
  intro Hin. unfold signalCount.
  assert (H : In t (filter (fun t' => key_eqb (correlation_key t') (correlation_key t)) ts)).
  { apply filter_In. split; [exact Hin|apply key_eqb_refl]. }
  destruct (filter _ ts); [contradiction|simpl; lia].
Qed.

Lemma same_key_reference t t' :
  key_eqb (correlation_key t') (correlation_key t) = same_reference t t'.
Proof.
  unfold correlation_key, same_reference, named.
  destruct (JS.truthy_num (agent_id t)), (JS.truthy_num (agent_id t'));
    destruct (JS.truthy_str (agent_name t)), (JS.truthy_str (agent_name t')),
      (JS.truthy_str (author t)), (JS.truthy_str (author t'));
    cbn [key_eqb]; try reflexivity;
    try apply Z.eqb_sym; apply String.eqb_sym.
Qed.

Lemma signalCount_signals_of threats t :
  signalCount threats (correlation_key t) = signals_of threats t.
Proof.
  unfold signalCount, signals_of. f_equal.
  apply filter_ext. intro t'. apply same_key_reference.
Qed.

(** C2: [correlateThreats] groups the signals by the agent or author they
    refer to: the group of a signal holds exactly the signals that carry
    its agent id or, without an agent id, its agent name or author.  The
    output is, up to the final ordering, the input in which every signal
    whose group has n > 1 signals has its risk multiplied by
    1 + 0.2 * (n - 1), capped at 1, with that factor recorded; a signal
    whose agent or author has no other signal is returned as it was, and
    the factor of a single signal is 1; a signal of base risk 0.5 whose
    agent has three signals ends at 0.7.  Three signals of one agent of
    risk 0.5 all end at 0.7; among the signals of several agents and
    authors only those of the same agent or author boost each other. *)
Theorem correlateThreats_boost (threats : list threat) :
  Permutation (correlateThreats threats) (map (correlated threats) threats)
  /\ (forall t, signalCount threats (correlation_key t) = signals_of threats t)
  /\ (forall t n, In t threats ->
        signals_of threats t = n -> (1 < n)%nat ->
        risk_score (correlated threats t)
          == Qmin (risk_score t * (1 + 0.2 * (JS.count_Q n - 1))) 1
        /\ (exists b, correlation_boost (correlated threats t) = Some b
                      /\ b == 1 + 0.2 * (JS.count_Q n - 1))
        /\ type (correlated threats t) = type t
        /\ subtype (correlated threats t) = subtype t
        /\ agent_id (correlated threats t) = agent_id t
        /\ agent_name (correlated threats t) = agent_name t
        /\ author (correlated threats t) = author t)
  /\ (forall t, In t threats ->
        signals_of threats t = 1%nat ->
        correlated threats t = t /\ boostFactor_of 1 == 1)
  /\ (forall t, In t threats ->
        signals_of threats t = 3%nat ->
        risk_score t == 0.5 -> risk_score (correlated threats t) == 0.7)
  /\ (forall a risk others,
        a <> 0%Z ->
        Forall (fun t => agent_id t <> Some a) others ->
        In (signal a risk) (correlateThreats (signal a risk :: others)))
  /\ (let out := correlateThreats [signal 42 0.5; signal 42 0.5; signal 42 0.5] in
      length out = 3%nat /\ Forall (fun t => risk_score t == 0.7) out)
  /\ Forall2
       (fun t expected =>
          agent_id t = agent_id (fst expected)
          /\ agent_name t = agent_name (fst expected)
          /\ author t = author (fst expected)
          /\ risk_score t == risk_score (fst expected)
          /\ match correlation_boost t, snd expected with
             | Some b, Some b' => b == b'
             | None, None => True
             | _, _ => False
             end)
       (correlateThreats mixed_signals)
       [ (signal 7 0.9, None);
         (by_agent_name "eve" 0.72, Some 1.2);
         (signal 42 0.7, Some 1.4);
         (signal 42 0.7, Some 1.4);
         (signal 42 0.7, Some 1.4);
         (by_author "eve" 0.48, Some 1.2);
         (by_author "bob" 0.3, None) ].
Proof.
  split; [|split; [|split; [|split; [|split; [|split; [|split]]]]]].
  - unfold correlateThreats. cbv zeta. rewrite boosted_store.
    symmetry. apply JS.sort_perm.
  - intro t. apply signalCount_signals_of.
  - intros t n Hin Hn Hlt. unfold correlated.
    rewrite signalCount_signals_of, Hn.
    apply Nat.ltb_lt in Hlt. rewrite Hlt. simpl. split.
    + apply Q.min_compat; [|reflexivity].
      apply Qmult_comp; [reflexivity|ring].
    + split; [eexists; split; [reflexivity|ring]|tauto].
  - intros t Hin Hn. unfold correlated.
    rewrite signalCount_signals_of, Hn. split; reflexivity.
  - intros t Hin Hn Hr. unfold correlated.
    rewrite signalCount_signals_of, Hn. simpl.
    rewrite Hr. reflexivity.
  - intros a risk others Ha Hothers.
    apply Permutation_in with (map (correlated (signal a risk :: others))
                                 (signal a risk :: others)).
    + unfold correlateThreats. cbv zeta. rewrite boosted_store.
      apply JS.sort_perm.
    + left. unfold correlated. rewrite signalCount_signals_of.
      replace (signals_of (signal a risk :: others) (signal a risk)) with 1%nat;
        [reflexivity|].
      unfold signals_of. cbn [filter].
      replace (same_reference (signal a risk) (signal a risk)) with true.
      * cbn [length]. f_equal. symmetry.
        assert (E : filter (same_reference (signal a risk)) others = []);
          [|now rewrite E].
        induction Hothers as [|t l Ht Hl IH]; [reflexivity|].
        cbn [filter]. rewrite IH.
        replace (same_reference (signal a risk) t) with false; [reflexivity|].
        symmetry. unfold same_reference, signal. cbn [agent_id JS.truthy_num].
        destruct (a =? 0)%Z eqn:E0; [apply Z.eqb_eq in E0; contradiction|].
        destruct (agent_id t) as [b|]; simpl; [|reflexivity].
        destruct (b =? 0)%Z; [reflexivity|].
        apply Z.eqb_neq. intro E. apply Ht. now subst.
      * symmetry. unfold same_reference, signal. cbn [agent_id JS.truthy_num].
        destruct (a =? 0)%Z eqn:E0; [apply Z.eqb_eq in E0; contradiction|].
        apply Z.eqb_refl.
  - split; [reflexivity|]. repeat constructor.
  - vm_compute. repeat constructor.
Qed.

End ThreatFacts.

(** ** Network analyzer (NetworkAnalyzer) *)

Module Network.

Open Scope Q_scope.

(** A node of the interaction graph; only the identifier takes part in
    the passes below. *)
Record node := mkNode {
  node_id : Z;
  node_name : string
}.

(** The edge identifier [`${min}-${max}-${kind}`] is kept as the triple it
    is rendered from. *)
Definition edge_key := (Z * Z * string)%type.

Record edge := mkEdge {
  edge_id : edge_key;
  source : Z;
  target : Z;
  edge_type : string;
  weight : Q;
  overlapping_hours : list Z      (* metadata.overlapping_hours *)
}.

Record interactions := mkInteractions {
  nodes : list node;
  edges : list edge
}.

Definition mem (x : Z) (l : list Z) : bool := existsb (Z.eqb x) l.

(** *** [findAmplificationNetworks] *)

Record amplification := mkAmplification {
  center_agent : Z;
  connected_agents : list Z;
  strength : Q;
  total_connections : nat;
  high_weight_connections : nat
}.

Definition incident (n : Z) (e : edge) : bool :=
  (source e =? n)%Z || (target e =? n)%Z.

Definition sum_weights (es : list edge) : Q :=
  fold_left (fun sum e => sum + weight e) es 0.

Definition amplification_of (es : list edge) (n : node) : list amplification :=
  let connectedEdges := filter (incident (node_id n)) es in
  if (5 <? length connectedEdges)%nat then
    let avgWeight := sum_weights connectedEdges / JS.count_Q (length connectedEdges) in
    let highWeightConnections :=
      filter (fun e => JS.Qlt_bool (avgWeight * 1.5) (weight e)) connectedEdges in
    if Qle_bool (JS.count_Q (length connectedEdges) * 0.7)
         (JS.count_Q (length highWeightConnections))
    then [ {| center_agent := node_id n;
              connected_agents :=
                map (fun e => if (source e =? node_id n)%Z then target e else source e)
                  connectedEdges;
              strength := avgWeight;
              total_connections := length connectedEdges;
              high_weight_connections := length highWeightConnections |} ]
    else []
  else [].

Definition findAmplificationNetworks (g : interactions) : list amplification :=
  flat_map (amplification_of (edges g)) (nodes g).

(** A hub with six incident edges, five of them heavy. *)
Definition star_graph : interactions :=
  {| nodes := map (fun i => mkNode i "agent") [0; 1; 2; 3; 4; 5; 6]%Z;
     edges := map (fun i => mkEdge (0%Z, i, "submolt"%string) 0%Z i
                              "submolt_collaboration"
                              (if (i =? 6)%Z then 0.1 else 2) [])
                [1; 2; 3; 4; 5; 6]%Z |}.

(** *** [detectCommunityStructures] and [exploreWeightedCommunity] *)

Record neighbor := mkNeighbor {
  nodeId : Z;
  nb_weight : Q
}.

(** The adjacency [Map]: node id to the array of its neighbours. *)
Definition adjacency := list (Z * list neighbor).

Definition adj_has (adj : adjacency) (k : Z) : bool :=
  existsb (fun en => (fst en =? k)%Z) adj.

(** [adjList.get(k) || []] *)
Definition adj_get (adj : adjacency) (k : Z) : list neighbor :=
  JS.group_get Z.eqb adj k.

(** [adjList.set(k, [])] *)
Fixpoint adj_set_empty (k : Z) (adj : adjacency) : adjacency :=
  match adj with
  | [] => [(k, [])]
  | (k', ns) :: adj' =>
      if (k' =? k)%Z then (k', []) :: adj' else (k', ns) :: adj_set_empty k adj'
  end.

(** [adjList.get(k).push(nb)] for a key that is present. *)
Fixpoint adj_push (k : Z) (nb : neighbor) (adj : adjacency) : adjacency :=
  match adj with
  | [] => []
  | (k', ns) :: adj' =>
      if (k' =? k)%Z then (k', ns ++ [nb]) :: adj' else (k', ns) :: adj_push k nb adj'
  end.

Definition add_edge (adj : adjacency) (e : edge) : adjacency :=
  if adj_has adj (source e) && adj_has adj (target e) then
    adj_push (target e) (mkNeighbor (source e) (weight e))
      (adj_push (source e) (mkNeighbor (target e) (weight e)) adj)
  else adj.

Definition build_adjList (g : interactions) : adjacency :=
  fold_left add_edge (edges g)
    (fold_left (fun adj n => adj_set_empty (node_id n) adj) (nodes g) []).

(** The accumulator [community] of the exploration. *)
Record exploration := mkExploration {
  x_nodes : list Z;
  x_total_weight : Q;
  x_edges : nat
}.

(** The [for (const neighbor of neighbors)] loop: [visited] does not change
    while it runs. *)
Definition visit_neighbors (threshold : Q) (visited : list Z)
    (neighbors : list neighbor) (queue : list Z) (c : exploration)
  : list Z * exploration :=
  fold_left
    (fun qc nb =>
       if negb (mem (nodeId nb) visited) && JS.Qlt_bool threshold (nb_weight nb)
       then (fst qc ++ [nodeId nb],
             {| x_nodes := x_nodes (snd qc);
                x_total_weight := x_total_weight (snd qc) + nb_weight nb;
                x_edges := S (x_edges (snd qc)) |})
       else qc)
    neighbors (queue, c).

(** The [while (queue.length > 0)] loop, by a bound on its iterations. *)
Fixpoint explore_loop (fuel : nat) (adj : adjacency) (threshold : Q)
    (queue visited : list Z) (c : exploration) : exploration * list Z :=
  match fuel with
  | O => (c, visited)
  | S fuel' =>
      match queue with
      | [] => (c, visited)
      | n :: queue' =>
          if mem n visited then explore_loop fuel' adj threshold queue' visited c
          else
            let visited' := n :: visited in
            let c' := {| x_nodes := x_nodes c ++ [n];
                         x_total_weight := x_total_weight c;
                         x_edges := x_edges c |} in
            let qc := visit_neighbors threshold visited' (adj_get adj n) queue' c' in
            explore_loop fuel' adj threshold (fst qc) visited' (snd qc)
      end
  end.

(** Every iteration removes one entry of the queue and adds at most the
    neighbours of a node that was not visited before: the queue length plus
    the entries of the unvisited nodes bounds the number of iterations. *)
Definition unvisited_work (adj : adjacency) (visited : list Z) : nat :=
  list_sum
    (map (fun en => if mem (fst en) visited then O else S (length (snd en))) adj).

Definition explore_fuel (adj : adjacency) (queue visited : list Z) : nat :=
  length queue + unvisited_work adj visited.

Definition exploreWeightedCommunity (startNodeId : Z) (adj : adjacency)
    (visited : list Z) (threshold : Q) : exploration * list Z :=
  explore_loop (explore_fuel adj [startNodeId] visited) adj threshold
    [startNodeId] visited (mkExploration [] 0 0).

(** [String(n)] and the default order of [Array.prototype.sort], which
    compares the elements as strings. *)
Definition to_string (z : Z) : string := NilZero.string_of_int (Z.to_int z).

Definition default_compare (a b : Z) : Q :=
  match String.compare (to_string a) (to_string b) with
  | Lt => -1
  | Eq => 0
  | Gt => 1
  end.

Definition default_sort (l : list Z) : list Z := JS.sort default_compare l.

Record community := mkCommunity {
  community_id : string;   (* the text that is hashed into the id *)
  com_nodes : list Z;
  total_weight : Q;
  avg_weight : Q;
  density : Q;
  dominant_type : string
}.

(** The edge types are never numeric strings, so the counter object lists
    them in insertion order. *)
Definition getDominantInteractionType (nodeIds : list Z) (es : list edge) : string :=
  let typeCounts :=
    JS.tally String.eqb
      (map edge_type
         (filter (fun e => mem (source e) nodeIds && mem (target e) nodeIds) es)) in
  match JS.sort (fun a b => JS.count_Q (snd b) - JS.count_Q (snd a)) typeCounts with
  | (t, _) :: _ => if String.eqb t "" then "unknown"%string else t
  | [] => "unknown"%string
  end.

Definition default_threshold : Q := 0.3.

(** [generateCommunityId] sorts the node array in place; the text that is
    hashed stands for the identifier, and the sorted array is returned with
    it because the caller reads the array again. *)
Definition generateCommunityId (nodeIds : list Z) : string * list Z :=
  let sorted := default_sort nodeIds in
  (String.concat "," (map to_string sorted), sorted).

(** The object literal of a detected community.  A division by a zero edge
    count cannot occur for two or more nodes. *)
Definition make_community (es : list edge) (c : exploration) : community :=
  let id_nodes := generateCommunityId (x_nodes c) in
  let size := JS.count_Q (length (snd id_nodes)) in
  {| community_id := fst id_nodes;
     com_nodes := snd id_nodes;
     total_weight := x_total_weight c;
     avg_weight := x_total_weight c / JS.count_Q (x_edges c);
     density := JS.count_Q (x_edges c) / (size * (size - 1) / 2);
     dominant_type := getDominantInteractionType (snd id_nodes) es |}.

Definition detect_step (adj : adjacency) (es : list edge)
    (st : list Z * list community) (n : node) : list Z * list community :=
  if mem (node_id n) (fst st) then st
  else
    let cv := exploreWeightedCommunity (node_id n) adj (fst st) default_threshold in
    if (1 <? length (x_nodes (fst cv)))%nat
    then (snd cv, snd st ++ [make_community es (fst cv)])
    else (snd cv, snd st).

Definition detectCommunityStructures (g : interactions) : list community :=
  let adjList := build_adjList g in
  let communities :=
    snd (fold_left (detect_step adjList (edges g)) (nodes g) ([], [])) in
  JS.sort
    (fun a b => JS.count_Q (length (com_nodes b)) * avg_weight b
                - JS.count_Q (length (com_nodes a)) * avg_weight a)
    communities.

(** Nodes 1, 2, 3 pairwise joined with weight 0.5; 4 and 5 joined with 0.1. *)
Definition link (a b : Z) (w : Q) : edge :=
  mkEdge (a, b, "submolt"%string) a b "submolt_collaboration" w [].

Definition five_node_graph : interactions :=
  {| nodes := map (fun i => mkNode i "agent") [1; 2; 3; 4; 5]%Z;
     edges := [link 1 2 0.5; link 1 3 0.5; link 2 3 0.5; link 4 5 0.1] |}.

(** An edge of the graph heavier than the threshold, in either direction. *)
Definition strong_edge (g : interactions) (threshold : Q) (u v : Z) : Prop :=
  exists e, In e (edges g) /\ threshold < weight e /\
            ((source e = u /\ target e = v) \/ (source e = v /\ target e = u)).

(** [v] is reached from [root] along strong edges through members only. *)
Inductive reached (g : interactions) (threshold : Q) (members : list Z)
    (root : Z) : Z -> Prop :=
| reached_root : In root members -> reached g threshold members root root
| reached_step u v :
    reached g threshold members root u -> In v members ->
    strong_edge g threshold u v -> reached g threshold members root v.

(** A community of the result: two or more members, each reached from one
    node of the graph along edges heavier than 0.3 between members. *)
Definition flooded (g : interactions) (c : community) : Prop :=
  (1 < length (com_nodes c))%nat /\
  exists root,
    (exists n, In n (nodes g) /\ node_id n = root) /\
    forall v, In v (com_nodes c) -> reached g 0.3 (com_nodes c) root v.

(** *** [addTemporalInteractionEdges] *)

(** A row of [posts]; rows without an author never pass [nodes.has] and
    are left out. *)
Record post := mkPost {
  p_agent_id : Z;
  p_created_at : Z          (* seconds since the epoch *)
}.

Definition days (n : Z) : Z := (n * 86400)%Z.

(** [EXTRACT(HOUR FROM created_at)] *)
Definition hour_of (t : Z) : Z := ((t / 3600) mod 24)%Z.

Record pattern := mkPattern {
  agent_id : Z;
  activity_hour : Z;
  activity_count : nat
}.

Definition pair_eqb (a b : Z * Z) : bool :=
  (fst a =? fst b)%Z && (snd a =? snd b)%Z.

(** The query: one row per agent and hour of the day with more than two
    posts of the last fourteen days. *)
Definition temporalPatterns (now : Z) (posts : list post) : list pattern :=
  map (fun r => mkPattern (fst (fst r)) (snd (fst r)) (snd r))
    (filter (fun r => (2 <? snd r)%nat)
       (JS.tally pair_eqb
          (map (fun p => (p_agent_id p, hour_of (p_created_at p)))
             (filter (fun p => (now - days 14 <? p_created_at p)%Z) posts)))).

(** [hourlyActivity]: hour to the array of [{agent_id, activity_count}]. *)
Definition hourlyActivity (rows : list pattern) : list (Z * list (Z * nat)) :=
  JS.group_by Z.eqb activity_hour (fun r => (agent_id r, activity_count r)) rows [].

Definition edge_key_eqb (a b : edge_key) : bool :=
  (fst (fst a) =? fst (fst b))%Z && (snd (fst a) =? snd (fst b))%Z
  && String.eqb (snd a) (snd b).

(** The [edges] map holds every edge under its own id. *)
Definition edges_has (es : list edge) (k : edge_key) : bool :=
  existsb (fun e => edge_key_eqb (edge_id e) k) es.

Definition edges_get (es : list edge) (k : edge_key) : option edge :=
  find (fun e => edge_key_eqb (edge_id e) k) es.

Definition nodes_has (ns : list node) (a : Z) : bool :=
  existsb (fun n => (node_id n =? a)%Z) ns.

Definition temporal_key (a b : Z) : edge_key :=
  (Z.min a b, Z.max a b, "temporal"%string).

(** [edge.metadata.overlapping_hours.push(hour); edge.weight += 0.2] on the
    edge stored under [k]. *)
Fixpoint strengthen (k : edge_key) (hour : Z) (es : list edge) : list edge :=
  match es with
  | [] => []
  | e :: es' =>
      if edge_key_eqb (edge_id e) k then
        {| edge_id := edge_id e; source := source e; target := target e;
           edge_type := edge_type e; weight := weight e + 0.2;
           overlapping_hours := overlapping_hours e ++ [hour] |} :: es'
      else e :: strengthen k hour es'
  end.

Definition link_agents (ns : list node) (hour : Z) (es : list edge)
    (agent1 agent2 : Z) : list edge :=
  if nodes_has ns agent1 && nodes_has ns agent2 then
    let edgeId := temporal_key agent1 agent2 in
    if negb (edges_has es edgeId) then
      es ++ [ {| edge_id := edgeId; source := agent1; target := agent2;
                 edge_type := "temporal_correlation"; weight := 0.4;
                 overlapping_hours := [hour] |} ]
    else strengthen edgeId hour es
  else es.

(** The two nested loops over [i] and [j > i]. *)
Fixpoint link_pairs (ns : list node) (hour : Z) (agents : list Z)
    (es : list edge) : list edge :=
  match agents with
  | [] => es
  | agent1 :: rest =>
      link_pairs ns hour rest
        (fold_left (fun es agent2 => link_agents ns hour es agent1 agent2) rest es)
  end.

Definition link_bucket (ns : list node) (es : list edge)
    (bucket : Z * list (Z * nat)) : list edge :=
  if (1 <? length (snd bucket))%nat
  then link_pairs ns (fst bucket) (map fst (snd bucket)) es
  else es.

Definition addTemporalInteractionEdges (now : Z) (posts : list post)
    (ns : list node) (es : list edge) : list edge :=
  fold_left (link_bucket ns) (hourlyActivity (temporalPatterns now posts)) es.

(** The hour buckets that hold both agents. *)
Definition shared_buckets (buckets : list (Z * list (Z * nat))) (a b : Z) : nat :=
  length
    (filter (fun bucket => mem a (map fst (snd bucket)) && mem b (map fst (snd bucket)))
       buckets).

(** The posts of an agent in the window that fall into one hour of the day. *)
Definition posts_in_hour (now : Z) (posts : list post) (a h : Z) : nat :=
  length
    (filter (fun p => (now - days 14 <? p_created_at p)%Z
                      && (p_agent_id p =? a)%Z
                      && (hour_of (p_created_at p) =? h)%Z)
       posts).

(** The edge of a pair after [j] links: absent, or seeded at 0.4 and
    strengthened [j - 1] times. *)
Definition temporal_link (a b : Z) (j : nat) (es : list edge) : Prop :=
  match j with
  | O => edges_get es (temporal_key a b) = None
  | S j' =>
      exists e, edges_get es (temporal_key a b) = Some e /\
                edge_type e = "temporal_correlation"%string /\
                weight e == 0.4 + 0.2 * JS.count_Q j' /\
                length (overlapping_hours e) = S j'
  end.

(** An agent has an activity bucket for an hour of the day when more than
    two of its posts in the window fall into that hour. *)
Definition qualifies (now : Z) (posts : list post) (a h : Z) : bool :=
  (2 <? posts_in_hour now posts a h)%nat.

Definition day_hours : list Z := map Z.of_nat (seq 0 24).

(** The overlapping hourly buckets of two agents. *)
Definition shared_hours (now : Z) (posts : list post) (a b : Z) : nat :=
  length
    (filter (fun h => qualifies now posts a h && qualifies now posts b h) day_hours).

(** Two agents, three posts each, all in the hour that starts at 05:00. *)
Definition two_agents : list node := [mkNode 1 "a"; mkNode 2 "b"].

Definition same_hour_posts : list post :=
  [ mkPost 1 18000; mkPost 1 18060; mkPost 1 18120;
    mkPost 2 18030; mkPost 2 18090; mkPost 2 18150 ].

(** As above, and three more posts each in the hour that starts at 09:00. *)
Definition two_hour_posts : list post :=
  same_hour_posts ++
  [ mkPost 1 32400; mkPost 1 32460; mkPost 1 32520;
    mkPost 2 32430; mkPost 2 32490; mkPost 2 32550 ].

End Network.

(** ** Properties of the network analyzer *)

Module NetworkFacts.
Import Network ListFacts.
Open Scope Q_scope.

Lemma Qlt_bool_iff x y : JS.Qlt_bool x y = true <-> x < y.
Proof.
  unfold JS.Qlt_bool. rewrite negb_true_iff. split.
  - intro H. apply Qnot_le_lt. intro Hle. apply Qle_bool_iff in Hle. congruence.
  - intro H. apply not_true_is_false. intro Hle. apply Qle_bool_iff in Hle.
    apply Qlt_not_le in H. contradiction.
Qed.

Fixpoint total (es : list edge) : Q :=
  match es with
  | [] => 0
  | e :: es' => weight e + total es'
  end.

Lemma fold_sum_total es a :
  fold_left (fun sum e => sum + weight e) es a == a + total es.
Proof.
  revert a. induction es as [|e es IH]; intro a; simpl; [ring|].
  rewrite IH. ring.
Qed.

Lemma sum_weights_total es : sum_weights es == total es.
Proof. unfold sum_weights. rewrite fold_sum_total. ring. Qed.

Lemma total_nonneg es : Forall (fun e => 0 <= weight e) es -> 0 <= total es.
Proof.
  induction 1 as [|e es He _ IH]; simpl; [apply Qle_refl|].
  lra.
Qed.

Lemma total_filter_le f es :
  Forall (fun e => 0 <= weight e) es -> total (filter f es) <= total es.
Proof.
  induction 1 as [|e es He _ IH]; simpl; [apply Qle_refl|].
  destruct (f e); simpl; lra.
Qed.

Lemma count_Q_S n : JS.count_Q (S n) == JS.count_Q n + 1.
Proof.
  unfold JS.count_Q. rewrite Nat2Z.inj_succ. unfold Z.succ.
  now rewrite inject_Z_plus.
Qed.

Lemma count_Q_nonneg n : 0 <= JS.count_Q n.
Proof.
  unfold JS.count_Q. change 0 with (inject_Z 0). rewrite <- Zle_Qle. lia.
Qed.

Lemma total_above c es :
  Forall (fun e => c < weight e) es ->
  es <> [] -> JS.count_Q (length es) * c < total es.
Proof.
  induction 1 as [|e es He Hes IH]; [congruence|intros _].
  simpl length. rewrite count_Q_S. simpl total.
  destruct es as [|e' es'].
  - change (JS.count_Q (length [])) with 0. simpl. lra.
  - assert (H := IH ltac:(congruence)). lra.
Qed.

Lemma amplification_of_nil es n :
  Forall (fun e => 0 <= weight e) es -> amplification_of es n = [].
Proof.
  intro Hpos. unfold amplification_of.
  set (ce := filter (incident (node_id n)) es).
  destruct (5 <? length ce)%nat eqn:Hlen; [|reflexivity].
  apply Nat.ltb_lt in Hlen. cbv zeta.
  set (avg := sum_weights ce / JS.count_Q (length ce)).
  set (high := filter (fun e => JS.Qlt_bool (avg * 1.5) (weight e)) ce).
  destruct (Qle_bool _ _) eqn:Hq; [|reflexivity].
  exfalso. apply Qle_bool_iff in Hq.
  assert (Hce : Forall (fun e => 0 <= weight e) ce).
  { apply Forall_forall. intros e He. apply filter_In in He.
    rewrite Forall_forall in Hpos. apply Hpos. tauto. }
  assert (HN : 5 < JS.count_Q (length ce)).
  { unfold JS.count_Q. change 5 with (inject_Z 5). rewrite <- Zlt_Qlt. lia. }
  assert (Havg : avg * JS.count_Q (length ce) == total ce).
  { unfold avg. rewrite sum_weights_total. field. lra. }
  assert (HS := total_nonneg Hce).
  assert (Hle := total_filter_le (fun e => JS.Qlt_bool (avg * 1.5) (weight e)) Hce).
  fold high in Hle.
  assert (Hhigh : Forall (fun e => avg * 1.5 < weight e) high).
  { apply Forall_forall. intros e He. apply filter_In in He.
    apply Qlt_bool_iff. tauto. }
  assert (Hne : high <> []).
  { intro E. rewrite E in Hq. change (JS.count_Q (length (@nil edge))) with 0 in Hq. lra. }
  assert (Hgt := total_above Hhigh Hne).
  assert (Hav0 : 0 <= avg).
  { assert (0 <= avg * JS.count_Q (length ce)) by lra. nra. }
  nra.
Qed.

(** C10: on a graph whose edges all have non-negative weights no node can
    have more than five incident edges of which at least 70% weigh more
    than 1.5 times the node's mean incident weight, so
    [findAmplificationNetworks] reports nothing. *)
Theorem findAmplificationNetworks_empty (g : interactions) :
  Forall (fun e => 0 <= weight e) (edges g) ->
  findAmplificationNetworks g = [].
Proof.
  intro Hpos. unfold findAmplificationNetworks.
  induction (nodes g) as [|n ns IH]; simpl; [reflexivity|].
  now rewrite amplification_of_nil, IH.
Qed.

Lemma findAmplificationNetworks_empty_witness :
  Forall (fun e => 0 <= weight e) (edges star_graph) /\
  findAmplificationNetworks star_graph = [].
Proof.
  assert (H : Forall (fun e => 0 <= weight e) (edges star_graph)).
  { repeat constructor; simpl; discriminate. }
  split; [exact H|exact (findAmplificationNetworks_empty star_graph H)].
Defined.

Lemma mem_In x l : mem x l = true <-> In x l.
Proof.
  unfold mem. rewrite existsb_exists. split.
  - intros [y [Hy E]]. apply Z.eqb_eq in E. now subst.
  - intro H. exists x. split; [exact H|apply Z.eqb_refl].
Qed.

Lemma mem_cons_neq x n l : x <> n -> mem x (n :: l) = mem x l.
Proof.
  intro H. unfold mem. simpl. apply Z.eqb_neq in H. now rewrite H.
Qed.

(** *** The iteration bound of the exploration is large enough *)

Lemma visit_neighbors_length th vis nbs q c :
  (length (fst (visit_neighbors th vis nbs q c)) <= length q + length nbs)%nat.
Proof.
  unfold visit_neighbors. revert q c.
  induction nbs as [|nb nbs IH]; intros q c; simpl; [lia|].
  destruct (negb _ && _); simpl.
  - etransitivity; [apply IH|]. simpl. rewrite length_app. simpl. lia.
  - etransitivity; [apply IH|]. simpl. lia.
Qed.

Lemma unvisited_work_cons k ns adj visited :
  unvisited_work ((k, ns) :: adj) visited
  = ((if mem k visited then O else S (length ns)) + unvisited_work adj visited)%nat.
Proof. reflexivity. Qed.

Lemma mem_head n l : mem n (n :: l) = true.
Proof. apply mem_In. now left. Qed.

Lemma unvisited_work_mono adj n visited :
  (unvisited_work adj (n :: visited) <= unvisited_work adj visited)%nat.
Proof.
  induction adj as [|[k ns] adj IH]; [reflexivity|].
  rewrite !unvisited_work_cons.
  destruct (Z.eq_dec k n) as [->|Hne].
  - rewrite mem_head. destruct (mem n visited); lia.
  - rewrite (mem_cons_neq _ Hne). destruct (mem k visited); lia.
Qed.

Lemma unvisited_work_visit adj n visited :
  mem n visited = false ->
  (length (adj_get adj n) + unvisited_work adj (n :: visited)
   <= unvisited_work adj visited)%nat.
Proof.
  intro Hn. induction adj as [|[k ns] adj IH]; [reflexivity|].
  rewrite !unvisited_work_cons. unfold adj_get in *. cbn [JS.group_get].
  destruct (Z.eqb_spec k n) as [->|Hne].
  - rewrite mem_head, Hn.
    assert (H := unvisited_work_mono adj n visited). lia.
  - rewrite (mem_cons_neq _ Hne). destruct (mem k visited); lia.
Qed.

Lemma explore_loop_fuel adj th fuel fuel' queue visited c :
  (explore_fuel adj queue visited <= fuel)%nat ->
  (explore_fuel adj queue visited <= fuel')%nat ->
  explore_loop fuel adj th queue visited c
  = explore_loop fuel' adj th queue visited c.
Proof.
  revert fuel' queue visited c.
  induction fuel as [|fuel IH]; intros fuel' queue visited c H H'.
  - unfold explore_fuel in H. destruct queue; [|simpl in H; lia].
    now destruct fuel'.
  - destruct fuel' as [|fuel'].
    + unfold explore_fuel in H'. destruct queue; [reflexivity|simpl in H'; lia].
    + destruct queue as [|n queue]; [reflexivity|]. simpl.
      unfold explore_fuel in *. simpl in H, H'.
      destruct (mem n visited) eqn:Hn.
      * apply IH; lia.
      * assert (Hq := visit_neighbors_length th (n :: visited) (adj_get adj n) queue
                        {| x_nodes := x_nodes c ++ [n];
                           x_total_weight := x_total_weight c;
                           x_edges := x_edges c |}).
        assert (Hw := unvisited_work_visit adj n visited Hn).
        apply IH; lia.
Qed.

(** More fuel than the bound does not change the result: the loop ends
    because the queue is empty. *)
Lemma exploreWeightedCommunity_total start adj visited th extra :
  explore_loop (explore_fuel adj [start] visited + extra) adj th [start] visited
    (mkExploration [] 0 0)
  = exploreWeightedCommunity start adj visited th.
Proof. unfold exploreWeightedCommunity. apply explore_loop_fuel; lia. Qed.

(** *** The adjacency list holds edges of the graph only *)

Definition joins (e : edge) (u : Z) (nb : neighbor) : Prop :=
  weight e = nb_weight nb /\
  ((source e = u /\ target e = nodeId nb) \/ (target e = u /\ source e = nodeId nb)).

Lemma adj_get_empty adj u :
  Forall (fun en => snd en = []) adj -> adj_get adj u = [].
Proof.
  unfold adj_get. induction 1 as [|[k ns] adj Hk _ IH]; simpl; [reflexivity|].
  simpl in Hk. subst ns. now destruct (k =? u)%Z.
Qed.

Lemma adj_set_empty_Forall k adj :
  Forall (fun en : Z * list neighbor => snd en = []) adj ->
  Forall (fun en : Z * list neighbor => snd en = []) (adj_set_empty k adj).
Proof.
  induction 1 as [|[k' ns] adj Hk Hadj IH]; simpl; [now repeat constructor|].
  destruct (k' =? k)%Z; constructor; auto.
Qed.

Lemma adj_get_push k x adj u nb :
  In nb (adj_get (adj_push k x adj) u) ->
  In nb (adj_get adj u) \/ (u = k /\ nb = x).
Proof.
  unfold adj_get. induction adj as [|[k' ns] adj IH]; simpl; [tauto|].
  destruct (Z.eqb_spec k' k) as [->|Hne]; simpl.
  - destruct (Z.eqb_spec k u) as [->|Hne]; [|tauto].
    intro H. apply in_app_or in H. destruct H as [H|[H|[]]]; auto.
  - destruct (k' =? u)%Z; [tauto|exact IH].
Qed.

Definition sound (g : interactions) (adj : adjacency) : Prop :=
  forall u nb, In nb (adj_get adj u) -> exists e, In e (edges g) /\ joins e u nb.

Lemma add_edge_sound g adj e :
  In e (edges g) -> sound g adj -> sound g (add_edge adj e).
Proof.
  intros He Hs u nb. unfold add_edge.
  destruct (adj_has adj (source e) && adj_has adj (target e)); [|apply Hs].
  intro H. apply adj_get_push in H. destruct H as [H|[-> ->]].
  - apply adj_get_push in H. destruct H as [H|[-> ->]]; [now apply Hs|].
    exists e. split; [exact He|]. unfold joins. simpl. tauto.
  - exists e. split; [exact He|]. unfold joins. simpl. tauto.
Qed.

Lemma build_adjList_sound g : sound g (build_adjList g).
Proof.
  unfold build_adjList.
  assert (H0 : sound g (fold_left (fun adj n => adj_set_empty (node_id n) adj) (nodes g) [])).
  { intros u nb H. rewrite adj_get_empty in H; [contradiction|].
    generalize (nodes g) as ns. intro ns.
    assert (Hnil : Forall (fun en : Z * list neighbor => snd en = []) []) by constructor.
    revert Hnil. generalize (@nil (Z * list neighbor)) as adj.
    induction ns as [|n ns IH]; intros adj Hadj; simpl; [exact Hadj|].
    apply IH. now apply adj_set_empty_Forall. }
  revert H0. generalize (fold_left (fun adj n => adj_set_empty (node_id n) adj) (nodes g) []).
  assert (Hin : incl (edges g) (edges g)) by apply incl_refl.
  revert Hin. generalize (edges g) at 1 3 as es.
  induction es as [|e es IH]; intros Hin adj Hs; simpl; [exact Hs|].
  apply IH.
  - intros x Hx. apply Hin. now right.
  - apply add_edge_sound; [apply Hin; now left|exact Hs].
Qed.

(** *** Every member is reached from the start along strong edges *)

Lemma reached_mono g th S S' root v :
  incl S S' -> reached g th S root v -> reached g th S' root v.
Proof.
  intros Hi H. induction H as [Hr|u v Hu IH Hv He].
  - apply reached_root. now apply Hi.
  - eapply reached_step; eauto.
Qed.

Lemma visit_neighbors_spec th vis nbs q c :
  let r := visit_neighbors th vis nbs q c in
  x_nodes (snd r) = x_nodes c /\
  forall v, In v (fst r) ->
            In v q \/ exists nb, In nb nbs /\ v = nodeId nb /\ th < nb_weight nb.
Proof.
  unfold visit_neighbors. revert q c.
  induction nbs as [|nb nbs IH]; intros q c; simpl; [tauto|].
  destruct (negb _ && JS.Qlt_bool th (nb_weight nb)) eqn:E; simpl.
  - destruct (IH (q ++ [nodeId nb])%list
                {| x_nodes := x_nodes c;
                   x_total_weight := x_total_weight c + nb_weight nb;
                   x_edges := S (x_edges c) |}) as [H1 H2].
    split; [exact H1|]. intros v Hv. apply H2 in Hv.
    destruct Hv as [Hv|[nb' [Hin Hnb]]].
    + apply in_app_or in Hv. destruct Hv as [Hv|[<-|[]]]; [tauto|].
      right. exists nb. split; [now left|]. split; [reflexivity|].
      apply andb_true_iff in E. apply Qlt_bool_iff. tauto.
    + right. exists nb'. split; [now right|exact Hnb].
  - destruct (IH q c) as [H1 H2]. split; [exact H1|].
    intros v Hv. apply H2 in Hv. destruct Hv as [Hv|[nb' [Hin Hnb]]]; [tauto|].
    right. exists nb'. split; [now right|exact Hnb].
Qed.

Section Flood.
Variable g : interactions.
Variable th : Q.
Variable start : Z.

Definition flood_inv (queue : list Z) (c : exploration) : Prop :=
  (forall v, In v (x_nodes c) -> reached g th (x_nodes c) start v) /\
  (forall v, In v queue ->
             v = start \/ exists u, In u (x_nodes c) /\
                                    reached g th (x_nodes c) start u /\
                                    strong_edge g th u v).

Lemma explore_loop_reached fuel queue visited c :
  flood_inv queue c ->
  let c' := fst (explore_loop fuel (build_adjList g) th queue visited c) in
  forall v, In v (x_nodes c') -> reached g th (x_nodes c') start v.
Proof.
  revert queue visited c.
  induction fuel as [|fuel IH]; intros queue visited c [Hn Hq]; simpl; [exact Hn|].
  destruct queue as [|n queue]; [exact Hn|].
  destruct (mem n visited).
  - apply IH. split; [exact Hn|]. intros v Hv. apply Hq. now right.
  - set (c1 := {| x_nodes := x_nodes c ++ [n];
                  x_total_weight := x_total_weight c;
                  x_edges := x_edges c |}).
    destruct (visit_neighbors_spec th (n :: visited)
                (adj_get (build_adjList g) n) queue c1) as [Hnodes Hqueue].
    assert (Hincl : incl (x_nodes c) (x_nodes c ++ [n])) by (apply incl_appl, incl_refl).
    assert (Hnew : reached g th (x_nodes c ++ [n]) start n).
    { destruct (Hq n (or_introl eq_refl)) as [->|[u [Hu [Hru He]]]].
      - apply reached_root. apply in_or_app. right. now left.
      - apply reached_step with u.
        + now apply reached_mono with (x_nodes c).
        + apply in_or_app. right. now left.
        + exact He. }
    apply IH. split.
    + rewrite Hnodes. simpl. intros v Hv. apply in_app_or in Hv.
      destruct Hv as [Hv|[<-|[]]]; [|exact Hnew].
      apply reached_mono with (x_nodes c); auto.
    + rewrite Hnodes. simpl. intros v Hv. apply Hqueue in Hv.
      destruct Hv as [Hv|[nb [Hin [-> Hw]]]].
      * destruct (Hq v (or_intror Hv)) as [->|[u [Hu [Hru He]]]]; [now left|].
        right. exists u. split; [now apply Hincl|]. split; [|exact He].
        now apply reached_mono with (x_nodes c).
      * right. exists n. split; [apply in_or_app; right; now left|].
        split; [exact Hnew|].
        apply build_adjList_sound in Hin. destruct Hin as [e [He [Hwe Hj]]].
        exists e. split; [exact He|]. split; [now rewrite Hwe|].
        destruct Hj as [[H1 H2]|[H1 H2]]; [left|right]; tauto.
Qed.
End Flood.

Lemma exploreWeightedCommunity_reached g start visited th :
  let c := fst (exploreWeightedCommunity start (build_adjList g) visited th) in
  forall v, In v (x_nodes c) -> reached g th (x_nodes c) start v.
Proof.
  unfold exploreWeightedCommunity. apply explore_loop_reached.
  split; simpl; [tauto|]. intros v [<-|[]]. now left.
Qed.

Lemma make_community_flooded g n visited :
  In n (nodes g) ->
  let c := fst (exploreWeightedCommunity (node_id n) (build_adjList g) visited
                  default_threshold) in
  (1 < length (x_nodes c))%nat -> flooded g (make_community (edges g) c).
Proof.
  intros Hn c Hlen. unfold flooded, make_community, generateCommunityId.
  cbn [com_nodes snd].
  assert (Hp : Permutation (x_nodes c) (default_sort (x_nodes c)))
    by apply JS.sort_perm.
  split; [now rewrite <- (Permutation_length Hp)|].
  exists (node_id n). split; [now exists n|].
  intros v Hv. apply reached_mono with (x_nodes c).
  - intros x Hx. now apply (Permutation_in _ Hp).
  - apply exploreWeightedCommunity_reached.
    now apply (Permutation_in _ (Permutation_sym Hp)).
Qed.

Lemma detect_fold_flooded g ns st :
  incl ns (nodes g) ->
  Forall (flooded g) (snd st) ->
  Forall (flooded g)
    (snd (fold_left (detect_step (build_adjList g) (edges g)) ns st)).
Proof.
  revert st. induction ns as [|n ns IH]; intros st Hin Hst; simpl; [exact Hst|].
  apply IH; [intros x Hx; apply Hin; now right|].
  unfold detect_step. destruct (mem (node_id n) (fst st)); [exact Hst|].
  destruct (1 <? _)%nat eqn:Hlen; simpl; [|exact Hst].
  apply Forall_app. split; [exact Hst|]. constructor; [|constructor].
  apply make_community_flooded; [apply Hin; now left|].
  now apply Nat.ltb_lt.
Qed.

(** *** The temporal pass *)

Lemma edge_key_eqb_eq a b : edge_key_eqb a b = true <-> a = b.
Proof.
  destruct a as [[a1 a2] a3], b as [[b1 b2] b3]. unfold edge_key_eqb. simpl.
  rewrite !andb_true_iff, !Z.eqb_eq, String.eqb_eq. split.
  - intros [[-> ->] ->]. reflexivity.
  - intro H. inversion H. tauto.
Qed.

Lemma pair_eqb_eq a b : pair_eqb a b = true <-> a = b.
Proof.
  destruct a, b. unfold pair_eqb. simpl.
  rewrite andb_true_iff, !Z.eqb_eq. split.
  - intros [-> ->]. reflexivity.
  - intro H. inversion H. tauto.
Qed.

Lemma temporal_key_eq x y a b :
  temporal_key x y = temporal_key a b <->
  (x = a /\ y = b) \/ (x = b /\ y = a).
Proof.
  unfold temporal_key. split.
  - intro H. inversion H. lia.
  - intros [[-> ->]|[-> ->]]; [reflexivity|].
    now rewrite Z.min_comm, Z.max_comm.
Qed.

Lemma mem_false_notin z l : ~ In z l -> mem z l = false.
Proof. intro H. apply not_true_is_false. intro E. now apply mem_In in E. Qed.

Section Pair.
Variables a b : Z.
Variable ns : list node.
Hypothesis Hab : a <> b.
Hypothesis Ha : nodes_has ns a = true.
Hypothesis Hb : nodes_has ns b = true.

Definition hits (x y : Z) : bool :=
  ((x =? a)%Z && (y =? b)%Z) || ((x =? b)%Z && (y =? a)%Z).

Lemma hits_key x y :
  hits x y = edge_key_eqb (temporal_key x y) (temporal_key a b).
Proof.
  destruct (edge_key_eqb _ _) eqn:E.
  - apply edge_key_eqb_eq, temporal_key_eq in E. unfold hits.
    destruct E as [[-> ->]|[-> ->]]; rewrite !Z.eqb_refl; simpl;
      [reflexivity|apply orb_true_r].
  - unfold hits. apply not_true_is_false. intro H. apply orb_true_iff in H.
    rewrite !andb_true_iff, !Z.eqb_eq in H.
    assert (temporal_key x y = temporal_key a b) by (apply temporal_key_eq; tauto).
    apply edge_key_eqb_eq in H0. congruence.
Qed.

Lemma edges_has_get es k :
  edges_has es k = match edges_get es k with Some _ => true | None => false end.
Proof.
  unfold edges_has, edges_get. induction es as [|e es IH]; simpl; [reflexivity|].
  now destruct (edge_key_eqb (edge_id e) k).
Qed.

Lemma edges_get_app es es' k :
  edges_get (es ++ es') k =
  match edges_get es k with Some e => Some e | None => edges_get es' k end.
Proof.
  unfold edges_get. induction es as [|e es IH]; simpl; [reflexivity|].
  now destruct (edge_key_eqb (edge_id e) k).
Qed.

Lemma edges_get_strengthen_other k' h es k :
  k' <> k -> edges_get (strengthen k' h es) k = edges_get es k.
Proof.
  intro Hne. unfold edges_get. induction es as [|e es IH]; simpl; [reflexivity|].
  destruct (edge_key_eqb (edge_id e) k') eqn:E; simpl.
  - apply edge_key_eqb_eq in E. rewrite E.
    destruct (edge_key_eqb k' k) eqn:E'; [|reflexivity].
    apply edge_key_eqb_eq in E'. contradiction.
  - now rewrite IH.
Qed.

Lemma edges_get_strengthen k h es e :
  edges_get es k = Some e ->
  edges_get (strengthen k h es) k
  = Some {| edge_id := edge_id e; source := source e; target := target e;
            edge_type := edge_type e; weight := weight e + 0.2;
            overlapping_hours := overlapping_hours e ++ [h] |}.
Proof.
  unfold edges_get. induction es as [|e0 es IH]; simpl; [discriminate|].
  destruct (edge_key_eqb (edge_id e0) k) eqn:E; simpl.
  - intro H. inversion H; subst. now rewrite E.
  - rewrite E. exact IH.
Qed.

Lemma link_agents_other h es x y :
  hits x y = false ->
  edges_get (link_agents ns h es x y) (temporal_key a b)
  = edges_get es (temporal_key a b).
Proof.
  intro Hh. rewrite hits_key in Hh. unfold link_agents.
  destruct (nodes_has ns x && nodes_has ns y); [|reflexivity]. cbv zeta.
  destruct (negb _).
  - rewrite edges_get_app. destruct (edges_get es _); [reflexivity|].
    unfold edges_get. simpl. now rewrite Hh.
  - apply edges_get_strengthen_other. intro E.
    apply edge_key_eqb_eq in E. congruence.
Qed.

Lemma linked_ext j es es' :
  edges_get es (temporal_key a b) = edges_get es' (temporal_key a b) ->
  temporal_link a b j es -> temporal_link a b j es'.
Proof. unfold temporal_link. intro E. now rewrite E. Qed.

Lemma link_agents_hit h es x y j :
  hits x y = true -> temporal_link a b j es -> temporal_link a b (S j) (link_agents ns h es x y).
Proof.
  intros Hh Hj.
  assert (Hk : temporal_key x y = temporal_key a b)
    by (apply edge_key_eqb_eq; now rewrite <- hits_key).
  assert (Hn : nodes_has ns x && nodes_has ns y = true).
  { unfold hits in Hh. apply orb_true_iff in Hh.
    rewrite !andb_true_iff, !Z.eqb_eq in Hh.
    destruct Hh as [[-> ->]|[-> ->]]; rewrite Ha, Hb; reflexivity. }
  unfold link_agents. rewrite Hn. cbv zeta. rewrite Hk, edges_has_get.
  destruct j as [|j]; simpl in Hj.
  - rewrite Hj. simpl. eexists. split.
    + rewrite edges_get_app, Hj. unfold edges_get. simpl.
      now rewrite (proj2 (edge_key_eqb_eq _ _) eq_refl).
    + simpl. split; [reflexivity|]. split; [|reflexivity].
      change (JS.count_Q 0) with 0. ring.
  - destruct Hj as [e [He [Ht [Hw Hl]]]]. rewrite He. simpl.
    eexists. split; [apply edges_get_strengthen; exact He|]. simpl.
    split; [exact Ht|]. split.
    + rewrite Hw, count_Q_S. ring.
    + rewrite length_app, Hl. simpl. lia.
Qed.

Definition hits_inner (x : Z) (rest : list Z) : nat :=
  length (filter (hits x) rest).

Fixpoint hits_pairs (agents : list Z) : nat :=
  match agents with
  | [] => O
  | x :: rest => (hits_inner x rest + hits_pairs rest)%nat
  end.

Lemma link_inner_linked h x rest es j :
  temporal_link a b j es ->
  temporal_link a b (j + hits_inner x rest)
    (fold_left (fun es y => link_agents ns h es x y) rest es).
Proof.
  unfold hits_inner. revert es j.
  induction rest as [|y rest IH]; intros es j Hj; simpl.
  - now rewrite Nat.add_0_r.
  - destruct (hits x y) eqn:Hh; simpl.
    + rewrite Nat.add_succ_r. apply (IH _ (S j)). now apply link_agents_hit.
    + apply IH. apply linked_ext with es; [|exact Hj].
      symmetry. now apply link_agents_other.
Qed.

Lemma link_pairs_linked h agents es j :
  temporal_link a b j es -> temporal_link a b (j + hits_pairs agents) (link_pairs ns h agents es).
Proof.
  revert es j. induction agents as [|x rest IH]; intros es j Hj; simpl.
  - now rewrite Nat.add_0_r.
  - rewrite Nat.add_assoc. apply IH. now apply link_inner_linked.
Qed.

Lemma hits_inner_NoDup x rest :
  NoDup rest ->
  hits_inner x rest =
  if ((x =? a)%Z && mem b rest) || ((x =? b)%Z && mem a rest) then 1%nat else O.
Proof.
  unfold hits_inner. induction 1 as [|y rest Hy Hnd IH].
  - simpl. now rewrite !andb_false_r.
  - assert (Hmem : forall z, mem z (y :: rest) = (z =? y)%Z || mem z rest) by reflexivity.
    rewrite !Hmem. cbn [filter]. unfold hits at 1.
    destruct (Z.eqb_spec x a) as [Hxa|Hxa], (Z.eqb_spec x b) as [Hxb|Hxb];
      try (exfalso; congruence); cbn [andb orb] in *.
    + rewrite !orb_false_r in *. rewrite (Z.eqb_sym b y).
      destruct (Z.eqb_spec y b) as [Hyb|Hyb]; cbn [orb length]; [|exact IH].
      subst y. rewrite IH. now rewrite (@mem_false_notin _ _ Hy).
    + rewrite (Z.eqb_sym a y).
      destruct (Z.eqb_spec y a) as [Hya|Hya]; cbn [orb length]; [|exact IH].
      subst y. rewrite IH. now rewrite (@mem_false_notin _ _ Hy).
    + exact IH.
Qed.

Lemma hits_pairs_NoDup agents :
  NoDup agents ->
  hits_pairs agents = if mem a agents && mem b agents then 1%nat else O.
Proof.
  induction 1 as [|x rest Hx Hnd IH]; [reflexivity|].
  cbn [hits_pairs]. rewrite IH, (hits_inner_NoDup _ Hnd).
  assert (Hmem : forall z, mem z (x :: rest) = (z =? x)%Z || mem z rest) by reflexivity.
  rewrite !Hmem, (Z.eqb_sym a x), (Z.eqb_sym b x).
  destruct (Z.eqb_spec x a) as [Hxa|Hxa], (Z.eqb_spec x b) as [Hxb|Hxb];
    try (exfalso; congruence); simpl.
  - subst x. rewrite (@mem_false_notin _ _ Hx). simpl. rewrite orb_false_r.
    now destruct (mem b rest).
  - subst x. rewrite (@mem_false_notin _ _ Hx), andb_false_r. simpl.
    now destruct (mem a rest).
  - reflexivity.
Qed.

Lemma link_buckets_linked buckets es j :
  Forall (fun bucket : Z * list (Z * nat) => NoDup (map fst (snd bucket))) buckets ->
  temporal_link a b j es ->
  temporal_link a b (j + shared_buckets buckets a b) (fold_left (link_bucket ns) buckets es).
Proof.
  unfold shared_buckets. intro Hnd. revert es j.
  induction Hnd as [|[h l] buckets Hl _ IH]; intros es j Hj; simpl.
  - now rewrite Nat.add_0_r.
  - simpl in Hl.
    assert (Hstep : temporal_link a b (j + (if mem a (map fst l) && mem b (map fst l)
                                 then 1 else 0)) (link_bucket ns es (h, l))).
    { unfold link_bucket. simpl. rewrite <- (hits_pairs_NoDup Hl).
      destruct (1 <? length l)%nat eqn:Hlen; [now apply link_pairs_linked|].
      apply Nat.ltb_ge in Hlen.
      destruct l as [|p [|q l]]; simpl in *; try lia;
        now rewrite Nat.add_0_r. }
    destruct (mem a (map fst l) && mem b (map fst l)); simpl.
    + rewrite Nat.add_succ_r, <- Nat.add_succ_l. apply IH.
      now rewrite Nat.add_1_r in Hstep.
    + apply IH. now rewrite Nat.add_0_r in Hstep.
Qed.
End Pair.

(** *** The buckets of [hourlyActivity] *)

Definition pattern_keys (now : Z) (posts : list post) : list (Z * Z) :=
  map (fun p => (p_agent_id p, hour_of (p_created_at p)))
    (filter (fun p => (now - days 14 <? p_created_at p)%Z) posts).

Lemma keys_count now posts a h :
  length (filter (fun k => pair_eqb k (a, h)) (pattern_keys now posts))
  = posts_in_hour now posts a h.
Proof.
  unfold pattern_keys, posts_in_hour.
  induction posts as [|p ps IH]; [reflexivity|].
  cbn [filter]. destruct (now - days 14 <? p_created_at p)%Z;
    cbn [map filter andb]; [|exact IH].
  unfold pair_eqb at 1. cbn [fst snd].
  destruct ((p_agent_id p =? a)%Z && (hour_of (p_created_at p) =? h)%Z);
    cbn [length]; now rewrite IH.
Qed.

Section Buckets.
Variable now : Z.
Variable posts : list post.

Let keys : list (Z * Z) := pattern_keys now posts.

Let rows := temporalPatterns now posts.
Let buckets := hourlyActivity rows.

Lemma rows_In a h :
  (exists n, In (mkPattern a h n) rows) <-> qualifies now posts a h = true.
Proof.
  unfold rows, temporalPatterns, qualifies. fold (pattern_keys now posts). fold keys.
  rewrite <- keys_count. fold keys.
  rewrite Nat.ltb_lt. split.
  - intros [n Hin]. apply in_map_iff in Hin. destruct Hin as [[[a' h'] n'] [E Hin]].
    simpl in E. inversion E; subst. apply filter_In in Hin. destruct Hin as [Hin Hn].
    simpl in Hn. apply Nat.ltb_lt in Hn.
    apply (JS.tally_In _ pair_eqb_eq) in Hin; [lia|lia].
  - intro Hn. eexists. apply in_map_iff.
    exists ((a, h), length (filter (fun k => pair_eqb k (a, h)) keys)). split; [reflexivity|].
    apply filter_In. split; [|now apply Nat.ltb_lt].
    apply (JS.tally_In _ pair_eqb_eq); [lia|reflexivity].
Qed.

Lemma rows_NoDup : NoDup (map (fun r => (agent_id r, activity_hour r)) rows).
Proof.
  unfold rows, temporalPatterns. fold (pattern_keys now posts). rewrite map_map. simpl.
  rewrite <- (map_ext fst) by (intros [[? ?] ?]; reflexivity).
  apply NoDup_map_fst_filter. apply (JS.tally_NoDup _ pair_eqb_eq).
Qed.

Lemma buckets_NoDup : NoDup (map fst buckets).
Proof. apply (JS.group_by_NoDup _ Z.eqb_eq). constructor. Qed.

Lemma bucket_content h l :
  In (h, l) buckets ->
  l = map (fun r => (agent_id r, activity_count r))
        (filter (fun r => (activity_hour r =? h)%Z) rows).
Proof.
  intro Hin. rewrite <- (JS.group_get_In _ Z.eqb_eq _ _ _ buckets_NoDup Hin).
  unfold buckets, hourlyActivity. now rewrite (JS.group_get_group_by _ Z.eqb_eq).
Qed.

Lemma bucket_agents_NoDup :
  Forall (fun bucket : Z * list (Z * nat) => NoDup (map fst (snd bucket))) buckets.
Proof.
  apply Forall_forall. intros [h l] Hin. simpl.
  rewrite (bucket_content _ _ Hin), map_map. simpl.
  apply (NoDup_map_filter_key agent_id activity_hour (fun x => (x =? h)%Z)).
  - intros x y _ _ Hx Hy. apply Z.eqb_eq in Hx, Hy. congruence.
  - apply rows_NoDup.
Qed.

Lemma bucket_mem h l a :
  In (h, l) buckets -> mem a (map fst l) = qualifies now posts a h.
Proof.
  intro Hin. rewrite (bucket_content _ _ Hin), map_map. simpl.
  destruct (qualifies now posts a h) eqn:Hq.
  - apply rows_In in Hq. destruct Hq as [n Hn]. apply mem_In, in_map_iff.
    exists (mkPattern a h n). split; [reflexivity|].
    apply filter_In. split; [exact Hn|apply Z.eqb_refl].
  - apply mem_false_notin. intro H. apply in_map_iff in H.
    destruct H as [[a' h' n] [Ea Hr]]. simpl in Ea. subst a'.
    apply filter_In in Hr. destruct Hr as [Hr Eh]. simpl in Eh.
    apply Z.eqb_eq in Eh. subst h'.
    assert (qualifies now posts a h = true) by (apply rows_In; now exists n).
    congruence.
Qed.

Lemma bucket_exists a h :
  qualifies now posts a h = true -> In h (map fst buckets).
Proof.
  intro Hq. apply rows_In in Hq. destruct Hq as [n Hn].
  assert (Hne : JS.group_get Z.eqb buckets h <> []).
  { unfold buckets, hourlyActivity. rewrite (JS.group_get_group_by _ Z.eqb_eq). simpl.
    intro E. apply map_eq_nil in E.
    assert (Hin : In (mkPattern a h n) (filter (fun x => (activity_hour x =? h)%Z) rows))
      by (apply filter_In; split; [exact Hn|apply Z.eqb_refl]).
    now rewrite E in Hin. }
  apply (JS.group_get_nonempty _ Z.eqb_eq) in Hne.
  apply in_map_iff. now exists (h, JS.group_get Z.eqb buckets h).
Qed.

Lemma qualifies_hour a h : qualifies now posts a h = true -> In h day_hours.
Proof.
  unfold qualifies, posts_in_hour. rewrite Nat.ltb_lt. intro H.
  destruct (filter _ posts) as [|p l] eqn:E; [simpl in H; lia|].
  assert (Hp : In p (p :: l)) by now left.
  rewrite <- E in Hp. apply filter_In in Hp. destruct Hp as [_ Hp].
  rewrite !andb_true_iff in Hp. destruct Hp as [_ Hh]. apply Z.eqb_eq in Hh.
  unfold hour_of in Hh.
  assert (Hb := Z.mod_pos_bound (p_created_at p / 3600) 24 eq_refl).
  apply in_map_iff. exists (Z.to_nat h). split; [lia|].
  apply in_seq. lia.
Qed.

Lemma day_hours_NoDup : NoDup day_hours.
Proof.
  unfold day_hours. apply Finite.Injective_map_NoDup; [|apply seq_NoDup].
  intros x y. apply Nat2Z.inj.
Qed.

Lemma shared_buckets_hours a b :
  shared_buckets buckets a b = shared_hours now posts a b.
Proof.
  unfold shared_buckets, shared_hours.
  set (both := fun h => qualifies now posts a h && qualifies now posts b h).
  transitivity (length (filter both (map fst buckets))).
  - rewrite filter_map_swap, length_map. f_equal.
    apply filter_ext_in. intros [h l] Hin. unfold both. simpl.
    now rewrite !(bucket_mem _ _ _ Hin).
  - apply filter_count_NoDup.
    + apply buckets_NoDup.
    + apply day_hours_NoDup.
    + intros h Hh. apply andb_true_iff in Hh. now apply bucket_exists with a.
    + intros h Hh. apply andb_true_iff in Hh. now apply qualifies_hour with a.
Qed.
End Buckets.

(** C8 (amended): for two distinct agents of the graph with no temporal
    edge yet, the pass leaves no edge when they share no hour-of-day bucket
    (an hour in which each has more than two posts of the window), and
    otherwise one edge of weight 0.4 + 0.2 * (k - 1) for k shared buckets. *)
Theorem temporal_edge_weight now posts ns es a b :
  a <> b -> nodes_has ns a = true -> nodes_has ns b = true ->
  edges_get es (temporal_key a b) = None ->
  temporal_link a b (shared_hours now posts a b)
    (addTemporalInteractionEdges now posts ns es).
Proof.
  intros Hab Ha Hb Hes. rewrite <- shared_buckets_hours.
  unfold addTemporalInteractionEdges.
  apply (@link_buckets_linked a b ns Hab Ha Hb _ es 0%nat).
  - apply bucket_agents_NoDup.
  - exact Hes.
Qed.

Lemma temporal_edge_weight_witness :
  1%Z <> 2%Z /\ nodes_has two_agents 1 = true /\ nodes_has two_agents 2 = true /\
  edges_get [] (temporal_key 1 2) = None /\
  temporal_link 1 2 2 (addTemporalInteractionEdges 40000 two_hour_posts two_agents []).
Proof.
  assert (Hne : 1%Z <> 2%Z) by discriminate.
  repeat split; try reflexivity; try exact Hne.
  exact (@temporal_edge_weight 40000 two_hour_posts two_agents [] 1%Z 2%Z
           Hne eq_refl eq_refl eq_refl).
Defined.

(** C8 (as stated): an edge is created for two agents that overlap in a
    single hourly bucket, so more than two overlapping buckets are not
    required. *)
Lemma temporal_edge_single_overlap :
  ~ (forall now posts ns a b,
       edges_has (addTemporalInteractionEdges now posts ns []) (temporal_key a b) = true ->
       (2 < shared_hours now posts a b)%nat).
Proof.
  intro H. specialize (H 40000%Z same_hour_posts two_agents 1%Z 2%Z eq_refl).
  vm_compute in H. lia.
Qed.

End NetworkFacts.

(** ** The grouping rules of the query analysis

    The database analyses a statement before it runs it and rejects a
    statement that breaks the grouping rules.  Expressions are kept as
    syntax as far as these rules look at them. *)

Module Sql.

#[warnings="-register-all"] Inductive expr :=
| Column (name : string)
| Literal (text : string)
| Subquery (text : string)
| Aggregate (fn : string) (arg : expr)        (* COUNT, AVG, STDDEV, ... *)
| WindowAggregate (fn : string) (arg : expr)  (* fn(arg) OVER () *)
| Apply (fn : string) (args : list expr)      (* operators, scalar functions *)
| Case (whens : list (expr * expr)) (otherwise : expr).

Fixpoint has_aggregate (e : expr) : bool :=
  match e with
  | Column _ | Literal _ | Subquery _ => false
  | Aggregate _ _ => true
  | WindowAggregate _ _ => false
  | Apply _ args => existsb has_aggregate args
  | Case whens otherwise =>
      existsb (fun w => has_aggregate (fst w) || has_aggregate (snd w)) whens
      || has_aggregate otherwise
  end.

Fixpoint has_window (e : expr) : bool :=
  match e with
  | Column _ | Literal _ | Subquery _ => false
  | Aggregate _ arg => has_window arg
  | WindowAggregate _ _ => true
  | Apply _ args => existsb has_window args
  | Case whens otherwise =>
      existsb (fun w => has_window (fst w) || has_window (snd w)) whens
      || has_window otherwise
  end.

(** The columns an expression reads outside of every aggregate. *)
Fixpoint bare_columns (e : expr) : list string :=
  match e with
  | Column name => [name]
  | Literal _ | Subquery _ => []
  | Aggregate _ _ => []
  | WindowAggregate _ arg => bare_columns arg
  | Apply _ args => flat_map bare_columns args
  | Case whens otherwise =>
      flat_map (fun w => bare_columns (fst w) ++ bare_columns (snd w)) whens
      ++ bare_columns otherwise
  end.

Record select := mkSelect {
  select_list : list expr;
  from_table : string;
  where_clause : option expr;
  group_by : list expr
}.

Inductive error :=
| aggregate_in_group_by       (* aggregate functions are not allowed in GROUP BY *)
| window_in_group_by          (* window functions are not allowed in GROUP BY *)
| ungrouped_column (name : string).
    (* column must appear in the GROUP BY clause or be used in an aggregate *)

Definition grouped_columns (q : select) : list string :=
  flat_map (fun e => match e with Column name => [name] | _ => [] end) (group_by q).

Definition is_grouped (q : select) : bool :=
  existsb has_aggregate (select_list q)
  || match group_by q with [] => false | _ => true end.

Definition analyze (q : select) : option error :=
  if existsb has_aggregate (group_by q) then Some aggregate_in_group_by
  else if existsb has_window (group_by q) then Some window_in_group_by
  else if is_grouped q then
    match
      find (fun c => negb (existsb (String.eqb c) (grouped_columns q)))
        (flat_map bare_columns (select_list q))
    with
    | Some c => Some (ungrouped_column c)
    | None => None
    end
  else None.

End Sql.

(** ** Identity resolver (IdentityResolver) *)

Module Identity.

Open Scope Q_scope.

(** *** [stringSimilarity] and [levenshteinDistance]

    Strings are sequences of code units below 256. *)

Definition between (lo hi n : nat) : bool := (lo <=? n)%nat && (n <=? hi)%nat.

Definition lower_char (c : ascii) : ascii :=
  let n := nat_of_ascii c in
  if between 65 90 n || between 192 214 n || between 216 222 n
  then ascii_of_nat (n + 32) else c.

Fixpoint toLowerCase (s : string) : string :=
  match s with
  | EmptyString => EmptyString
  | String c s' => String (lower_char c) (toLowerCase s')
  end.

Definition is_space (c : ascii) : bool :=
  let n := nat_of_ascii c in
  between 9 13 n || (n =? 32)%nat || (n =? 160)%nat.

Fixpoint trimStart (s : list ascii) : list ascii :=
  match s with
  | c :: s' => if is_space c then trimStart s' else s
  | [] => []
  end.

Definition trim (s : string) : string :=
  string_of_list_ascii
    (rev (trimStart (rev (trimStart (list_ascii_of_string s))))).

Definition indicator (c1 c2 : ascii) : nat := if Ascii.eqb c1 c2 then 0 else 1.

(** The cells [track[j][1..]] of one row, from the row above.  [up_row]
    holds [track[j-1][i..]], [diag] is [track[j-1][i-1]] and [left] is
    [track[j][i-1]]. *)
Fixpoint fill_row (c2 : ascii) (s1 : list ascii) (up_row : list nat)
    (diag left : nat) : list nat :=
  match s1, up_row with
  | c1 :: s1', up :: up_row' =>
      let cell :=
        Nat.min (Nat.min (left + 1) (up + 1)) (diag + indicator c1 c2) in
      cell :: fill_row c2 s1' up_row' up cell
  | _, _ => []
  end.

(** Row [j]: [track[j][0] = j], then the inner loop over [i]. *)
Definition next_row (s1 : list ascii) (prev : list nat) (j : nat) (c2 : ascii)
  : list nat :=
  j :: fill_row c2 s1 (tl prev) (hd O prev) j.

(** The rows [track[0..j]] in reverse order, last row first.  Every cell
    of the zero-filled table is written before it is read. *)
Fixpoint fill_table (s1 : list ascii) (s2 : list ascii) (j : nat)
    (prev : list nat) : list nat :=
  match s2 with
  | [] => prev
  | c2 :: s2' => fill_table s1 s2' (S j) (next_row s1 prev (S j) c2)
  end.

Definition levenshteinDistance (s1 s2 : string) : nat :=
  let a := list_ascii_of_string s1 in
  let b := list_ascii_of_string s2 in
  last (fill_table a b O (seq 0 (S (length a)))) O.

Definition stringSimilarity (str1 str2 : string) : Q :=
  if String.eqb str1 "" || String.eqb str2 "" then 0
  else
    let s1 := trim (toLowerCase str1) in
    let s2 := trim (toLowerCase str2) in
    if String.eqb s1 s2 then 1
    else
      let longer := if (String.length s2 <? String.length s1)%nat then s1 else s2 in
      let shorter := if (String.length s2 <? String.length s1)%nat then s2 else s1 in
      if (String.length longer =? 0)%nat then 1
      else
        let editDistance := levenshteinDistance longer shorter in
        (JS.count_Q (String.length longer) - JS.count_Q editDistance)
        / JS.count_Q (String.length longer).

(** The Levenshtein distance of the first [i] characters of [a] and the
    first [j] characters of [b], by the textbook recurrence. *)
Fixpoint lev (a b : list ascii) (i j : nat) : nat :=
  match i with
  | O => j
  | S i' =>
      (fix lev_i (j : nat) : nat :=
         match j with
         | O => i
         | S j' =>
             Nat.min
               (Nat.min (lev a b i' j + 1) (lev_i j' + 1))
               (lev a b i' j'
                + indicator (nth i' a zero) (nth j' b zero))
         end) j
  end.

Definition levenshtein (s1 s2 : string) : nat :=
  lev (list_ascii_of_string s1) (list_ascii_of_string s2)
    (String.length s1) (String.length s2).

(** *** Identity links: [linkExactMatches] and [linkFuzzyMatches] *)

Record agent := mkAgent {
  a_id : Z;
  a_name : string;
  a_platform : string;
  a_created_at : Z            (* seconds since the epoch *)
}.

(** A row of [agent_identity_links]; the pair of agent ids is its key. *)
Record identity_link := mkLink {
  primary_agent_id : Z;
  linked_agent_id : Z;
  link_type : string;
  confidence : Q
}.

Definition same_pair (l r : identity_link) : bool :=
  (primary_agent_id l =? primary_agent_id r)%Z
  && (linked_agent_id l =? linked_agent_id r)%Z.

(** The [NOT EXISTS] subquery: a link of the pair in either direction. *)
Definition linked_pair (links : list identity_link) (id1 id2 : Z) : bool :=
  existsb
    (fun l =>
       ((primary_agent_id l =? id1)%Z && (linked_agent_id l =? id2)%Z)
       || ((primary_agent_id l =? id2)%Z && (linked_agent_id l =? id1)%Z))
    links.

Definition greatest (x y : Q) : Q := if Qle_bool x y then y else x.

(** [INSERT ... ON CONFLICT (primary_agent_id, linked_agent_id) DO UPDATE
    SET confidence = GREATEST(EXCLUDED.confidence,
    agent_identity_links.confidence)], the statement of the exact pass. *)
Fixpoint upsert_exact (row : identity_link) (links : list identity_link)
  : list identity_link :=
  match links with
  | [] => [row]
  | l :: links' =>
      if same_pair l row then
        {| primary_agent_id := primary_agent_id l;
           linked_agent_id := linked_agent_id l;
           link_type := link_type l;
           confidence := greatest (confidence row) (confidence l) |} :: links'
      else l :: upsert_exact row links'
  end.

(** [INSERT ... VALUES ($1, $2, 'fuzzy_name_match', $3) ON CONFLICT ... DO
    UPDATE SET confidence = GREATEST(EXCLUDED.confidence, $3)], the statement
    of the fuzzy pass: both arguments of [GREATEST] are the proposed value. *)
Fixpoint upsert_fuzzy (row : identity_link) (links : list identity_link)
  : list identity_link :=
  match links with
  | [] => [row]
  | l :: links' =>
      if same_pair l row then
        {| primary_agent_id := primary_agent_id l;
           linked_agent_id := linked_agent_id l;
           link_type := link_type l;
           confidence := greatest (confidence row) (confidence row) |} :: links'
      else l :: upsert_fuzzy row links'
  end.

Definition candidate (links : list identity_link) (p : agent * agent) : bool :=
  (a_id (fst p) <? a_id (snd p))%Z
  && negb (String.eqb (a_platform (fst p)) (a_platform (snd p)))
  && negb (linked_pair links (a_id (fst p)) (a_id (snd p))).

(** The pairs of the exact pass, read from the table as the statement
    finds it. *)
Definition exact_pairs (agents : list agent) (links : list identity_link)
  : list (agent * agent) :=
  filter
    (fun p => String.eqb (toLowerCase (a_name (fst p))) (toLowerCase (a_name (snd p)))
              && candidate links p)
    (list_prod agents agents).

Definition linkExactMatches (agents : list agent) (links : list identity_link)
  : list identity_link :=
  fold_left
    (fun ls p => upsert_exact (mkLink (a_id (fst p)) (a_id (snd p)) "exact_name_match" 0.95) ls)
    (exact_pairs agents links) links.

Definition similarityThreshold : Q := 0.75.

(** The [SELECT] of the fuzzy pass, with its [LIMIT 5000]. *)
Definition fuzzy_pairs (agents : list agent) (links : list identity_link)
  : list (agent * agent) :=
  firstn 5000 (filter (candidate links) (list_prod agents agents)).

(** The transaction of the fuzzy pass over the selected pairs; [links] is
    the table as the transaction finds it. *)
Definition write_fuzzy_links (pairs : list (agent * agent))
    (links : list identity_link) : list identity_link :=
  fold_left
    (fun ls p =>
       let similarity := stringSimilarity (a_name (fst p)) (a_name (snd p)) in
       if Qle_bool similarityThreshold similarity
       then upsert_fuzzy (mkLink (a_id (fst p)) (a_id (snd p)) "fuzzy_name_match" similarity) ls
       else ls)
    pairs links.

Definition linkFuzzyMatches (agents : list agent) (links : list identity_link)
  : list identity_link :=
  write_fuzzy_links (fuzzy_pairs agents links) links.

Definition confidence_of (links : list identity_link) (id1 id2 : Z) : option Q :=
  option_map confidence
    (find (fun l => (primary_agent_id l =? id1)%Z && (linked_agent_id l =? id2)%Z) links).

(** Two agents whose names differ in one of five characters. *)
Definition nova_agents : list agent :=
  [ mkAgent 1 "nova1" "moltbook" 0; mkAgent 2 "nova2" "moltx" 0 ].

(** *** [createUnifiedProfiles] *)

Record cluster_row := mkCluster {
  root_agent_id : Z;
  cluster_id : Z;
  depth : nat
}.

Definition touches (l : identity_link) (id : Z) : bool :=
  (primary_agent_id l =? id)%Z || (linked_agent_id l =? id)%Z.

(** The non-recursive term: the agents that no link touches. *)
Definition base_clusters (agents : list agent) (links : list identity_link)
  : list cluster_row :=
  map (fun a => mkCluster (a_id a) (a_id a) 0)
    (filter (fun a => negb (existsb (fun l => touches l (a_id a)) links)) agents).

(** The recursive term over the working table.  [linked_agent_id] is part
    of the key and never null, so the [COALESCE] yields it. *)
Definition follow_links (links : list identity_link) (working : list cluster_row)
  : list cluster_row :=
  flat_map
    (fun ac =>
       flat_map
         (fun ail =>
            if touches ail (cluster_id ac) && (depth ac <? 10)%nat
            then [mkCluster (root_agent_id ac) (linked_agent_id ail) (S (depth ac))]
            else [])
         links)
    working.

(** [WITH RECURSIVE ... UNION ALL]: the recursive term is applied to the
    rows of the previous round until a round adds nothing. *)
Fixpoint recurse (rounds : nat) (links : list identity_link)
    (working : list cluster_row) : list cluster_row :=
  match rounds with
  | O => []
  | S rounds' =>
      match working with
      | [] => []
      | _ => let next := follow_links links working in
             next ++ recurse rounds' links next
      end
  end.

(** Rows of round [n] have depth [n] and rows of depth 10 are not
    followed, so eleven rounds exhaust the recursion. *)
Definition agent_clusters (agents : list agent) (links : list identity_link)
  : list cluster_row :=
  let base := base_clusters agents links in
  base ++ recurse 11 links base.

Record unified_profile := mkProfile {
  profile_primary : Z;               (* primary_agent_id *)
  linked_agent_ids : list Z;
  profile_type : string
}.

Definition group_key (r : cluster_row) : Z :=
  if (root_agent_id r =? cluster_id r)%Z then root_agent_id r
  else Z.min (root_agent_id r) (cluster_id r).

Definition minimum (l : list Z) : Z :=
  match l with
  | [] => 0%Z
  | x :: l' => fold_left Z.min l' x
  end.

(** [canonical_agents]: one row per group with more than one distinct
    member. *)
Definition canonical_agents (rows : list cluster_row) : list (Z * list Z * nat) :=
  filter (fun c => (1 <? snd c)%nat)
    (map
       (fun g =>
          let linked_ids := nodup Z.eq_dec (map cluster_id (snd g)) in
          (minimum (map root_agent_id (snd g)), linked_ids, length linked_ids))
       (JS.group_by Z.eqb group_key (fun r => r) rows [])).

Definition profile_of_cluster (c : Z * list Z * nat) : unified_profile :=
  {| profile_primary := fst (fst c);
     linked_agent_ids := snd (fst c);
     profile_type :=
       if (5 <=? snd c)%nat then "network"
       else if (3 <=? snd c)%nat then "multi_account" else "linked" |}.

(** [ON CONFLICT (primary_agent_id) DO UPDATE SET linked_agent_ids = ...] *)
Fixpoint upsert_profile (p : unified_profile) (profiles : list unified_profile)
  : list unified_profile :=
  match profiles with
  | [] => [p]
  | q :: profiles' =>
      if (profile_primary q =? profile_primary p)%Z then
        {| profile_primary := profile_primary q;
           linked_agent_ids := linked_agent_ids p;
           profile_type := profile_type q |} :: profiles'
      else q :: upsert_profile p profiles'
  end.

Definition createUnifiedProfiles (agents : list agent)
    (links : list identity_link) (profiles : list unified_profile)
  : list unified_profile :=
  fold_left (fun ps c => upsert_profile (profile_of_cluster c) ps)
    (canonical_agents (agent_clusters agents links)) profiles.

(** The members of the profile of an agent; an agent that no profile row
    lists forms a profile of its own. *)
Definition members_of (profiles : list unified_profile) (id : Z) : list Z :=
  match find (fun p => existsb (Z.eqb id) (linked_agent_ids p)) profiles with
  | Some p => linked_agent_ids p
  | None => [id]
  end.

(** Three agents on three platforms, linked 1-2 and 2-3. *)
Definition chain_agents : list agent :=
  [ mkAgent 1 "a" "moltbook" 0; mkAgent 2 "b" "moltx" 0; mkAgent 3 "c" "4claw" 0 ].

Definition chain_links : list identity_link :=
  [ mkLink 1 2 "exact_name_match" 0.95; mkLink 2 3 "exact_name_match" 0.95 ].

(** *** [detectSockPuppets] *)

Record threat_alert := mkAlert {
  alert_type : string;
  severity : string;
  account_count : nat
}.

Definition epoch_created_at : Sql.expr :=
  Sql.Apply "EXTRACT EPOCH" [Sql.Column "created_at"].

(** The common table expression [network_clusters]. *)
Definition network_clusters : Sql.select :=
  {| Sql.select_list :=
       [ Sql.Aggregate "ARRAY_AGG DISTINCT" (Sql.Column "platform");
         Sql.Aggregate "COUNT" (Sql.Literal "*");
         Sql.Aggregate "AVG" epoch_created_at;
         Sql.Aggregate "STDDEV" epoch_created_at;
         Sql.Aggregate "STRING_AGG DISTINCT" (Sql.Column "name");
         Sql.Aggregate "STRING_AGG DISTINCT" (Sql.Column "external_id") ];
     Sql.from_table := "agents";
     Sql.where_clause :=
       Some (Sql.Apply "IN"
               [ Sql.Column "id";
                 Sql.Subquery
                   "SELECT primary_agent_id FROM agent_identity_links WHERE confidence >= 0.7 UNION SELECT linked_agent_id FROM agent_identity_links WHERE confidence >= 0.7" ]);
     Sql.group_by :=
       [ Sql.Case
           [ (Sql.Apply ">"
                [ Sql.Aggregate "COUNT DISTINCT" (Sql.Column "platform");
                  Sql.Literal "2" ],
              Sql.Literal "multi_platform");
             (Sql.Apply "<"
                [ Sql.Apply "ABS"
                    [ Sql.Apply "-"
                        [ epoch_created_at;
                          Sql.WindowAggregate "AVG" epoch_created_at ] ];
                  Sql.Literal "86400" ],
              Sql.Literal "cluster") ]
           (Sql.Literal "single") ] |}.

(** The [SELECT] that feeds [INSERT INTO threat_alerts]. *)
Definition sock_puppet_alerts : Sql.select :=
  {| Sql.select_list :=
       [ Sql.Literal "sock_puppet_network";
         Sql.Case
           [ (Sql.Apply ">=" [Sql.Column "account_count"; Sql.Literal "5"],
              Sql.Literal "high");
             (Sql.Apply ">=" [Sql.Column "account_count"; Sql.Literal "3"],
              Sql.Literal "medium") ]
           (Sql.Literal "low");
         Sql.Apply "||"
           [ Sql.Literal "Potential sock puppet network detected: ";
             Sql.Aggregate "STRING_AGG" (Sql.Column "names") ];
         Sql.Apply "JSON_BUILD_OBJECT"
           [ Sql.Literal "account_count"; Sql.Column "account_count";
             Sql.Literal "platforms"; Sql.Column "platforms";
             Sql.Literal "creation_cluster";
             Sql.Apply "<" [Sql.Column "creation_time_variance"; Sql.Literal "86400"] ] ];
     Sql.from_table := "network_clusters";
     Sql.where_clause :=
       Some (Sql.Apply ">=" [Sql.Column "account_count"; Sql.Literal "3"]);
     Sql.group_by := [] |}.

(** [query] throws when the analysis fails; [run] stands for the rows an
    accepted statement would insert. *)
Definition detectSockPuppets
    (run : list agent -> list identity_link -> list threat_alert)
    (agents : list agent) (links : list identity_link)
    (alerts : list threat_alert) : Sql.error + list threat_alert :=
  match Sql.analyze network_clusters with
  | Some e => inl e
  | None =>
      match Sql.analyze sock_puppet_alerts with
      | Some e => inl e
      | None => inr (alerts ++ run agents links)
      end
  end.

(** Four agents created within one hour, pairwise linked with 0.95. *)
Definition puppet_agents : list agent :=
  [ mkAgent 1 "p1" "moltbook" 1000; mkAgent 2 "p2" "moltx" 1600;
    mkAgent 3 "p3" "4claw" 2200; mkAgent 4 "p4" "moltbook" 2800 ].

Definition puppet_links : list identity_link :=
  [ mkLink 1 2 "exact_name_match" 0.95; mkLink 1 3 "exact_name_match" 0.95;
    mkLink 1 4 "exact_name_match" 0.95; mkLink 2 3 "exact_name_match" 0.95;
    mkLink 2 4 "exact_name_match" 0.95; mkLink 3 4 "exact_name_match" 0.95 ].

End Identity.

(** ** Properties of the identity resolver *)

Module IdentityFacts.
Import Identity ListFacts.
Open Scope Q_scope.

(** *** The table of [levenshteinDistance] holds the recurrence *)

Lemma lev_0_j a b j : lev a b 0 j = j.
Proof. reflexivity. Qed.

Lemma lev_i_0 a b i : lev a b i 0 = i.
Proof. destruct i; reflexivity. Qed.

Lemma lev_S_S a b i j :
  lev a b (S i) (S j) =
  Nat.min (Nat.min (lev a b i (S j) + 1) (lev a b (S i) j + 1))
    (lev a b i j + indicator (nth i a zero) (nth j b zero)).
Proof. reflexivity. Qed.

Definition row (a b : list ascii) (j : nat) (from len : nat) : list nat :=
  map (fun i => lev a b i j) (seq from len).

Lemma fill_row_lev a b j s1 : forall pre,
  a = (pre ++ s1)%list ->
  fill_row (nth j b zero) s1 (row a b j (S (length pre)) (length s1))
    (lev a b (length pre) j) (lev a b (length pre) (S j))
  = row a b (S j) (S (length pre)) (length s1).
Proof.
  unfold row. induction s1 as [|c1 s1 IH]; intros pre Ha; [reflexivity|].
  cbn [length seq map fill_row].
  assert (Hc : nth (length pre) a zero = c1).
  { rewrite Ha, app_nth2, Nat.sub_diag; [reflexivity|lia]. }
  rewrite <- Hc, <- lev_S_S. f_equal.
  specialize (IH (pre ++ [c1])%list).
  rewrite length_app in IH. simpl in IH. rewrite Nat.add_1_r in IH.
  apply IH. now rewrite <- app_assoc.
Qed.

Lemma next_row_lev a b j :
  next_row a (row a b j 0 (S (length a))) (S j) (nth j b zero)
  = row a b (S j) 0 (S (length a)).
Proof.
  unfold next_row, row at 1 2. cbn [seq map hd tl].
  rewrite lev_0_j.
  assert (H := @fill_row_lev a b j a [] eq_refl). simpl in H.
  unfold row in H at 1. rewrite H. reflexivity.
Qed.

Lemma fill_table_lev a b s2 : forall pre,
  b = (pre ++ s2)%list ->
  fill_table a s2 (length pre) (row a b (length pre) 0 (S (length a)))
  = row a b (length b) 0 (S (length a)).
Proof.
  induction s2 as [|c2 s2 IH]; intros pre Hb.
  - simpl. rewrite Hb, app_nil_r. reflexivity.
  - cbn [fill_table].
    assert (Hc : nth (length pre) b zero = c2).
    { rewrite Hb, app_nth2, Nat.sub_diag; [reflexivity|lia]. }
    rewrite <- Hc, next_row_lev.
    specialize (IH (pre ++ [c2])%list).
    rewrite length_app in IH. simpl in IH. rewrite Nat.add_1_r in IH.
    apply IH. now rewrite <- app_assoc.
Qed.

Lemma length_list_ascii s : length (list_ascii_of_string s) = String.length s.
Proof. induction s as [|c s IH]; simpl; congruence. Qed.

Lemma levenshteinDistance_lev s1 s2 :
  levenshteinDistance s1 s2 = levenshtein s1 s2.
Proof.
  unfold levenshteinDistance, levenshtein. cbv zeta.
  set (a := list_ascii_of_string s1). set (b := list_ascii_of_string s2).
  assert (H := @fill_table_lev a b b [] eq_refl). simpl length in H.
  assert (H0 : row a b 0 0 (S (length a)) = seq 0 (S (length a))).
  { unfold row. rewrite <- (map_id (seq 0 (S (length a)))) at 2.
    apply map_ext. intro i. apply lev_i_0. }
  rewrite H0 in H. rewrite H. unfold row.
  rewrite seq_S, map_app. simpl. rewrite last_last.
  unfold a, b. now rewrite !length_list_ascii.
Qed.

Lemma string_eqb_empty s : String.eqb s "" = false <-> s <> ""%string.
Proof.
  split.
  - intros H E. subst. discriminate.
  - intro H. destruct s; [congruence|reflexivity].
Qed.

(** C5: the table of [levenshteinDistance] computes the Levenshtein
    recurrence; for two non-empty arguments that differ after lower-casing
    and trimming, [stringSimilarity] is the length of the longer of the two
    normalised strings minus their distance, divided by that length; a
    non-empty string is similar to itself with 1, an empty argument gives 0,
    and "kitten" against "sitting" gives (7 - 3) / 7. *)
Theorem stringSimilarity_levenshtein :
  (forall s1 s2, levenshteinDistance s1 s2 = levenshtein s1 s2) /\
  (forall str1 str2,
     str1 <> ""%string -> str2 <> ""%string ->
     let s1 := trim (toLowerCase str1) in
     let s2 := trim (toLowerCase str2) in
     let longer := if (String.length s2 <? String.length s1)%nat then s1 else s2 in
     let shorter := if (String.length s2 <? String.length s1)%nat then s2 else s1 in
     s1 <> s2 ->
     String.length longer = Nat.max (String.length s1) (String.length s2) /\
     stringSimilarity str1 str2
     == (JS.count_Q (String.length longer) - JS.count_Q (levenshtein longer shorter))
        / JS.count_Q (String.length longer)) /\
  (forall s, s <> ""%string -> stringSimilarity s s = 1) /\
  (forall s, stringSimilarity s "" = 0 /\ stringSimilarity "" s = 0) /\
  levenshteinDistance "sitting" "kitten" = 3%nat /\
  stringSimilarity "kitten" "sitting" == (7 - 3) / 7 /\
  stringSimilarity "clawdbot" "clawdbot" = 1 /\
  stringSimilarity "a" "" = 0.
Proof.
  split; [exact levenshteinDistance_lev|].
  split.
  { intros str1 str2 H1 H2 s1 s2 longer shorter Hne.
    split.
    - unfold longer. destruct (Nat.ltb_spec (String.length s2) (String.length s1)); lia.
    - unfold stringSimilarity.
      rewrite (proj2 (string_eqb_empty str1) H1), (proj2 (string_eqb_empty str2) H2).
      cbv zeta. simpl orb. cbv iota. fold s1 s2.
      destruct (String.eqb_spec s1 s2) as [E|_]; [contradiction|].
      fold longer shorter.
      destruct (Nat.eqb_spec (String.length longer) 0) as [E0|_].
      + exfalso. apply Hne. unfold longer in E0.
        destruct (Nat.ltb_spec (String.length s2) (String.length s1)) as [Hlt|Hge].
        * lia.
        * assert (String.length s1 = 0)%nat by lia.
          destruct s1, s2; simpl in *; congruence.
      + rewrite levenshteinDistance_lev. reflexivity. }
  split.
  { intros s Hs. unfold stringSimilarity.
    rewrite (proj2 (string_eqb_empty s) Hs). simpl.
    now rewrite String.eqb_refl. }
  split.
  { intro s. split; unfold stringSimilarity.
    - now rewrite orb_true_r.
    - reflexivity. }
  repeat split; reflexivity.
Qed.

(** *** Writing a confidence for an existing pair *)

Definition pair_is (id1 id2 : Z) (l : identity_link) : bool :=
  (primary_agent_id l =? id1)%Z && (linked_agent_id l =? id2)%Z.

Lemma link_greatest_max x y : greatest x y == Qmax x y.
Proof.
  unfold greatest. destruct (Qle_bool x y) eqn:E.
  - apply Qle_bool_iff in E. symmetry. now apply Q.max_r.
  - symmetry. apply Q.max_l. apply Qlt_le_weak, Qnot_le_lt.
    intro H. apply Qle_bool_iff in H. congruence.
Qed.

Lemma confidence_of_find links id1 id2 :
  confidence_of links id1 id2 = option_map confidence (find (pair_is id1 id2) links).
Proof. reflexivity. Qed.

Lemma same_pair_is l row :
  same_pair l row = pair_is (primary_agent_id row) (linked_agent_id row) l.
Proof. reflexivity. Qed.

Lemma upsert_exact_existing row links old :
  confidence_of links (primary_agent_id row) (linked_agent_id row) = Some old ->
  confidence_of (upsert_exact row links) (primary_agent_id row) (linked_agent_id row)
  = Some (greatest (confidence row) old).
Proof.
  rewrite !confidence_of_find.
  induction links as [|l links IH]; [discriminate|].
  cbn [upsert_exact find]. rewrite same_pair_is.
  destruct (pair_is _ _ l) eqn:E; cbn [find].
  - change (pair_is (primary_agent_id row) (linked_agent_id row)
              {| primary_agent_id := primary_agent_id l;
                 linked_agent_id := linked_agent_id l;
                 link_type := link_type l;
                 confidence := greatest (confidence row) (confidence l) |})
      with (pair_is (primary_agent_id row) (linked_agent_id row) l).
    rewrite E. simpl. intro H. now inversion H.
  - rewrite E. exact IH.
Qed.

Lemma upsert_fuzzy_existing row links old :
  confidence_of links (primary_agent_id row) (linked_agent_id row) = Some old ->
  confidence_of (upsert_fuzzy row links) (primary_agent_id row) (linked_agent_id row)
  = Some (greatest (confidence row) (confidence row)).
Proof.
  rewrite !confidence_of_find.
  induction links as [|l links IH]; [discriminate|].
  cbn [upsert_fuzzy find]. rewrite same_pair_is.
  destruct (pair_is _ _ l) eqn:E; cbn [find].
  - change (pair_is (primary_agent_id row) (linked_agent_id row)
              {| primary_agent_id := primary_agent_id l;
                 linked_agent_id := linked_agent_id l;
                 link_type := link_type l;
                 confidence := greatest (confidence row) (confidence row) |})
      with (pair_is (primary_agent_id row) (linked_agent_id row) l).
    rewrite E. reflexivity.
  - rewrite E. exact IH.
Qed.

Lemma upsert_fuzzy_other row links id1 id2 :
  (primary_agent_id row, linked_agent_id row) <> (id1, id2) ->
  confidence_of (upsert_fuzzy row links) id1 id2 = confidence_of links id1 id2.
Proof.
  intro Hne. rewrite !confidence_of_find.
  assert (Hrow : pair_is id1 id2 row = false).
  { unfold pair_is. apply not_true_is_false. intro H.
    apply andb_true_iff in H. rewrite !Z.eqb_eq in H. apply Hne.
    destruct H as [-> ->]. reflexivity. }
  induction links as [|l links IH]; cbn [upsert_fuzzy find].
  - now rewrite Hrow.
  - rewrite same_pair_is.
    destruct (pair_is (primary_agent_id row) (linked_agent_id row) l) eqn:E;
      cbn [find].
    + change (pair_is id1 id2
                {| primary_agent_id := primary_agent_id l;
                   linked_agent_id := linked_agent_id l;
                   link_type := link_type l;
                   confidence := greatest (confidence row) (confidence row) |})
        with (pair_is id1 id2 l).
      assert (Hl : pair_is id1 id2 l = false).
      { unfold pair_is in E. apply andb_true_iff in E. rewrite !Z.eqb_eq in E.
        unfold pair_is in *. destruct E as [-> ->]. exact Hrow. }
      now rewrite Hl.
    + destruct (pair_is id1 id2 l); [reflexivity|exact IH].
Qed.

Lemma linked_pair_of_confidence links id1 id2 c :
  confidence_of links id1 id2 = Some c -> linked_pair links id1 id2 = true.
Proof.
  unfold confidence_of, linked_pair. intro H.
  destruct (find _ links) as [l|] eqn:F; [|discriminate].
  apply find_some in F. destruct F as [Hin Hl].
  apply existsb_exists. exists l. split; [exact Hin|]. now rewrite Hl.
Qed.

(** A run that meets no other writer never reaches the conflict branch:
    the selected pairs have no link, so the existing links keep their
    confidence. *)
Lemma linkFuzzyMatches_keeps_existing agents links id1 id2 c :
  confidence_of links id1 id2 = Some c ->
  confidence_of (linkFuzzyMatches agents links) id1 id2 = Some c.
Proof.
  intro Hc. unfold linkFuzzyMatches, write_fuzzy_links.
  assert (Hp : forall p, In p (fuzzy_pairs agents links) ->
                         (a_id (fst p), a_id (snd p)) <> (id1, id2)).
  { intros p Hin E. unfold fuzzy_pairs in Hin.
    assert (Hin' : In p (filter (candidate links) (list_prod agents agents))).
    { rewrite <- (firstn_skipn 5000). apply in_or_app. now left. }
    clear Hin. rename Hin' into Hin.
    apply filter_In in Hin. destruct Hin as [_ Hcand].
    unfold candidate in Hcand. rewrite !andb_true_iff in Hcand.
    destruct Hcand as [_ Hn]. inversion E as [[E1 E2]].
    rewrite E1, E2, (linked_pair_of_confidence _ _ _ Hc) in Hn. discriminate. }
  revert Hp. generalize (fuzzy_pairs agents links) as pairs.
  generalize dependent links. intros links Hc pairs. revert links Hc.
  induction pairs as [|p pairs IH]; intros ls Hc Hp; simpl; [exact Hc|].
  apply IH; [|intros q Hq; apply Hp; now right].
  destruct (Qle_bool _ _); [|exact Hc].
  rewrite upsert_fuzzy_other; [exact Hc|]. simpl. apply Hp. now left.
Qed.

(** C3: the statement of the fuzzy pass, run for the pair (1,2) of names
    "nova1"/"nova2" against a table in which that pair is linked with
    confidence 0.85, stores the new similarity 0.8; for an existing pair it
    always stores the new value, whereas the statement of the exact pass
    stores the greater of the old and the new value. *)
Theorem fuzzy_upsert_lowers_confidence :
  (let links := [mkLink 1 2 "following_pattern" 0.85] in
   let links' := write_fuzzy_links (fuzzy_pairs nova_agents []) links in
   confidence_of links 1 2 = Some 0.85 /\
   (exists c, confidence_of links' 1 2 = Some c /\ c == 0.8 /\ c < 0.85) /\
   (exists c, confidence_of (upsert_exact (mkLink 1 2 "fuzzy_name_match" 0.8) links) 1 2
              = Some c /\ c == 0.85)) /\
  (forall row links old,
     confidence_of links (primary_agent_id row) (linked_agent_id row) = Some old ->
     exists c,
       confidence_of (upsert_fuzzy row links) (primary_agent_id row) (linked_agent_id row)
       = Some c /\ c == confidence row) /\
  (forall row links old,
     confidence_of links (primary_agent_id row) (linked_agent_id row) = Some old ->
     exists c,
       confidence_of (upsert_exact row links) (primary_agent_id row) (linked_agent_id row)
       = Some c /\ c == Qmax (confidence row) old).
Proof.
  split; [|split].
  - cbv zeta. split; [reflexivity|]. split.
    + eexists. split; [vm_compute; reflexivity|]. split; reflexivity.
    + eexists. split; [vm_compute; reflexivity|]. reflexivity.
  - intros row links old H. eexists.
    split; [exact (upsert_fuzzy_existing _ _ H)|].
    rewrite link_greatest_max. apply Q.max_id.
  - intros row links old H. eexists.
    split; [exact (upsert_exact_existing _ _ H)|].
    apply link_greatest_max.
Qed.

(** *** The recursive query of [createUnifiedProfiles] *)

Lemma follow_links_base agents links :
  follow_links links (base_clusters agents links) = [].
Proof.
  unfold follow_links, base_clusters.
  induction agents as [|a agents IH]; simpl; [reflexivity|].
  destruct (existsb (fun l => touches l (a_id a)) links) eqn:E; simpl; [exact IH|].
  rewrite IH, app_nil_r.
  assert (H : forall l, In l links -> touches l (a_id a) = false).
  { intros l Hl. apply not_true_is_false. intro Ht.
    assert (existsb (fun l => touches l (a_id a)) links = true); [|congruence].
    apply existsb_exists. now exists l. }
  clear E IH. induction links as [|l links IHl]; simpl; [reflexivity|].
  rewrite (H l) by now left. simpl. apply IHl. intros; apply H; now right.
Qed.

Lemma agent_clusters_base agents links :
  agent_clusters agents links = base_clusters agents links.
Proof.
  unfold agent_clusters. cbv zeta. simpl recurse.
  destruct (base_clusters agents links) eqn:E; [reflexivity|].
  rewrite <- E, follow_links_base. simpl. now rewrite app_nil_r.
Qed.

Lemma recurse_nil rounds links : recurse rounds links [] = [].
Proof. now destruct rounds. Qed.

Lemma follow_links_depth links working d :
  Forall (fun r => depth r = d) working ->
  Forall (fun r => depth r = S d) (follow_links links working) /\
  ((10 <= d)%nat -> follow_links links working = []).
Proof.
  unfold follow_links. induction 1 as [|ac working Hd _ [IH1 IH2]]; simpl.
  - split; [constructor|reflexivity].
  - split.
    + apply Forall_app. split; [|exact IH1].
      clear -Hd. induction links as [|l links IH]; simpl; [constructor|].
      destruct (touches l (cluster_id ac) && (depth ac <? 10)%nat); simpl; [|exact IH].
      constructor; [simpl; congruence|exact IH].
    + intro Hge. rewrite (IH2 Hge), app_nil_r.
      clear -Hd Hge. induction links as [|l links IH]; simpl; [reflexivity|].
      assert (E : (depth ac <? 10)%nat = false) by (apply Nat.ltb_ge; lia).
      rewrite E at 1. rewrite andb_false_r. exact IH.
Qed.

(** Eleven rounds exhaust the recursion: more rounds add no row. *)
Lemma recurse_rounds links rounds : forall working d extra,
  Forall (fun r => depth r = d) working ->
  (10 < d + rounds)%nat ->
  recurse (rounds + extra) links working = recurse rounds links working.
Proof.
  induction rounds as [|rounds IH]; intros working d extra Hd Hr.
  - simpl. destruct extra; [reflexivity|]. simpl.
    destruct working; [reflexivity|].
    destruct (follow_links_depth links Hd) as [_ H].
    rewrite H by lia. simpl. apply recurse_nil.
  - simpl. destruct working as [|r working]; [reflexivity|].
    destruct (follow_links_depth links Hd) as [H _].
    f_equal. apply (IH _ (S d)); [exact H|lia].
Qed.

Lemma nodup_constant (k : Z) (l : list Z) :
  Forall (fun x => x = k) l -> (length (nodup Z.eq_dec l) <= 1)%nat.
Proof.
  induction 1 as [|x l Hx Hl IH]; simpl; [lia|].
  destruct (in_dec Z.eq_dec x l) as [_|Hn]; [exact IH|].
  destruct l as [|y l]; [simpl; lia|].
  exfalso. apply Hn. inversion Hl; subst. now left.
Qed.

Lemma canonical_agents_base agents links :
  canonical_agents (base_clusters agents links) = [].
Proof.
  unfold canonical_agents.
  set (rows := base_clusters agents links).
  set (groups := JS.group_by Z.eqb group_key (fun r => r) rows []).
  assert (Hg : forall g, In g groups ->
                         Forall (fun x => x = fst g) (map cluster_id (snd g))).
  { intros [k vs] Hin. simpl.
    assert (Hnd : NoDup (map fst groups))
      by (apply (JS.group_by_NoDup _ Z.eqb_eq); constructor).
    rewrite <- (JS.group_get_In _ Z.eqb_eq _ _ _ Hnd Hin).
    unfold groups. rewrite (JS.group_get_group_by _ Z.eqb_eq). simpl.
    rewrite map_id. apply Forall_forall. intros x Hx.
    apply in_map_iff in Hx. destruct Hx as [r [<- Hr]].
    apply filter_In in Hr. destruct Hr as [Hr Hk]. apply Z.eqb_eq in Hk.
    unfold rows, base_clusters in Hr. apply in_map_iff in Hr.
    destruct Hr as [a [<- _]]. unfold group_key in Hk. simpl in *.
    now rewrite Z.eqb_refl in Hk. }
  induction groups as [|g groups IH]; simpl; [reflexivity|].
  assert (H := nodup_constant (Hg g (or_introl eq_refl))).
  replace (1 <? length (nodup Z.eq_dec (map cluster_id (snd g))))%nat with false
    by (symmetry; apply Nat.ltb_ge; exact H).
  apply IH. intros; apply Hg; now right.
Qed.

(** C4: the recursion starts from the agents that no link touches, so it
    follows no link and every group has a single member: the statement
    writes no profile row, whatever the agents and links are.  Agents 1, 2
    and 3 linked 1-2 and 2-3 are left without a common profile. *)
Theorem createUnifiedProfiles_writes_nothing :
  (forall agents links profiles,
     createUnifiedProfiles agents links profiles = profiles) /\
  createUnifiedProfiles chain_agents chain_links [] = [] /\
  members_of (createUnifiedProfiles chain_agents chain_links []) 1 = [1%Z] /\
  members_of (createUnifiedProfiles chain_agents chain_links []) 2 = [2%Z] /\
  members_of (createUnifiedProfiles chain_agents chain_links []) 3 = [3%Z].
Proof.
  split; [|repeat split; reflexivity].
  intros agents links profiles. unfold createUnifiedProfiles.
  now rewrite agent_clusters_base, canonical_agents_base.
Qed.

(** *** The statement of [detectSockPuppets] *)

(** C9: the grouping expression of [network_clusters] holds an aggregate
    (and a window function), and the [SELECT] of the insert mixes an
    aggregate with ungrouped columns: the analysis rejects the statement,
    so [detectSockPuppets] throws and inserts no alert, also for four
    agents linked with confidence 0.95 and created within one hour. *)
Theorem detectSockPuppets_rejected :
  (forall run agents links alerts,
     detectSockPuppets run agents links alerts = inl Sql.aggregate_in_group_by) /\
  existsb Sql.has_window (Sql.group_by network_clusters) = true /\
  Sql.analyze sock_puppet_alerts = Some (Sql.ungrouped_column "account_count") /\
  (forall run,
     detectSockPuppets run puppet_agents puppet_links []
     <> inr [mkAlert "sock_puppet_network" "medium" 4]).
Proof.
  split; [reflexivity|]. split; [reflexivity|]. split; [reflexivity|].
  intros run H. discriminate H.
Qed.

End IdentityFacts.

(** ** Reputation engine (ReputationEngine) *)

Module Reputation.

Open Scope Q_scope.

(** A row of [agent_reputation_scores]; [(agent_id, platform)] is its key
    and the factor breakdown is a JSON object of numbers. *)
Record score_row := mkScore {
  agent_id : Z;
  platform : string;
  score : Q;
  factor_breakdown : list (string * Q)
}.

Definition scores := list score_row.

Definition has_key (a : Z) (p : string) (r : score_row) : bool :=
  (agent_id r =? a)%Z && String.eqb (platform r) p.

(** [SELECT * FROM agent_reputation_scores WHERE platform = p] *)
Definition category (t : scores) (p : string) : list score_row :=
  filter (fun r => String.eqb (platform r) p) t.

(** A row of the join: the row of each joined subquery, or NULLs. *)
Definition joined := list (option score_row).

(** [COALESCE(mb.agent_id, mx.agent_id, ...)] over the subqueries joined
    so far. *)
Fixpoint coalesce_id (j : joined) : option Z :=
  match j with
  | [] => None
  | Some r :: _ => Some (agent_id r)
  | None :: j' => coalesce_id j'
  end.

Definition on_agent_id (j : joined) (r : score_row) : bool :=
  match coalesce_id j with
  | Some a => (a =? agent_id r)%Z
  | None => false
  end.

(** [left FULL OUTER JOIN right ON COALESCE(...) = right.agent_id]; [width]
    is the number of subqueries in [left]. *)
Definition full_outer_join (width : nat) (left : list joined)
    (right : list score_row) : list joined :=
  flat_map
    (fun j =>
       match filter (on_agent_id j) right with
       | [] => [j ++ [None]]
       | matches => map (fun r => j ++ [Some r]) matches
       end)
    left
  ++ map (fun r => repeat None width ++ [Some r])
       (filter (fun r => negb (existsb (fun j => on_agent_id j r) left)) right).

Definition joined_scores (t : scores) : list joined :=
  let mb := map (fun r => [Some r]) (category t "moltbook") in
  let mx := full_outer_join 1 mb (category t "moltx") in
  let cc := full_outer_join 2 mx (category t "4claw") in
  let eq := full_outer_join 3 cc (category t "engagement_quality") in
  let sec := full_outer_join 4 eq (category t "security_record") in
  full_outer_join 5 sec (category t "longevity").

(** [COALESCE(x.score, 0)] for the [n]-th subquery. *)
Definition score_or_0 (j : joined) (n : nat) : Q :=
  match nth n j None with
  | Some r => score r
  | None => 0
  end.

Definition least (x y : Q) : Q := if Qle_bool x y then x else y.
Definition greatest (x y : Q) : Q := if Qle_bool x y then y else x.

Definition composite_score (j : joined) : Q :=
  least 100
    (greatest 0
       (score_or_0 j 0 * 0.20 + score_or_0 j 1 * 0.20 + score_or_0 j 2 * 0.10
        + score_or_0 j 3 * 0.25 + score_or_0 j 4 * 0.20 + score_or_0 j 5 * 0.05)).

Definition composite_breakdown (j : joined) : list (string * Q) :=
  [ ("moltbook"%string, score_or_0 j 0); ("moltx"%string, score_or_0 j 1);
    ("4claw"%string, score_or_0 j 2);
    ("engagement_quality"%string, score_or_0 j 3);
    ("security"%string, score_or_0 j 4); ("longevity"%string, score_or_0 j 5) ].

(** The rows of the [SELECT]; a row of the join always holds the row of at
    least one subquery, so its agent id is not null. *)
Definition composite_rows (t : scores) : list score_row :=
  flat_map
    (fun j =>
       match coalesce_id j with
       | Some a => [mkScore a "composite" (composite_score j) (composite_breakdown j)]
       | None => []
       end)
    (joined_scores t).

(** [ON CONFLICT (agent_id, platform) DO UPDATE SET score = EXCLUDED.score,
    factor_breakdown = EXCLUDED.factor_breakdown] *)
Fixpoint upsert (row : score_row) (t : scores) : scores :=
  match t with
  | [] => [row]
  | r :: t' =>
      if has_key (agent_id row) (platform row) r then
        {| agent_id := agent_id r; platform := platform r;
           score := score row; factor_breakdown := factor_breakdown row |} :: t'
      else r :: upsert row t'
  end.

Definition calculateCompositeScore (t : scores) : scores :=
  fold_left (fun t' row => upsert row t') (composite_rows t) t.

Definition lookup (t : scores) (a : Z) (p : string) : option score_row :=
  find (has_key a p) t.

(** The sub-score of an agent in a category, 0 when the row is missing. *)
Definition sub_score (t : scores) (a : Z) (p : string) : Q :=
  match lookup t a p with
  | Some r => score r
  | None => 0
  end.

Definition sub_categories : list string :=
  [ "moltbook"; "moltx"; "4claw"; "engagement_quality"; "security_record";
    "longevity" ]%string.

(** The unique constraint behind [ON CONFLICT (agent_id, platform)]. *)
Definition unique_keys (t : scores) : Prop :=
  NoDup (map (fun r => (agent_id r, platform r)) t).

(** Reading a factor of a breakdown, and the weighted sum rebuilt from a
    breakdown with the weights of the specification. *)
Definition factor (breakdown : list (string * Q)) (name : string) : Q :=
  match find (fun kv => String.eqb (fst kv) name) breakdown with
  | Some kv => snd kv
  | None => 0
  end.

Definition clamp (x : Q) : Q := Qmin 100 (Qmax 0 x).

Definition reconstruct (breakdown : list (string * Q)) : Q :=
  clamp (0.20 * factor breakdown "moltbook" + 0.20 * factor breakdown "moltx"
         + 0.10 * factor breakdown "4claw"
         + 0.25 * factor breakdown "engagement_quality"
         + 0.20 * factor breakdown "security"
         + 0.05 * factor breakdown "longevity").

Definition sample_scores : scores :=
  [ mkScore 7 "moltbook" 80 []; mkScore 7 "longevity" 40 [];
    mkScore 8 "4claw" 100 []; mkScore 8 "security_record" 100 [];
    mkScore 7 "composite" 3 [] ].

End Reputation.

(** ** Properties of the reputation engine *)

Module ReputationFacts.
Import Reputation ListFacts.
Open Scope Q_scope.

(** *** Rows and keys of the score table *)

Lemma has_key_eq a p r : has_key a p r = true <-> agent_id r = a /\ platform r = p.
Proof.
  unfold has_key. now rewrite andb_true_iff, Z.eqb_eq, String.eqb_eq.
Qed.

Lemma NoDup_map_filter (A B : Type) (f : A -> B) (g : A -> bool) (l : list A) :
  NoDup (map f l) -> NoDup (map f (filter g l)).
Proof.
  induction l as [|x l IH]; simpl; intro H; [constructor|].
  inversion H as [|? ? Hn Hd]; subst.
  destruct (g x); simpl; [|auto].
  constructor; [|auto]. intro Hin. apply Hn.
  apply in_map_iff in Hin. destruct Hin as [y [Hy Hin]].
  apply filter_In in Hin. apply in_map_iff. exists y. tauto.
Qed.

Lemma unique_keys_tail [x t] : unique_keys (x :: t) -> unique_keys t.
Proof. unfold unique_keys. simpl. intro H. now inversion H. Qed.

Lemma unique_keys_head [x t y] :
  unique_keys (x :: t) -> In y t ->
  ~ (agent_id y = agent_id x /\ platform y = platform x).
Proof.
  unfold unique_keys. simpl. intros H Hy [Ha Hp]. inversion H as [|? ? Hn _]; subst.
  apply Hn. apply in_map_iff. exists y. split; [congruence|exact Hy].
Qed.

Lemma lookup_In t a p r :
  unique_keys t ->
  lookup t a p = Some r <-> In r t /\ agent_id r = a /\ platform r = p.
Proof.
  intro Hk. unfold lookup. split.
  - intro H. apply find_some in H. now rewrite has_key_eq in H.
  - intros [Hin [Ha Hp]]. induction t as [|x t IH]; simpl in *; [contradiction|].
    destruct (has_key a p x) eqn:E.
    + destruct Hin as [->|Hin]; [reflexivity|].
      apply has_key_eq in E. exfalso.
      apply (unique_keys_head Hk Hin). destruct E. split; congruence.
    + destruct Hin as [->|Hin]; [|apply IH; [now apply unique_keys_tail in Hk|exact Hin]].
      assert (has_key a p r = true) by now apply has_key_eq.
      congruence.
Qed.

Lemma filter_category t a p :
  filter (fun r => (a =? agent_id r)%Z) (category t p) = filter (has_key a p) t.
Proof.
  unfold category. induction t as [|x t IH]; simpl; [reflexivity|].
  unfold has_key at 1. rewrite (Z.eqb_sym (agent_id x) a).
  destruct (String.eqb (platform x) p); simpl.
  - destruct (a =? agent_id x)%Z; simpl; now rewrite IH.
  - now rewrite andb_false_r.
Qed.

Lemma filter_unique t a p :
  unique_keys t ->
  filter (has_key a p) t = match lookup t a p with Some r => [r] | None => [] end.
Proof.
  unfold lookup. induction t as [|x t IH]; simpl; intro Hk; [reflexivity|].
  destruct (has_key a p x) eqn:E.
  - f_equal. apply has_key_eq in E.
    destruct (filter (has_key a p) t) as [|y l] eqn:F; [reflexivity|].
    exfalso. assert (Hy : In y (filter (has_key a p) t)) by (rewrite F; now left).
    apply filter_In in Hy. destruct Hy as [Hy Hyk]. apply has_key_eq in Hyk.
    apply (unique_keys_head Hk Hy). destruct E, Hyk. split; congruence.
  - apply IH. now apply unique_keys_tail in Hk.
Qed.

Lemma category_ids_NoDup t p : unique_keys t -> NoDup (map agent_id (category t p)).
Proof.
  unfold category. induction t as [|x t IH]; simpl; intro Hk; [constructor|].
  assert (IHt := IH (unique_keys_tail Hk)).
  destruct (String.eqb_spec (platform x) p) as [Ep|Ep]; simpl; [|exact IHt].
  constructor; [|exact IHt].
  intro Hin. apply in_map_iff in Hin. destruct Hin as [y [Hy Hin]].
  apply filter_In in Hin. destruct Hin as [Hin Hp]. apply String.eqb_eq in Hp.
  apply (unique_keys_head Hk Hin). split; congruence.
Qed.

(** *** The chain of full outer joins *)

Section Join.
Variable t : scores.
Hypothesis Hkeys : unique_keys t.

(** The row of the join for one agent over the subqueries [ps]. *)
Definition profile (ps : list string) (a : Z) : joined := map (lookup t a) ps.

Definition scored (ps : list string) (a : Z) : bool :=
  existsb (fun p => match lookup t a p with Some _ => true | None => false end) ps.

Lemma category_lookup [p r] : In r (category t p) -> lookup t (agent_id r) p = Some r.
Proof.
  intro H. apply filter_In in H. destruct H as [Hin Hp].
  apply String.eqb_eq in Hp. apply lookup_In; tauto.
Qed.

Lemma lookup_category a p r : lookup t a p = Some r -> In r (category t p) /\ agent_id r = a.
Proof.
  intro H. apply lookup_In in H; [|exact Hkeys]. destruct H as [Hin [Ha Hp]].
  split; [|exact Ha]. apply filter_In. split; [exact Hin|now apply String.eqb_eq].
Qed.

Lemma coalesce_profile ps a :
  coalesce_id (profile ps a) = if scored ps a then Some a else None.
Proof.
  unfold profile, scored. induction ps as [|p ps IH]; simpl; [reflexivity|].
  destruct (lookup t a p) as [r|] eqn:E; simpl; [|exact IH].
  apply lookup_category in E. now destruct E as [_ ->].
Qed.

Lemma profile_unscored ps a :
  scored ps a = false -> profile ps a = repeat None (length ps).
Proof.
  unfold profile, scored. induction ps as [|p ps IH]; simpl; [reflexivity|].
  destruct (lookup t a p); simpl; [discriminate|].
  intro H. now rewrite IH.
Qed.

Lemma profile_app ps p a : profile (ps ++ [p]) a = profile ps a ++ [lookup t a p].
Proof. unfold profile. now rewrite map_app. Qed.

Lemma scored_app ps p a :
  scored (ps ++ [p]) a
  = scored ps a || match lookup t a p with Some _ => true | None => false end.
Proof. unfold scored. rewrite existsb_app. simpl. now rewrite orb_false_r. Qed.

(** The rows of a join are the profiles of the agents with some score. *)
Definition join_of (ps : list string) (rows : list joined) : Prop :=
  exists ids, NoDup ids /\ (forall a, In a ids <-> scored ps a = true)
              /\ rows = map (profile ps) ids.

Lemma join_first p : join_of [p] (map (fun r => [Some r]) (category t p)).
Proof.
  exists (map agent_id (category t p)). split; [|split].
  - now apply category_ids_NoDup.
  - intro a. unfold scored. simpl. rewrite orb_false_r. split.
    + intro Hin. apply in_map_iff in Hin. destruct Hin as [r [<- Hin]].
      now rewrite (category_lookup Hin).
    + destruct (lookup t a p) as [r|] eqn:E; [|discriminate]. intros _.
      apply lookup_category in E. destruct E as [Hin <-]. now apply in_map.
  - rewrite map_map. apply map_ext_in. intros r Hr.
    unfold profile. simpl. now rewrite (category_lookup Hr).
Qed.

Lemma on_agent_id_profile ps a r :
  scored ps a = true -> on_agent_id (profile ps a) r = (a =? agent_id r)%Z.
Proof. intro H. unfold on_agent_id. now rewrite coalesce_profile, H. Qed.

Lemma matched_rows ps p ids :
  (forall a, In a ids -> scored ps a = true) ->
  flat_map
    (fun j =>
       match filter (on_agent_id j) (category t p) with
       | [] => [j ++ [None]]
       | matches => map (fun r => j ++ [Some r]) matches
       end)
    (map (profile ps) ids)
  = map (profile (ps ++ [p])) ids.
Proof.
  induction ids as [|a ids IH]; intro Hs; [reflexivity|].
  change (map (profile ps) (a :: ids)) with (profile ps a :: map (profile ps) ids).
  change (map (profile (ps ++ [p])) (a :: ids))
    with (profile (ps ++ [p]) a :: map (profile (ps ++ [p])) ids).
  lazymatch goal with
  | |- flat_map ?f (?x :: ?l) = _ =>
      change (flat_map f (x :: l)) with (f x ++ flat_map f l)
  end.
  rewrite IH by (intros; apply Hs; now right). clear IH. cbv beta.
  rewrite (filter_ext _ (fun r => (a =? agent_id r)%Z))
    by (intro r; apply on_agent_id_profile, Hs; now left).
  rewrite filter_category, (filter_unique _ _ Hkeys), profile_app.
  now destruct (lookup t a p).
Qed.

Lemma unmatched_filter ps ids r :
  (forall a, In a ids -> scored ps a = true) ->
  existsb (fun j => on_agent_id j r) (map (profile ps) ids)
  = existsb (Z.eqb (agent_id r)) ids.
Proof.
  induction ids as [|a ids IH]; intro Hs; [reflexivity|].
  cbn [map existsb].
  rewrite IH by (intros; apply Hs; now right).
  rewrite on_agent_id_profile by (apply Hs; now left).
  now rewrite Z.eqb_sym.
Qed.

Lemma existsb_eqb_In (x : Z) l : existsb (Z.eqb x) l = true <-> In x l.
Proof.
  rewrite existsb_exists. split.
  - intros [y [Hy E]]. apply Z.eqb_eq in E. now subst.
  - intro H. exists x. split; [exact H|apply Z.eqb_refl].
Qed.

Lemma join_step ps p rows :
  join_of ps rows ->
  join_of (ps ++ [p]) (full_outer_join (length ps) rows (category t p)).
Proof.
  intros [ids [Hnd [Hids ->]]].
  assert (Hs : forall a, In a ids -> scored ps a = true) by (intros; now apply Hids).
  set (fresh := filter (fun r => negb (existsb (Z.eqb (agent_id r)) ids)) (category t p)).
  assert (Hfresh : forall r, In r fresh <->
                             In r (category t p) /\ ~ In (agent_id r) ids).
  { intro r. unfold fresh. rewrite filter_In, negb_true_iff.
    rewrite <- existsb_eqb_In. destruct (existsb _ ids); intuition congruence. }
  exists (ids ++ map agent_id fresh). split; [|split].
  - apply NoDup_app.
    + exact Hnd.
    + apply NoDup_map_filter. now apply category_ids_NoDup.
    + intros a Ha Hin. apply in_map_iff in Hin. destruct Hin as [r [<- Hr]].
      apply Hfresh in Hr. tauto.
  - intro a. rewrite in_app_iff, scored_app, orb_true_iff, Hids. split.
    + intros [H|H]; [now left|right].
      apply in_map_iff in H. destruct H as [r [<- Hr]]. apply Hfresh in Hr.
      now rewrite (category_lookup (proj1 Hr)).
    + intros [H|H]; [now left|].
      destruct (scored ps a) eqn:Es; [now left|right].
      destruct (lookup t a p) as [r|] eqn:E; [|discriminate].
      apply lookup_category in E. destruct E as [Hin <-].
      apply in_map, Hfresh. split; [exact Hin|].
      intro Hi. apply Hids in Hi. congruence.
  - unfold full_outer_join. rewrite map_app, (matched_rows _ p _ Hs). f_equal.
    rewrite (filter_ext _ (fun r => negb (existsb (Z.eqb (agent_id r)) ids)))
      by (intro r; now rewrite (unmatched_filter _ _ r Hs)).
    fold fresh. rewrite map_map. apply map_ext_in. intros r Hr.
    apply Hfresh in Hr. destruct Hr as [Hin Hn].
    rewrite profile_app, (category_lookup Hin), profile_unscored; [reflexivity|].
    apply not_true_is_false. intro Hsc. apply Hids in Hsc. contradiction.
Qed.

Lemma joined_scores_profiles : join_of sub_categories (joined_scores t).
Proof.
  unfold joined_scores, sub_categories. cbv zeta.
  apply (join_step (ps := ["moltbook"; "moltx"; "4claw"; "engagement_quality"; "security_record"]%string)).
  apply (join_step (ps := ["moltbook"; "moltx"; "4claw"; "engagement_quality"]%string)).
  apply (join_step (ps := ["moltbook"; "moltx"; "4claw"]%string)).
  apply (join_step (ps := ["moltbook"; "moltx"]%string)).
  apply (join_step (ps := ["moltbook"]%string)).
  apply join_first.
Qed.

Definition composite_of (a : Z) : score_row :=
  mkScore a "composite" (composite_score (profile sub_categories a))
    (composite_breakdown (profile sub_categories a)).

Lemma composite_rows_profiles :
  exists ids, NoDup ids /\ (forall a, In a ids <-> scored sub_categories a = true)
              /\ composite_rows t = map composite_of ids.
Proof.
  destruct joined_scores_profiles as [ids [Hnd [Hids Hrows]]].
  exists ids. split; [exact Hnd|]. split; [exact Hids|].
  unfold composite_rows. rewrite Hrows.
  assert (Hs : forall a, In a ids -> scored sub_categories a = true)
    by (intros; now apply Hids).
  clear Hids Hrows Hnd. induction ids as [|a ids IH]; [reflexivity|].
  change (map (profile sub_categories) (a :: ids))
    with (profile sub_categories a :: map (profile sub_categories) ids).
  lazymatch goal with
  | |- flat_map ?f (?x :: ?l) = _ =>
      change (flat_map f (x :: l)) with (f x ++ flat_map f l)
  end.
  cbv beta. rewrite coalesce_profile, (Hs a (or_introl eq_refl)).
  rewrite IH by (intros; apply Hs; now right). reflexivity.
Qed.
End Join.

(** *** Writing the composite rows *)

Lemma upsert_lookup_same row t :
  exists r, lookup (upsert row t) (agent_id row) (platform row) = Some r /\
            score r = score row /\ factor_breakdown r = factor_breakdown row.
Proof.
  unfold lookup. induction t as [|x t IH]; cbn [upsert find].
  - exists row. replace (has_key (agent_id row) (platform row) row) with true
      by (symmetry; now apply has_key_eq).
    auto.
  - destruct (has_key (agent_id row) (platform row) x) eqn:E; cbn [find].
    + eexists. unfold has_key in *. cbn [agent_id platform]. rewrite E.
      split; [reflexivity|]. split; reflexivity.
    + rewrite E. exact IH.
Qed.

Lemma upsert_lookup_other row t a p :
  (agent_id row, platform row) <> (a, p) ->
  lookup (upsert row t) a p = lookup t a p.
Proof.
  intro Hne. unfold lookup.
  assert (Hrow : has_key a p row = false).
  { apply not_true_is_false. intro H. apply has_key_eq in H.
    apply Hne. destruct H as [-> ->]. reflexivity. }
  induction t as [|x t IH]; cbn [upsert find].
  - now rewrite Hrow.
  - destruct (has_key (agent_id row) (platform row) x) eqn:E; cbn [find].
    + assert (Hx : has_key a p x = false).
      { apply has_key_eq in E. apply not_true_is_false. intro H.
        apply has_key_eq in H. apply Hne. destruct E, H. f_equal; congruence. }
      unfold has_key in *. cbn [agent_id platform]. now rewrite Hx.
    + destruct (has_key a p x); [reflexivity|exact IH].
Qed.

Lemma fold_upsert_other rows t a p :
  (forall row, In row rows -> (agent_id row, platform row) <> (a, p)) ->
  lookup (fold_left (fun t' row => upsert row t') rows t) a p = lookup t a p.
Proof.
  revert t. induction rows as [|x rows IH]; intros t H; simpl; [reflexivity|].
  rewrite IH by (intros; apply H; now right).
  apply upsert_lookup_other. apply H. now left.
Qed.

Lemma fold_upsert_same rows t row :
  NoDup (map (fun r => (agent_id r, platform r)) rows) -> In row rows ->
  exists r, lookup (fold_left (fun t' row => upsert row t') rows t)
              (agent_id row) (platform row) = Some r /\
            score r = score row /\ factor_breakdown r = factor_breakdown row.
Proof.
  revert t. induction rows as [|x rows IH]; intros t Hnd Hin; [contradiction|].
  simpl in Hnd. inversion Hnd as [|? ? Hn Hd]; subst. simpl.
  destruct Hin as [->|Hin].
  - rewrite fold_upsert_other; [apply upsert_lookup_same|].
    intros y Hy E. apply Hn. apply in_map_iff. now exists y.
  - now apply IH.
Qed.

Lemma score_least_min x y : least x y == Qmin x y.
Proof.
  unfold least. destruct (Qle_bool x y) eqn:E.
  - apply Qle_bool_iff in E. symmetry. now apply Q.min_l.
  - symmetry. apply Q.min_r. apply Qlt_le_weak, Qnot_le_lt.
    intro H. apply Qle_bool_iff in H. congruence.
Qed.

Lemma score_greatest_max x y : greatest x y == Qmax x y.
Proof.
  unfold greatest. destruct (Qle_bool x y) eqn:E.
  - apply Qle_bool_iff in E. symmetry. now apply Q.max_r.
  - symmetry. apply Q.max_l. apply Qlt_le_weak, Qnot_le_lt.
    intro H. apply Qle_bool_iff in H. congruence.
Qed.

Lemma clamp_bounds x : 0 <= clamp x <= 100.
Proof.
  unfold clamp. split.
  - apply Q.min_glb; [lra|apply Q.le_max_l].
  - apply Q.le_min_l.
Qed.

(** C1: for a table with one row per (agent, category) and an agent with at
    least one sub-score row, [calculateCompositeScore] leaves a composite
    row whose score is 0.20*moltbook + 0.20*moltx + 0.10*4claw +
    0.25*engagement_quality + 0.20*security_record + 0.05*longevity with a
    missing sub-score counted as 0, clamped to [0,100]; the recorded
    breakdown holds the six sub-scores and rebuilds that score. *)
Theorem composite_weighted_sum (t : scores) (a : Z) :
  unique_keys t ->
  (exists p r, In p sub_categories /\ lookup t a p = Some r) ->
  exists row,
    lookup (calculateCompositeScore t) a "composite" = Some row /\
    score row
    == clamp (0.20 * sub_score t a "moltbook" + 0.20 * sub_score t a "moltx"
              + 0.10 * sub_score t a "4claw"
              + 0.25 * sub_score t a "engagement_quality"
              + 0.20 * sub_score t a "security_record"
              + 0.05 * sub_score t a "longevity") /\
    0 <= score row <= 100 /\
    factor_breakdown row
    = [ ("moltbook"%string, sub_score t a "moltbook");
        ("moltx"%string, sub_score t a "moltx");
        ("4claw"%string, sub_score t a "4claw");
        ("engagement_quality"%string, sub_score t a "engagement_quality");
        ("security"%string, sub_score t a "security_record");
        ("longevity"%string, sub_score t a "longevity") ] /\
    score row == reconstruct (factor_breakdown row).
Proof.
  intros Hkeys [p [r [Hp Hr]]].
  destruct (composite_rows_profiles Hkeys) as [ids [Hnd [Hids Hrows]]].
  assert (Ha : In a ids).
  { apply Hids. unfold scored. apply existsb_exists. exists p.
    split; [exact Hp|]. now rewrite Hr. }
  assert (Hin : In (composite_of t a) (composite_rows t))
    by (rewrite Hrows; now apply in_map).
  assert (Hnd' : NoDup (map (fun r => (agent_id r, platform r)) (composite_rows t))).
  { rewrite Hrows, map_map. simpl.
    apply Finite.Injective_map_NoDup; [|exact Hnd].
    intros x y E. now inversion E. }
  destruct (@fold_upsert_same _ t _ Hnd' Hin) as [row [Hl [Hs Hb]]].
  exists row. split; [exact Hl|].
  assert (Hscore : score row
            == clamp (0.20 * sub_score t a "moltbook" + 0.20 * sub_score t a "moltx"
                      + 0.10 * sub_score t a "4claw"
                      + 0.25 * sub_score t a "engagement_quality"
                      + 0.20 * sub_score t a "security_record"
                      + 0.05 * sub_score t a "longevity")).
  { rewrite Hs. unfold composite_of, composite_score, clamp. cbn [score].
    rewrite score_least_min, score_greatest_max.
    apply Q.min_compat; [reflexivity|]. apply Q.max_compat; [reflexivity|].
    unfold score_or_0, profile, sub_categories, sub_score. cbn [map nth]. ring. }
  assert (Hfb : factor_breakdown row
    = [ ("moltbook"%string, sub_score t a "moltbook");
        ("moltx"%string, sub_score t a "moltx");
        ("4claw"%string, sub_score t a "4claw");
        ("engagement_quality"%string, sub_score t a "engagement_quality");
        ("security"%string, sub_score t a "security_record");
        ("longevity"%string, sub_score t a "longevity") ]).
  { rewrite Hb. reflexivity. }
  split; [exact Hscore|]. split.
  - rewrite Hscore. apply clamp_bounds.
  - split; [exact Hfb|]. rewrite Hscore, Hfb. reflexivity.
Qed.

Lemma composite_weighted_sum_witness :
  unique_keys sample_scores /\
  (exists p r, In p sub_categories /\ lookup sample_scores 7 p = Some r) /\
  exists row,
    lookup (calculateCompositeScore sample_scores) 7 "composite" = Some row /\
    score row == 18.
Proof.
  assert (Hk : unique_keys sample_scores).
  { unfold unique_keys, sample_scores. simpl.
    repeat (constructor; [simpl; intuition discriminate|]). constructor. }
  assert (Hs : exists p r, In p sub_categories /\ lookup sample_scores 7 p = Some r).
  { exists "moltbook"%string. eexists. split; [now left|reflexivity]. }
  split; [exact Hk|]. split; [exact Hs|].
  destruct (@composite_weighted_sum sample_scores 7%Z Hk Hs) as [row [Hl [Hsc _]]].
  exists row. split; [exact Hl|]. rewrite Hsc. reflexivity.
Defined.

End ReputationFacts.

(** ** The identity resolver: the other linking passes *)

Module Linking.
Import Identity.
Open Scope Q_scope.

(** *** [bioKeywordMatch] *)

(** The class [\w]. *)
Definition is_word (c : ascii) : bool :=
  let n := nat_of_ascii c in
  between 48 57 n || between 65 90 n || (n =? 95)%nat || between 97 122 n.

(** The maximal runs of word characters of a text; [run] is the run that
    is being read, last character first. *)
Fixpoint word_runs (s : list ascii) (run : list ascii) : list (list ascii) :=
  match s with
  | [] => match run with [] => [] | _ => [rev run] end
  | c :: s' =>
      if is_word c then word_runs s' (c :: run)
      else match run with
           | [] => word_runs s' []
           | _ => rev run :: word_runs s' []
           end
  end.

(** [text.toLowerCase().match(/\b\w{4,}\b/g) || []]: a match starts at a
    word boundary, takes the whole run and needs four characters. *)
Definition extractKeywords (text : string) : list string :=
  map string_of_list_ascii
    (filter (fun w => (4 <=? length w)%nat)
       (word_runs (list_ascii_of_string (toLowerCase text)) [])).

(** A [Set] of strings: its elements in insertion order. *)
Definition has (s : list string) (k : string) : bool := existsb (String.eqb k) s.

Definition add (s : list string) (k : string) : list string :=
  if has s k then s else s ++ [k].

Definition new_Set (l : list string) : list string := fold_left add l [].

Definition bioKeywordMatch (bio1 bio2 : option string) : Q :=
  match JS.truthy_str bio1, JS.truthy_str bio2 with
  | Some b1, Some b2 =>
      let keywords1 := new_Set (extractKeywords b1) in
      let keywords2 := new_Set (extractKeywords b2) in
      let intersection := length (filter (has keywords2) keywords1) in
      let union := length (new_Set (keywords1 ++ keywords2)) in
      if (0 <? union)%nat
      then JS.count_Q intersection / JS.count_Q union
      else 0
  | _, _ => 0
  end.

(** *** [linkByMetadata] *)

(** A row of [agents] with its [bio] column. *)
Record profile := mkProfile {
  p_agent : agent;
  p_bio : option string
}.

Definition or_empty (o : option string) : string :=
  match JS.truthy_str o with Some s => s | None => "" end.

Definition is_not_null (A : Type) (o : option A) : bool :=
  match o with Some _ => true | None => false end.

(** The [SELECT] of the metadata pass, with its [LIMIT 1000]. *)
Definition metadata_pairs (agents : list profile) (links : list identity_link)
  : list (profile * profile) :=
  firstn 1000
    (filter
       (fun p => candidate links (p_agent (fst p), p_agent (snd p))
                 && is_not_null (p_bio (fst p)) && is_not_null (p_bio (snd p)))
       (list_prod agents agents)).

Definition metadata_confidence (bio1 bio2 : option string) : Q :=
  let bioSimilarity := stringSimilarity (or_empty bio1) (or_empty bio2) in
  let bioMatch := bioKeywordMatch bio1 bio2 in
  Qmax (bioSimilarity * 0.6) bioMatch.

(** The transaction of the metadata pass; its statement is the one of the
    fuzzy pass with another [link_type]. *)
Definition write_metadata_links (pairs : list (profile * profile))
    (links : list identity_link) : list identity_link :=
  fold_left
    (fun ls p =>
       let confidence := metadata_confidence (p_bio (fst p)) (p_bio (snd p)) in
       if JS.Qlt_bool 0.65 confidence
       then upsert_fuzzy
              (mkLink (a_id (p_agent (fst p))) (a_id (p_agent (snd p)))
                 "bio_metadata_match" confidence) ls
       else ls)
    pairs links.

Definition linkByMetadata (agents : list profile) (links : list identity_link)
  : list identity_link :=
  write_metadata_links (metadata_pairs agents links) links.

(** *** [linkByFollowingRelationships] *)

(** A row of [agent_relationships]. *)
Record relationship := mkRelationship {
  source_agent_id : Z;
  target_agent_id : Z;
  relationship_type : string
}.

(** The distinct [target_agent_id] of the rows that the join attaches to
    an agent [a1]. *)
Definition followed (rels : list relationship) (id : Z) : list Z :=
  nodup Z.eq_dec
    (map target_agent_id
       (filter
          (fun r => (source_agent_id r =? id)%Z
                    && String.eqb (relationship_type r) "following")
          rels)).

(** [COUNT(DISTINCT ar.target_agent_id)] of the group of a pair. *)
Definition mutual_follows (rels : list relationship) (p : agent * agent) : nat :=
  length (followed rels (a_id (fst p))).

(** The rows of [potential_links]; [agents.id] is a key, so that a group
    is a pair of rows of [agents]. *)
Definition potential_links (agents : list agent) (rels : list relationship)
    (links : list identity_link) : list (agent * agent) :=
  filter
    (fun p => negb (a_id (fst p) =? a_id (snd p))%Z
              && negb (String.eqb (a_platform (fst p)) (a_platform (snd p)))
              && negb (linked_pair links (a_id (fst p)) (a_id (snd p)))
              && (3 <=? mutual_follows rels p)%nat)
    (list_prod agents agents).

Definition least (x y : Q) : Q := if Qle_bool x y then x else y.

Definition following_rows (agents : list agent) (rels : list relationship)
    (links : list identity_link) : list identity_link :=
  map
    (fun p => mkLink (a_id (fst p)) (a_id (snd p)) "following_pattern"
                (least 0.85 (JS.count_Q (mutual_follows rels p) / 10)))
    (filter (fun p => (3 <=? mutual_follows rels p)%nat)
       (potential_links agents rels links)).

(** A plain [INSERT]: a row whose pair is in the table violates the key
    of the table and fails the statement. *)
Fixpoint insert_links (rows links : list identity_link)
  : option (list identity_link) :=
  match rows with
  | [] => Some links
  | r :: rows' =>
      if existsb (fun l => same_pair l r) links then None
      else insert_links rows' (links ++ [r])
  end.

Definition linkByFollowingRelationships (agents : list agent)
    (rels : list relationship) (links : list identity_link)
  : option (list identity_link) :=
  insert_links (following_rows agents rels links) links.

(** Two agents on two platforms; the first follows three others. *)
Definition two_platforms : list agent :=
  [ mkAgent 1 "orbit" "moltbook" 0; mkAgent 2 "Orbit" "moltx" 0 ].

(** Two bios with the same keywords in different sentences. *)
Definition two_bios : list profile :=
  [ mkProfile (mkAgent 1 "orbit" "moltbook" 0)
      (Some "Rust compiler hacker"%string);
    mkProfile (mkAgent 2 "orb1t" "moltx" 0)
      (Some "hacker; compiler; rust!"%string) ].

Definition three_follows : list relationship :=
  [ mkRelationship 1 7 "following"; mkRelationship 1 8 "following";
    mkRelationship 1 9 "following" ].

End Linking.

Module LinkingFacts.
Import Identity IdentityFacts Linking.
Open Scope Q_scope.

(** *** The range and the symmetry of [stringSimilarity] *)

Lemma lev_le_max a b i j : (lev a b i j <= Nat.max i j)%nat.
Proof.
  revert j. induction i as [|i IHi]; intro j; [rewrite lev_0_j; lia|].
  induction j as [|j IHj]; [rewrite lev_i_0; lia|].
  rewrite lev_S_S. specialize (IHi j). unfold indicator.
  destruct (Ascii.eqb _ _); lia.
Qed.

Lemma indicator_sym c1 c2 : indicator c1 c2 = indicator c2 c1.
Proof. unfold indicator. now rewrite Ascii.eqb_sym. Qed.

Lemma lev_sym a b i j : lev a b i j = lev b a j i.
Proof.
  revert j. induction i as [|i IHi]; intro j.
  - now rewrite lev_0_j, lev_i_0.
  - induction j as [|j IHj]; [now rewrite lev_i_0, lev_0_j|].
    rewrite !lev_S_S, (IHi (S j)), IHj, (IHi j), indicator_sym. lia.
Qed.

Lemma count_Q_le n m : (n <= m)%nat -> JS.count_Q n <= JS.count_Q m.
Proof.
  intro H. unfold JS.count_Q. rewrite <- Zle_Qle. lia.
Qed.

Lemma count_Q_pos n : (0 < n)%nat -> 0 < JS.count_Q n.
Proof.
  intro H. unfold JS.count_Q. change 0 with (inject_Z 0).
  rewrite <- Zlt_Qlt. lia.
Qed.

(** A ratio of two counts, the first below the second. *)
Lemma ratio_range x y : 0 <= x -> x <= y -> 0 < y -> 0 <= x / y <= 1.
Proof.
  intros Hx Hxy Hy. split.
  - apply Qle_shift_div_l; [exact Hy|]. lra.
  - apply Qle_shift_div_r; [exact Hy|]. lra.
Qed.

(** X1: the similarity of two strings is a number between 0 and 1. *)
Theorem stringSimilarity_range str1 str2 :
  0 <= stringSimilarity str1 str2 <= 1.
Proof.
  unfold stringSimilarity.
  destruct (_ || _); [lra|]. cbv zeta.
  destruct (String.eqb _ _); [lra|].
  set (s1 := trim (toLowerCase str1)). set (s2 := trim (toLowerCase str2)).
  set (longer := if (String.length s2 <? String.length s1)%nat then s1 else s2).
  set (shorter := if (String.length s2 <? String.length s1)%nat then s2 else s1).
  destruct (String.length longer =? 0)%nat eqn:E0; [lra|].
  apply Nat.eqb_neq in E0.
  assert (Hd : (levenshteinDistance longer shorter <= String.length longer)%nat).
  { rewrite levenshteinDistance_lev. unfold levenshtein.
    etransitivity; [apply lev_le_max|].
    unfold longer, shorter.
    destruct (Nat.ltb_spec (String.length s2) (String.length s1)); lia. }
  apply ratio_range.
  - apply count_Q_le in Hd. lra.
  - assert (H := count_Q_le (Nat.le_0_l (levenshteinDistance longer shorter))).
    change (JS.count_Q 0) with 0 in H. lra.
  - apply count_Q_pos. lia.
Qed.

(** X2: the similarity does not depend on the order of its arguments. *)
Theorem stringSimilarity_sym str1 str2 :
  stringSimilarity str1 str2 = stringSimilarity str2 str1.
Proof.
  unfold stringSimilarity.
  rewrite (orb_comm (String.eqb str1 "")).
  destruct (_ || _); [reflexivity|]. cbv zeta.
  set (s1 := trim (toLowerCase str1)). set (s2 := trim (toLowerCase str2)).
  rewrite (String.eqb_sym s2 s1).
  destruct (String.eqb s1 s2); [reflexivity|].
  destruct (Nat.ltb_spec (String.length s2) (String.length s1)) as [H|H];
    destruct (Nat.ltb_spec (String.length s1) (String.length s2)) as [H'|H'];
    try lia; try reflexivity.
  assert (E : String.length s1 = String.length s2) by lia.
  rewrite !levenshteinDistance_lev. unfold levenshtein.
  rewrite (lev_sym (list_ascii_of_string s2)), E. reflexivity.
Qed.

(** *** [bioKeywordMatch] *)

Lemma has_In s k : has s k = true <-> In k s.
Proof.
  unfold has. rewrite existsb_exists. split.
  - intros [x [Hx E]]. apply String.eqb_eq in E. now subst.
  - intro H. exists k. split; [exact H|apply String.eqb_refl].
Qed.

Lemma fold_add_In l : forall acc x,
  In x (fold_left add l acc) <-> In x acc \/ In x l.
Proof.
  induction l as [|k l IH]; intros acc x; cbn [fold_left].
  - simpl. tauto.
  - rewrite IH. unfold add. destruct (has acc k) eqn:E.
    + apply has_In in E. simpl. split; [tauto|].
      intros [H|[<-|H]]; tauto.
    + rewrite in_app_iff. simpl. tauto.
Qed.

Lemma fold_add_NoDup l : forall acc, NoDup acc -> NoDup (fold_left add l acc).
Proof.
  induction l as [|k l IH]; intros acc Hacc; cbn [fold_left]; [exact Hacc|].
  apply IH. unfold add. destruct (has acc k) eqn:E; [exact Hacc|].
  apply NoDup_app; [exact Hacc|repeat constructor; intros []|].
  intros x Hx [<-|[]].
  apply has_In in Hx. congruence.
Qed.

Lemma new_Set_In l x : In x (new_Set l) <-> In x l.
Proof. unfold new_Set. rewrite fold_add_In. simpl. tauto. Qed.

Lemma new_Set_NoDup l : NoDup (new_Set l).
Proof. apply fold_add_NoDup. constructor. Qed.

(** Two arrays without repetition that hold the same elements have the
    same length. *)
Lemma same_elements_length (A : Type) (l l' : list A) :
  NoDup l -> NoDup l' -> (forall x, In x l <-> In x l') -> length l = length l'.
Proof.
  intros H H' E. apply Permutation_length. now apply NoDup_Permutation.
Qed.

Lemma filter_has_In k2 k1 x : In x (filter (has k2) k1) <-> In x k1 /\ In x k2.
Proof. rewrite filter_In, has_In. tauto. Qed.

Section Keywords.
Variables k1 k2 : list string.
Hypothesis Hk1 : NoDup k1.
Hypothesis Hk2 : NoDup k2.

Lemma intersection_sym : length (filter (has k2) k1) = length (filter (has k1) k2).
Proof.
  apply same_elements_length; try now apply NoDup_filter.
  intro x. rewrite !filter_has_In. tauto.
Qed.

Lemma union_sym : length (new_Set (k1 ++ k2)) = length (new_Set (k2 ++ k1)).
Proof.
  apply same_elements_length; try apply new_Set_NoDup.
  intro x. rewrite !new_Set_In, !in_app_iff. tauto.
Qed.

Lemma intersection_le : (length (filter (has k2) k1) <= length k1)%nat.
Proof.
  apply NoDup_incl_length; [now apply NoDup_filter|].
  intros x Hx. now apply filter_In in Hx.
Qed.

Lemma union_ge : (length k1 <= length (new_Set (k1 ++ k2)))%nat.
Proof.
  apply NoDup_incl_length; [exact Hk1|].
  intros x Hx. apply new_Set_In, in_or_app. now left.
Qed.

(** The intersection is the whole union exactly when the two sets hold
    the same keywords. *)
Lemma intersection_is_union :
  length (filter (has k2) k1) = length (new_Set (k1 ++ k2))
  <-> (forall k, In k k1 <-> In k k2).
Proof.
  split.
  - intro E.
    assert (H1 : incl (new_Set (k1 ++ k2)) (filter (has k2) k1)).
    { apply NoDup_length_incl; [now apply NoDup_filter|lia|].
      intros x Hx. apply filter_has_In in Hx.
      apply new_Set_In, in_or_app. tauto. }
    intro k. split; intro Hk.
    + assert (H : In k (new_Set (k1 ++ k2))) by (apply new_Set_In, in_or_app; tauto).
      apply H1, filter_has_In in H. tauto.
    + assert (H : In k (new_Set (k1 ++ k2))) by (apply new_Set_In, in_or_app; tauto).
      apply H1, filter_has_In in H. tauto.
  - intro E. apply same_elements_length;
      [now apply NoDup_filter|apply new_Set_NoDup|].
    intro x. rewrite filter_has_In, new_Set_In, in_app_iff.
    specialize (E x). tauto.
Qed.
End Keywords.

(** X3: the keyword overlap of two bios is a number between 0 and 1. *)
Theorem bioKeywordMatch_range bio1 bio2 : 0 <= bioKeywordMatch bio1 bio2 <= 1.
Proof.
  unfold bioKeywordMatch.
  destruct (JS.truthy_str bio1) as [b1|]; [|lra].
  destruct (JS.truthy_str bio2) as [b2|]; [|lra]. cbv zeta.
  set (k1 := new_Set (extractKeywords b1)).
  set (k2 := new_Set (extractKeywords b2)).
  destruct (Nat.ltb_spec 0 (length (new_Set (k1 ++ k2)))) as [H|H]; [|lra].
  assert (Hi := @intersection_le k1 k2 (new_Set_NoDup _)).
  assert (Hu := @union_ge k1 k2 (new_Set_NoDup _)).
  apply ratio_range.
  - change 0 with (JS.count_Q 0). apply count_Q_le. lia.
  - apply count_Q_le. lia.
  - now apply count_Q_pos.
Qed.

(** X4: the keyword overlap does not depend on the order of the two bios. *)
Theorem bioKeywordMatch_sym bio1 bio2 :
  bioKeywordMatch bio1 bio2 = bioKeywordMatch bio2 bio1.
Proof.
  unfold bioKeywordMatch.
  destruct (JS.truthy_str bio1) as [b1|], (JS.truthy_str bio2) as [b2|];
    try reflexivity. cbv zeta.
  set (k1 := new_Set (extractKeywords b1)).
  set (k2 := new_Set (extractKeywords b2)).
  rewrite (@intersection_sym k1 k2), (@union_sym k1 k2);
    try apply new_Set_NoDup.
  reflexivity.
Qed.

Lemma truthy_str_Some o s : JS.truthy_str o = Some s -> o = Some s /\ s <> ""%string.
Proof.
  destruct o as [s'|]; simpl; [|discriminate].
  destruct (String.eqb s' "") eqn:E; [discriminate|].
  intro H. injection H as <-. split; [reflexivity|].
  intro H. subst. discriminate.
Qed.

Lemma new_Set_nonempty l : l <> [] <-> (0 < length (new_Set l))%nat.
Proof.
  split.
  - intro H. destruct l as [|k l]; [now elim H|].
    assert (Hk : In k (new_Set (k :: l))) by (apply new_Set_In; now left).
    destruct (new_Set (k :: l)); [destruct Hk|simpl; lia].
  - intros H E. subst. simpl in H. lia.
Qed.

Lemma extractKeywords_empty : extractKeywords "" = [].
Proof. reflexivity. Qed.

(** X5: the keyword overlap of two bios is 1 exactly when the first has a
    keyword and both have the same keywords. *)
Theorem bioKeywordMatch_one b1 b2 :
  bioKeywordMatch (Some b1) (Some b2) == 1
  <-> extractKeywords b1 <> []
      /\ (forall k, In k (extractKeywords b1) <-> In k (extractKeywords b2)).
Proof.
  unfold bioKeywordMatch. cbn [JS.truthy_str].
  destruct (String.eqb b1 "") eqn:E1.
  { apply String.eqb_eq in E1. subst. split; [intro H; discriminate H|].
    intros [H _]. now elim H. }
  destruct (String.eqb b2 "") eqn:E2.
  { apply String.eqb_eq in E2. subst. split; [intro H; discriminate H|].
    intros [H E]. destruct (extractKeywords b1) as [|k l]; [now elim H|].
    exfalso. apply (E k). now left. }
  cbv zeta.
  set (k1 := new_Set (extractKeywords b1)).
  set (k2 := new_Set (extractKeywords b2)).
  assert (N1 : NoDup k1) by apply new_Set_NoDup.
  assert (N2 : NoDup k2) by apply new_Set_NoDup.
  assert (Hi := intersection_le k2 N1).
  assert (Hu := union_ge k2 N1).
  assert (Hiu := intersection_is_union k2 N1).
  assert (Hnil : extractKeywords b1 <> [] <-> (0 < length k1)%nat).
  { apply new_Set_nonempty. }
  assert (Hsame : (forall k, In k k1 <-> In k k2)
                  <-> (forall k, In k (extractKeywords b1) <-> In k (extractKeywords b2))).
  { unfold k1, k2. split; intros H k; specialize (H k);
      rewrite ?new_Set_In in *; exact H. }
  rewrite Hnil, <- Hsame, <- Hiu.
  destruct (Nat.ltb_spec 0 (length (new_Set (k1 ++ k2)))) as [H|H].
  - split.
    + intro E.
      assert (Hq : JS.count_Q (length (filter (has k2) k1))
                   == JS.count_Q (length (new_Set (k1 ++ k2)))).
      { apply count_Q_pos in H.
        set (i := JS.count_Q (length (filter (has k2) k1))) in *.
        set (u := JS.count_Q (length (new_Set (k1 ++ k2)))) in *.
        assert (Ei : i == (i / u) * u) by (field; lra).
        rewrite Ei, E. ring. }
      unfold JS.count_Q in Hq. rewrite inject_Z_injective in Hq. lia.
    + intros [Hp E]. rewrite E. field.
      apply count_Q_pos in H. lra.
  - split; [intro E; discriminate E|]. intros [Hp E]. lia.
Qed.

(** *** What the passes write for a selected pair *)

Lemma greatest_idem x : greatest x x = x.
Proof. unfold greatest. now destruct (Qle_bool x x). Qed.

Lemma pair_is_refl row :
  pair_is (primary_agent_id row) (linked_agent_id row) row = true.
Proof. unfold pair_is. now rewrite !Z.eqb_refl. Qed.

Lemma pair_is_eq id1 id2 l :
  pair_is id1 id2 l = true <-> (primary_agent_id l, linked_agent_id l) = (id1, id2).
Proof.
  unfold pair_is. rewrite andb_true_iff, !Z.eqb_eq. split.
  - intros [-> ->]. reflexivity.
  - intro H. now inversion H.
Qed.

Lemma unlinked_confidence links id1 id2 :
  linked_pair links id1 id2 = false -> confidence_of links id1 id2 = None.
Proof.
  intro H. destruct (confidence_of links id1 id2) eqn:E; [|reflexivity].
  apply linked_pair_of_confidence in E. congruence.
Qed.

Lemma upsert_fuzzy_written row links :
  confidence_of (upsert_fuzzy row links) (primary_agent_id row) (linked_agent_id row)
  = Some (confidence row).
Proof.
  destruct (confidence_of links (primary_agent_id row) (linked_agent_id row)) eqn:E.
  - rewrite (upsert_fuzzy_existing _ _ E), greatest_idem. reflexivity.
  - revert E. rewrite !confidence_of_find.
    induction links as [|l links IH]; cbn [upsert_fuzzy find].
    + now rewrite pair_is_refl.
    + rewrite same_pair_is. destruct (pair_is _ _ l) eqn:El; [discriminate|].
      cbn [find]. now rewrite El.
Qed.

Lemma upsert_exact_absent row links :
  confidence_of links (primary_agent_id row) (linked_agent_id row) = None ->
  confidence_of (upsert_exact row links) (primary_agent_id row) (linked_agent_id row)
  = Some (confidence row).
Proof.
  rewrite !confidence_of_find.
  induction links as [|l links IH]; cbn [upsert_exact find].
  - now rewrite pair_is_refl.
  - rewrite same_pair_is. destruct (pair_is _ _ l) eqn:El; [discriminate|].
    cbn [find]. now rewrite El.
Qed.

Lemma upsert_exact_other row links id1 id2 :
  (primary_agent_id row, linked_agent_id row) <> (id1, id2) ->
  confidence_of (upsert_exact row links) id1 id2 = confidence_of links id1 id2.
Proof.
  intro Hne. rewrite !confidence_of_find.
  assert (Hrow : pair_is id1 id2 row = false).
  { apply not_true_is_false. intro H. now apply pair_is_eq in H. }
  induction links as [|l links IH]; cbn [upsert_exact find].
  - now rewrite Hrow.
  - rewrite same_pair_is.
    destruct (pair_is (primary_agent_id row) (linked_agent_id row) l) eqn:E;
      cbn [find].
    + change (pair_is id1 id2
                {| primary_agent_id := primary_agent_id l;
                   linked_agent_id := linked_agent_id l;
                   link_type := link_type l;
                   confidence := greatest (confidence row) (confidence l) |})
        with (pair_is id1 id2 l).
      assert (Hl : pair_is id1 id2 l = false).
      { apply not_true_is_false. intro H. apply pair_is_eq in H, E. congruence. }
      now rewrite Hl.
    + destruct (pair_is id1 id2 l); [reflexivity|exact IH].
Qed.

(** The pairs of ids of a product of rows with a key. *)
Definition pair_ids (A : Type) (id : A -> Z) (p : A * A) : Z * Z :=
  (id (fst p), id (snd p)).

Lemma prod_ids_NoDup (A : Type) (id : A -> Z) (l l' : list A) :
  NoDup (map id l) -> NoDup (map id l') ->
  NoDup (map (pair_ids id) (list_prod l l')).
Proof.
  intros Hl Hl'. induction l as [|a l IH]; cbn [list_prod map]; [constructor|].
  inversion Hl as [|x xs Hx Hxs]; subst.
  rewrite map_app, map_map. apply NoDup_app.
  - clear -Hl'. induction l' as [|b l' IH']; cbn [map]; [constructor|].
    inversion Hl' as [|x xs Hx Hxs]; subst. constructor; [|now apply IH'].
    rewrite in_map_iff. intros [y [E Hy]]. unfold pair_ids in E. simpl in E.
    apply Hx. apply in_map_iff. exists y. split; [congruence|exact Hy].
  - now apply IH.
  - intros k H1 H2. apply in_map_iff in H1. destruct H1 as [y [E1 _]].
    apply in_map_iff in H2. destruct H2 as [[u v] [E2 Huv]].
    apply in_prod_iff in Huv. unfold pair_ids in *. simpl in *.
    apply Hx. apply in_map_iff. exists u. split; [congruence|tauto].
Qed.

Lemma NoDup_map_filter_ids (A B : Type) (f : A -> B) (g : A -> bool) l :
  NoDup (map f l) -> NoDup (map f (filter g l)).
Proof.
  induction l as [|x l IH]; simpl; [constructor|].
  intro H. inversion H as [|y ys Hy Hys]; subst.
  destruct (g x); [|now apply IH]. simpl. constructor; [|now apply IH].
  rewrite in_map_iff. intros [z [E Hz]]. apply filter_In in Hz.
  apply Hy. apply in_map_iff. exists z. tauto.
Qed.

Lemma NoDup_map_firstn (A B : Type) (f : A -> B) n l :
  NoDup (map f l) -> NoDup (map f (firstn n l)).
Proof.
  intro H. rewrite <- (firstn_skipn n l), map_app in H.
  now apply NoDup_app_remove_r in H.
Qed.

Lemma In_firstn (A : Type) n (l : list A) x : In x (firstn n l) -> In x l.
Proof.
  intro H. rewrite <- (firstn_skipn n l). apply in_or_app. now left.
Qed.

Section Writes.
Variable A : Type.
Variable row_of : A -> option identity_link.
Variable key_of : A -> Z * Z.
Hypothesis row_key : forall p r,
  row_of p = Some r -> (primary_agent_id r, linked_agent_id r) = key_of p.

(** A loop over the selected pairs that writes a row for some of them. *)
Definition writes (pairs : list A) (links : list identity_link)
  : list identity_link :=
  fold_left
    (fun ls p => match row_of p with Some r => upsert_fuzzy r ls | None => ls end)
    pairs links.

Lemma writes_other pairs : forall links id1 id2,
  ~ In (id1, id2) (map key_of pairs) ->
  confidence_of (writes pairs links) id1 id2 = confidence_of links id1 id2.
Proof.
  induction pairs as [|p pairs IH]; intros links id1 id2 Hn; [reflexivity|].
  cbn [writes fold_left]. fold (writes pairs).
  rewrite IH; [|intro H; apply Hn; now right].
  destruct (row_of p) as [r|] eqn:E; [|reflexivity].
  apply upsert_fuzzy_other. rewrite (row_key E).
  intro H. apply Hn. left. exact H.
Qed.

Lemma writes_selected pairs : forall links p,
  NoDup (map key_of pairs) -> In p pairs ->
  confidence_of (writes pairs links) (fst (key_of p)) (snd (key_of p))
  = match row_of p with
    | Some r => Some (confidence r)
    | None => confidence_of links (fst (key_of p)) (snd (key_of p))
    end.
Proof.
  induction pairs as [|q pairs IH]; intros links p Hnd Hin; [destruct Hin|].
  cbn [map] in Hnd. inversion Hnd as [|x xs Hx Hxs]; subst.
  cbn [writes fold_left]. fold (writes pairs).
  destruct Hin as [->|Hin].
  - rewrite writes_other by now rewrite <- surjective_pairing.
    destruct (row_of p) as [r|] eqn:E; [|reflexivity].
    rewrite <- (row_key E). apply upsert_fuzzy_written.
  - rewrite (IH _ _ Hxs Hin).
    destruct (row_of p) as [r|] eqn:E; [reflexivity|].
    destruct (row_of q) as [r'|] eqn:E'; [|reflexivity].
    apply upsert_fuzzy_other. rewrite (row_key E'), <- surjective_pairing.
    intro H. apply Hx. rewrite H. now apply in_map.
Qed.
End Writes.

Definition fuzzy_row (p : agent * agent) : option identity_link :=
  let similarity := stringSimilarity (a_name (fst p)) (a_name (snd p)) in
  if Qle_bool similarityThreshold similarity
  then Some (mkLink (a_id (fst p)) (a_id (snd p)) "fuzzy_name_match" similarity)
  else None.

Lemma write_fuzzy_links_writes pairs : forall links,
  write_fuzzy_links pairs links = writes fuzzy_row pairs links.
Proof.
  unfold write_fuzzy_links, writes.
  induction pairs as [|p pairs IH]; intro links; [reflexivity|].
  cbn [fold_left]. rewrite IH. f_equal. unfold fuzzy_row. cbv zeta.
  now destruct (Qle_bool similarityThreshold
                  (stringSimilarity (a_name (fst p)) (a_name (snd p)))).
Qed.

Lemma candidate_unlinked links p :
  candidate links p = true ->
  confidence_of links (a_id (fst p)) (a_id (snd p)) = None.
Proof.
  unfold candidate. rewrite !andb_true_iff.
  intros [_ H]. apply negb_true_iff in H. now apply unlinked_confidence.
Qed.

(** X6: for a pair that the fuzzy pass selects, the table holds after the
    pass the similarity of the two names if it reaches the threshold 0.75,
    and no link of the pair otherwise. *)
Theorem linkFuzzyMatches_selected agents links p :
  NoDup (map a_id agents) ->
  In p (fuzzy_pairs agents links) ->
  confidence_of (linkFuzzyMatches agents links) (a_id (fst p)) (a_id (snd p))
  = if Qle_bool similarityThreshold (stringSimilarity (a_name (fst p)) (a_name (snd p)))
    then Some (stringSimilarity (a_name (fst p)) (a_name (snd p)))
    else None.
Proof.
  intros Hnd Hin. unfold linkFuzzyMatches. rewrite write_fuzzy_links_writes.
  assert (Hkey : forall q r, fuzzy_row q = Some r ->
            (primary_agent_id r, linked_agent_id r) = pair_ids a_id q).
  { intros q r. unfold fuzzy_row. cbv zeta.
    destruct (Qle_bool _ _); [|discriminate]. intro H. now inversion H. }
  assert (Hk : NoDup (map (pair_ids a_id) (fuzzy_pairs agents links))).
  { unfold fuzzy_pairs. apply NoDup_map_firstn, NoDup_map_filter_ids.
    now apply prod_ids_NoDup. }
  assert (H := @writes_selected _ fuzzy_row (pair_ids a_id) Hkey _ links _ Hk Hin).
  unfold pair_ids at 1 2 in H. cbn [fst snd] in H. rewrite H.
  unfold fuzzy_row. cbv zeta. destruct (Qle_bool _ _); [reflexivity|].
  apply candidate_unlinked.
  apply In_firstn, filter_In in Hin. tauto.
Qed.

Lemma linkFuzzyMatches_selected_witness :
  confidence_of (linkFuzzyMatches nova_agents []) 1 2
  = Some (stringSimilarity "nova1" "nova2").
Proof.
  apply (linkFuzzyMatches_selected nova_agents []
           (mkAgent 1 "nova1" "moltbook" 0, mkAgent 2 "nova2" "moltx" 0)).
  - repeat constructor; simpl; intuition discriminate.
  - simpl. left. reflexivity.
Defined.

(** *** [linkByMetadata] *)

Definition metadata_row (p : profile * profile) : option identity_link :=
  let confidence := metadata_confidence (p_bio (fst p)) (p_bio (snd p)) in
  if JS.Qlt_bool 0.65 confidence
  then Some (mkLink (a_id (p_agent (fst p))) (a_id (p_agent (snd p)))
               "bio_metadata_match" confidence)
  else None.

Lemma write_metadata_links_writes pairs : forall links,
  write_metadata_links pairs links = writes metadata_row pairs links.
Proof.
  unfold write_metadata_links, writes.
  induction pairs as [|p pairs IH]; intro links; [reflexivity|].
  cbn [fold_left]. rewrite IH. f_equal. unfold metadata_row. cbv zeta.
  now destruct (JS.Qlt_bool 0.65 (metadata_confidence (p_bio (fst p)) (p_bio (snd p)))).
Qed.

Lemma Qlt_bool_true x y : JS.Qlt_bool x y = true <-> x < y.
Proof.
  unfold JS.Qlt_bool. rewrite negb_true_iff. split.
  - intro H. apply Qnot_le_lt. intro H'. apply Qle_bool_iff in H'. congruence.
  - intro H. apply not_true_is_false. intro H'. apply Qle_bool_iff in H'. lra.
Qed.

Lemma Qlt_bool_false x y : JS.Qlt_bool x y = false <-> y <= x.
Proof.
  unfold JS.Qlt_bool. rewrite negb_false_iff. apply Qle_bool_iff.
Qed.

(** The similarity of the two bios enters the confidence with the factor
    0.6, so it never lifts the confidence over 0.65: the keyword overlap
    alone decides, and is the confidence of a link that is written. *)
Lemma metadata_confidence_keywords bio1 bio2 :
  JS.Qlt_bool 0.65 (metadata_confidence bio1 bio2)
  = JS.Qlt_bool 0.65 (bioKeywordMatch bio1 bio2)
  /\ (JS.Qlt_bool 0.65 (bioKeywordMatch bio1 bio2) = true ->
      metadata_confidence bio1 bio2 = bioKeywordMatch bio1 bio2).
Proof.
  unfold metadata_confidence. cbv zeta.
  assert (Hs := stringSimilarity_range (or_empty bio1) (or_empty bio2)).
  set (s := stringSimilarity (or_empty bio1) (or_empty bio2)) in *.
  set (k := bioKeywordMatch bio1 bio2).
  assert (Hmax : 0.65 < k -> Qmax (s * 0.6) k = k).
  { intro Hk. unfold Qmax, GenericMinMax.gmax.
    destruct (s * 0.6 ?= k) eqn:E; [|reflexivity|].
    - apply Qeq_alt in E. lra.
    - apply Qgt_alt in E. lra. }
  split.
  - destruct (JS.Qlt_bool 0.65 k) eqn:Ek.
    + apply Qlt_bool_true in Ek. rewrite (Hmax Ek). now apply Qlt_bool_true.
    + apply Qlt_bool_false in Ek. apply Qlt_bool_false.
      apply Q.max_lub; lra.
  - intro Ek. apply Qlt_bool_true in Ek. exact (Hmax Ek).
Qed.

(** X7: for a pair that the metadata pass selects, the table holds after
    the pass the keyword overlap of the two bios if it exceeds 0.65, and no
    link of the pair otherwise; the string similarity of the bios has no
    effect. *)
Theorem linkByMetadata_selected agents links p :
  NoDup (map (fun a => a_id (p_agent a)) agents) ->
  In p (metadata_pairs agents links) ->
  confidence_of (linkByMetadata agents links)
    (a_id (p_agent (fst p))) (a_id (p_agent (snd p)))
  = if JS.Qlt_bool 0.65 (bioKeywordMatch (p_bio (fst p)) (p_bio (snd p)))
    then Some (bioKeywordMatch (p_bio (fst p)) (p_bio (snd p)))
    else None.
Proof.
  intros Hnd Hin. unfold linkByMetadata. rewrite write_metadata_links_writes.
  set (id := fun a => a_id (p_agent a)) in *.
  assert (Hkey : forall q r, metadata_row q = Some r ->
            (primary_agent_id r, linked_agent_id r) = pair_ids id q).
  { intros q r. unfold metadata_row. cbv zeta.
    destruct (JS.Qlt_bool _ _); [|discriminate]. intro H. now inversion H. }
  assert (Hk : NoDup (map (pair_ids id) (metadata_pairs agents links))).
  { unfold metadata_pairs. apply NoDup_map_firstn, NoDup_map_filter_ids.
    now apply prod_ids_NoDup. }
  assert (H := @writes_selected _ metadata_row (pair_ids id) Hkey _ links _ Hk Hin).
  unfold pair_ids at 1 2 in H. cbn [fst snd] in H. unfold id in H at 1 2.
  rewrite H. unfold metadata_row. cbv zeta.
  destruct (metadata_confidence_keywords (p_bio (fst p)) (p_bio (snd p))) as [E1 E2].
  rewrite E1. destruct (JS.Qlt_bool 0.65 (bioKeywordMatch _ _)) eqn:Ek.
  - cbn [confidence]. now rewrite E2.
  - apply In_firstn, filter_In in Hin. destruct Hin as [_ Hc].
    rewrite !andb_true_iff in Hc.
    exact (candidate_unlinked _ _ (proj1 (proj1 Hc))).
Qed.

Lemma linkByMetadata_selected_witness :
  confidence_of (linkByMetadata two_bios []) 1 2
  = Some (bioKeywordMatch (Some "Rust compiler hacker"%string)
            (Some "hacker; compiler; rust!"%string)).
Proof.
  apply (linkByMetadata_selected two_bios []
           (mkProfile (mkAgent 1 "orbit" "moltbook" 0)
              (Some "Rust compiler hacker"%string),
            mkProfile (mkAgent 2 "orb1t" "moltx" 0)
              (Some "hacker; compiler; rust!"%string))).
  - repeat constructor; simpl; intuition discriminate.
  - simpl. left. reflexivity.
Defined.

(** *** [linkExactMatches] *)

Definition exact_row (p : agent * agent) : identity_link :=
  mkLink (a_id (fst p)) (a_id (snd p)) "exact_name_match" 0.95.

Lemma exact_fold_keep pairs : forall links id1 id2,
  confidence_of links id1 id2 = Some 0.95 ->
  confidence_of (fold_left (fun ls p => upsert_exact (exact_row p) ls) pairs links)
    id1 id2 = Some 0.95.
Proof.
  induction pairs as [|q pairs IH]; intros links id1 id2 H; [exact H|].
  cbn [fold_left]. apply IH.
  destruct (Z.eq_dec (a_id (fst q)) id1) as [E1|E1];
    [destruct (Z.eq_dec (a_id (snd q)) id2) as [E2|E2]|].
  - subst. exact (upsert_exact_existing (exact_row q) links H).
  - rewrite upsert_exact_other; [exact H|]. simpl. congruence.
  - rewrite upsert_exact_other; [exact H|]. simpl. congruence.
Qed.

Lemma exact_fold_new pairs : forall links p,
  In p pairs ->
  confidence_of links (a_id (fst p)) (a_id (snd p)) = None ->
  confidence_of (fold_left (fun ls p => upsert_exact (exact_row p) ls) pairs links)
    (a_id (fst p)) (a_id (snd p)) = Some 0.95.
Proof.
  induction pairs as [|q pairs IH]; intros links p Hin H; [destruct Hin|].
  cbn [fold_left].
  destruct (Z.eq_dec (a_id (fst q)) (a_id (fst p))) as [E1|E1];
    [destruct (Z.eq_dec (a_id (snd q)) (a_id (snd p))) as [E2|E2]|].
  - apply exact_fold_keep. rewrite <- E1, <- E2.
    apply (upsert_exact_absent (exact_row q)). simpl. now rewrite E1, E2.
  - destruct Hin as [->|Hin]; [congruence|]. apply IH; [exact Hin|].
    rewrite upsert_exact_other; [exact H|]. simpl. congruence.
  - destruct Hin as [->|Hin]; [congruence|]. apply IH; [exact Hin|].
    rewrite upsert_exact_other; [exact H|]. simpl. congruence.
Qed.

(** X8: two agents on different platforms whose names agree up to case,
    and who are not linked, are linked by the exact pass with confidence
    0.95 under the smaller id. *)
Theorem linkExactMatches_selected agents links a1 a2 :
  In a1 agents -> In a2 agents ->
  (a_id a1 < a_id a2)%Z ->
  a_platform a1 <> a_platform a2 ->
  toLowerCase (a_name a1) = toLowerCase (a_name a2) ->
  linked_pair links (a_id a1) (a_id a2) = false ->
  confidence_of (linkExactMatches agents links) (a_id a1) (a_id a2) = Some 0.95.
Proof.
  intros H1 H2 Hlt Hp Hn Hl. unfold linkExactMatches.
  apply (exact_fold_new (exact_pairs agents links) links (a1, a2)).
  - unfold exact_pairs. apply filter_In. split; [now apply in_prod|].
    unfold candidate. cbn [fst snd]. rewrite Hn, String.eqb_refl, Hl.
    apply Z.ltb_lt in Hlt. rewrite Hlt.
    apply String.eqb_neq in Hp. now rewrite Hp.
  - now apply unlinked_confidence.
Qed.

Lemma linkExactMatches_selected_witness :
  confidence_of (linkExactMatches two_platforms []) 1 2 = Some 0.95.
Proof.
  apply (linkExactMatches_selected two_platforms []
           (mkAgent 1 "orbit" "moltbook" 0) (mkAgent 2 "Orbit" "moltx" 0)).
  - simpl. left. reflexivity.
  - simpl. right. left. reflexivity.
  - reflexivity.
  - discriminate.
  - reflexivity.
  - reflexivity.
Defined.

(** *** [linkByFollowingRelationships] *)

Definition link_key (l : identity_link) : Z * Z :=
  (primary_agent_id l, linked_agent_id l).

Lemma same_pair_key l r : same_pair l r = true <-> link_key l = link_key r.
Proof. rewrite same_pair_is. apply pair_is_eq. Qed.

(** The statement inserts its rows when their pairs are new to the table
    and differ from each other. *)
Lemma insert_links_fresh rows : forall links,
  NoDup (map link_key rows) ->
  (forall r, In r rows -> ~ In (link_key r) (map link_key links)) ->
  insert_links rows links = Some (links ++ rows).
Proof.
  induction rows as [|r rows IH]; intros links Hnd Hnew; cbn [insert_links].
  - now rewrite app_nil_r.
  - cbn [map] in Hnd. inversion Hnd as [|x xs Hx Hxs]; subst.
    assert (E : existsb (fun l => same_pair l r) links = false).
    { apply not_true_is_false. intro H. apply existsb_exists in H.
      destruct H as [l [Hl Hs]]. apply same_pair_key in Hs.
      apply (Hnew r); [now left|]. rewrite <- Hs. now apply in_map. }
    rewrite E, IH; [now rewrite <- app_assoc|exact Hxs|].
    intros r' Hr' H. rewrite map_app, in_app_iff in H. destruct H as [H|[H|[]]].
    + apply (Hnew r'); [now right|exact H].
    + apply Hx. rewrite H. now apply in_map.
Qed.

Lemma find_absent links id1 id2 :
  ~ In (id1, id2) (map link_key links) -> find (pair_is id1 id2) links = None.
Proof.
  intro H. destruct (find _ links) as [l|] eqn:F; [|reflexivity].
  apply find_some in F. destruct F as [Hin Hl]. apply pair_is_eq in Hl.
  elim H. rewrite <- Hl. now apply (in_map link_key).
Qed.

Lemma find_unique rows r :
  NoDup (map link_key rows) -> In r rows ->
  find (pair_is (primary_agent_id r) (linked_agent_id r)) rows = Some r.
Proof.
  induction rows as [|x rows IH]; intros Hnd Hin; [destruct Hin|].
  cbn [map] in Hnd. inversion Hnd as [|y ys Hy Hys]; subst. cbn [find].
  destruct Hin as [->|Hin]; [now rewrite pair_is_refl|].
  destruct (pair_is _ _ x) eqn:E; [|now apply IH].
  apply pair_is_eq in E. elim Hy. fold (link_key x) in E. rewrite E.
  now apply (in_map link_key).
Qed.

Lemma find_app (A : Type) (f : A -> bool) l l' :
  find f (l ++ l') = match find f l with Some x => Some x | None => find f l' end.
Proof.
  induction l as [|x l IH]; simpl; [reflexivity|]. now destruct (f x).
Qed.

Lemma unlinked_key links id1 id2 :
  linked_pair links id1 id2 = false -> ~ In (id1, id2) (map link_key links).
Proof.
  intros H Hin. apply in_map_iff in Hin. destruct Hin as [l [E Hl]].
  assert (linked_pair links id1 id2 = true); [|congruence].
  apply existsb_exists. exists l. split; [exact Hl|].
  apply pair_is_eq in E. unfold pair_is in E. now rewrite E.
Qed.

Lemma following_rows_keys agents rels links :
  map link_key (following_rows agents rels links)
  = map (pair_ids a_id)
      (filter (fun p => (3 <=? mutual_follows rels p)%nat)
         (potential_links agents rels links)).
Proof. unfold following_rows. rewrite map_map. reflexivity. Qed.

Lemma least_range n :
  (3 <= n)%nat -> 0.3 <= least 0.85 (JS.count_Q n / 10) <= 0.85.
Proof.
  intro H. apply count_Q_le in H.
  change (JS.count_Q 3) with 3 in H.
  assert (Hd : 0.3 <= JS.count_Q n / 10).
  { apply Qle_shift_div_l; lra. }
  unfold least. destruct (Qle_bool 0.85 _) eqn:E; [lra|].
  split; [exact Hd|].
  apply Qlt_le_weak, Qnot_le_lt. intro H'. apply Qle_bool_iff in H'. congruence.
Qed.

(** X9: an agent that follows at least three agents is linked by the
    following pass to every agent of another platform that it is not
    linked to, whatever that agent follows; the confidence is a tenth of
    the number of agents followed, at most 0.85. *)
Theorem linkByFollowingRelationships_selected agents rels links a1 a2 :
  NoDup (map a_id agents) ->
  In a1 agents -> In a2 agents ->
  a_platform a1 <> a_platform a2 ->
  linked_pair links (a_id a1) (a_id a2) = false ->
  (3 <= length (followed rels (a_id a1)))%nat ->
  exists links',
    linkByFollowingRelationships agents rels links = Some links'
    /\ confidence_of links' (a_id a1) (a_id a2)
       = Some (least 0.85 (JS.count_Q (length (followed rels (a_id a1))) / 10))
    /\ 0.3 <= least 0.85 (JS.count_Q (length (followed rels (a_id a1))) / 10) <= 0.85.
Proof.
  intros Hnd H1 H2 Hp Hl Hn.
  set (rows := following_rows agents rels links).
  assert (Hkeys : NoDup (map link_key rows)).
  { unfold rows. rewrite following_rows_keys. unfold potential_links.
    apply NoDup_map_filter_ids, NoDup_map_filter_ids.
    now apply prod_ids_NoDup. }
  assert (Hnew : forall r, In r rows -> ~ In (link_key r) (map link_key links)).
  { intros r Hr. unfold rows, following_rows in Hr.
    apply in_map_iff in Hr. destruct Hr as [p [<- Hp']].
    apply filter_In in Hp'. destruct Hp' as [Hp' _].
    apply filter_In in Hp'. destruct Hp' as [_ Hc].
    rewrite !andb_true_iff in Hc. destruct Hc as [[[_ _] Hc] _].
    apply negb_true_iff in Hc. now apply unlinked_key. }
  exists (links ++ rows). split; [|split].
  - unfold linkByFollowingRelationships. fold rows.
    now apply insert_links_fresh.
  - set (r := mkLink (a_id a1) (a_id a2) "following_pattern"
                (least 0.85 (JS.count_Q (length (followed rels (a_id a1))) / 10))).
    assert (Hr : In r rows).
    { unfold rows, following_rows. apply in_map_iff. exists (a1, a2).
      split; [reflexivity|].
      assert (Hm : (3 <=? mutual_follows rels (a1, a2))%nat = true).
      { apply Nat.leb_le. exact Hn. }
      apply filter_In. split; [|exact Hm].
      apply filter_In. split; [now apply in_prod|]. cbn [fst snd].
      rewrite Hl, Hm. apply String.eqb_neq in Hp. rewrite Hp.
      assert (Hid : (a_id a1 =? a_id a2)%Z = false).
      { apply Z.eqb_neq. intro E. apply String.eqb_neq in Hp. apply Hp.
        f_equal. clear -Hnd H1 H2 E.
        induction agents as [|a agents IH]; [destruct H1|].
        cbn [map] in Hnd. inversion Hnd as [|x xs Hx Hxs]; subst.
        destruct H1 as [->|H1], H2 as [->|H2]; try reflexivity.
        - elim Hx. rewrite E. now apply in_map.
        - elim Hx. rewrite <- E. now apply in_map.
        - now apply IH. }
      now rewrite Hid. }
    rewrite confidence_of_find, find_app, (@find_absent _ _ _ (@unlinked_key _ _ _ Hl)).
    change (find (pair_is (a_id a1) (a_id a2)) rows)
      with (find (pair_is (primary_agent_id r) (linked_agent_id r)) rows).
    rewrite (@find_unique rows r Hkeys Hr). reflexivity.
  - now apply least_range.
Qed.

Lemma linkByFollowingRelationships_selected_witness :
  exists links',
    linkByFollowingRelationships two_platforms three_follows [] = Some links'
    /\ confidence_of links' 1 2 = Some (least 0.85 (JS.count_Q 3 / 10))
    /\ 0.3 <= least 0.85 (JS.count_Q 3 / 10) <= 0.85.
Proof.
  apply (linkByFollowingRelationships_selected two_platforms three_follows []
           (mkAgent 1 "orbit" "moltbook" 0) (mkAgent 2 "Orbit" "moltx" 0)).
  - repeat constructor; simpl; intuition discriminate.
  - simpl. left. reflexivity.
  - simpl. right. left. reflexivity.
  - discriminate.
  - reflexivity.
  - simpl. lia.
Defined.

End LinkingFacts.

(** ** The threat analyzer: the other detectors, storage and landscape *)

Module Landscape.
Import Threat.
Open Scope Q_scope.

(** *** [analyzeSupplyChainRisks] *)

(** A row of the first query: a skill, the severity of a group of its
    alerts and their number. *)
Record suspicious_row := mkSuspicious {
  ss_name : string;
  ss_author : option string;
  ss_security_score : Q;
  ss_severity : option string;
  ss_alert_count : nat
}.

Definition severity_is (o : option string) (s : string) : bool :=
  match o with Some x => String.eqb x s | None => false end.

Definition suspicious_risk (skill : suspicious_row) : Q :=
  let riskScore := 0.3 in
  let riskScore :=
    if JS.Qlt_bool (ss_security_score skill) 30 then riskScore + 0.4 else riskScore in
  let riskScore :=
    if (3 <? ss_alert_count skill)%nat then riskScore + 0.3 else riskScore in
  let riskScore :=
    if severity_is (ss_severity skill) "high" then riskScore + 0.5 else riskScore in
  Qmin riskScore 1.0.

Definition suspicious_skill (skill : suspicious_row) : threat :=
  {| type := "supply_chain"; subtype := "suspicious_skill";
     agent_id := None; agent_name := None; author := ss_author skill;
     risk_score := suspicious_risk skill;
     correlation_boost := None |}.

(** A row of the second query: a skill updated within an hour of its
    creation. *)
Record update_row := mkUpdate {
  u_name : string;
  u_author : option string
}.

Definition unusual_update_pattern (skill : update_row) : threat :=
  {| type := "supply_chain"; subtype := "unusual_update_pattern";
     agent_id := None; agent_name := None; author := u_author skill;
     risk_score := 0.5;
     correlation_boost := None |}.

Definition analyzeSupplyChainRisks (suspiciousSkills : list suspicious_row)
    (unusualUpdates : list update_row) : list threat :=
  map suspicious_skill suspiciousSkills
  ++ map unusual_update_pattern unusualUpdates.

(** *** [analyzeNetworkPatterns] *)

(** The columns of [skills] that the first query reads. *)
Record release := mkRelease {
  r_author : option string;
  r_name : string;
  r_created_at : Z          (* seconds since the epoch *)
}.

(** [GROUP BY s.author]: the rows without an author form one group. *)
Definition author_eqb (a b : option string) : bool :=
  match a, b with
  | Some x, Some y => String.eqb x y
  | None, None => true
  | _, _ => false
  end.

(** [DATE(s.created_at)] as a day number. *)
Definition date_of (t : Z) : Z := (t / 86400)%Z.

Record coordinated_row := mkCoordinated {
  cg_author : option string;
  skills_count : nat;
  active_days : nat
}.

Definition coordinated_of (g : option string * list release) : coordinated_row :=
  {| cg_author := fst g;
     skills_count := length (nodup string_dec (map r_name (snd g)));
     active_days :=
       length (nodup Z.eq_dec (map (fun s => date_of (r_created_at s)) (snd g))) |}.

(** The first query, with its [HAVING] and [ORDER BY]. *)
Definition coordinatedGroups (now : Z) (skills : list release)
  : list coordinated_row :=
  JS.sort
    (fun a b => JS.count_Q (skills_count b) - JS.count_Q (skills_count a))
    (filter
       (fun g => (3 <? skills_count g)%nat && (active_days g <? 5)%nat)
       (map coordinated_of
          (JS.group_by author_eqb r_author (fun s => s)
             (filter (fun s => (now - days 30 <? r_created_at s)%Z) skills) []))).

Definition coordinated_behavior (group : coordinated_row) : threat :=
  let riskScore :=
    0.4 + JS.count_Q (skills_count group) * 0.1
    - JS.count_Q (active_days group) * 0.05 in
  {| type := "network_threats"; subtype := "coordinated_behavior";
     agent_id := None; agent_name := None; author := cg_author group;
     risk_score := Qmin riskScore 0.9;
     correlation_boost := None |}.

(** The second query yields the names of the agents whose posts of the
    week draw many upvotes of little variance. *)
Definition reputation_manipulation (name : string) : threat :=
  {| type := "network_threats"; subtype := "reputation_manipulation";
     agent_id := None; agent_name := Some name; author := None;
     risk_score := 0.6;
     correlation_boost := None |}.

Definition analyzeNetworkPatterns (now : Z) (skills : list release)
    (reputationAnomalies : list string) : list threat :=
  map coordinated_behavior (coordinatedGroups now skills)
  ++ map reputation_manipulation reputationAnomalies.

(** *** [detectAnomalies] *)






(** *** The landscape: distributions and top types *)

(** [analyzeThreatDistribution] counts in a plain object, [{}], whose
    prototype is [Object.prototype]: reading a property that the object
    does not own finds the member of the prototype of that name. *)
Definition prototype_members : list string :=
  [ "constructor"; "__defineGetter__"; "__defineSetter__"; "hasOwnProperty";
    "__lookupGetter__"; "__lookupSetter__"; "isPrototypeOf";
    "propertyIsEnumerable"; "toString"; "valueOf"; "toLocaleString" ]%string.

Definition inherited (k : string) : bool :=
  existsb (String.eqb k) prototype_members.

(** The value of a property of the counter: a number, or the text of the
    member of the prototype of some name followed by a number of
    characters 1, which is what [+ 1] makes of a function or a string. *)
Inductive counter :=
| Count (n : nat)
| Appended (member : string) (ones : nat).

Definition times (v : counter) : nat :=
  match v with
  | Count n => n
  | Appended _ n => n
  end.

(** The own properties, in the order of their creation. *)
Definition own_properties := list (string * counter).

Fixpoint own_get (o : own_properties) (k : string) : option counter :=
  match o with
  | [] => None
  | (k', v) :: o' => if String.eqb k' k then Some v else own_get o' k
  end.

Fixpoint own_set (o : own_properties) (k : string) (v : counter)
  : own_properties :=
  match o with
  | [] => [(k, v)]
  | (k', v') :: o' =>
      if String.eqb k' k then (k', v) :: o' else (k', v') :: own_set o' k v
  end.

(** [distribution[k]] *)
Inductive lookup :=
| Own (v : counter)
| Member            (* a function of the prototype, or the prototype itself *)
| Undefined.

Definition get (o : own_properties) (k : string) : lookup :=
  match own_get o k with
  | Some v => Own v
  | None =>
      if String.eqb k "__proto__" || inherited k then Member else Undefined
  end.

(** [(x || 0) + 1]: a number of the counter is never 0, and a function, an
    object or a string is truthy and turns the sum into a text. *)
Definition plus_one (k : string) (x : lookup) : counter :=
  match x with
  | Own (Count n) => Count (S n)
  | Own (Appended m n) => Appended m (S n)
  | Member => Appended k 1
  | Undefined => Count 1
  end.

(** [distribution[k] = v]: the name [__proto__] is an accessor of the
    prototype, whose setter ignores a value that is neither an object nor
    null; every other name becomes, or is, an own property. *)
Definition set (o : own_properties) (k : string) (v : counter)
  : own_properties :=
  if String.eqb k "__proto__" then o else own_set o k v.

(** An array index is the decimal text, without a leading zero, of a whole
    number below 2^32 - 1. *)
Definition digit (c : ascii) : option N :=
  let n := N_of_ascii c in
  if ((48 <=? n) && (n <=? 57))%N then Some (n - 48)%N else None.

Fixpoint digits (s : string) (acc : N) : option N :=
  match s with
  | EmptyString => Some acc
  | String c r =>
      match digit c with
      | Some d => digits r (10 * acc + d)%N
      | None => None
      end
  end.

Definition array_index (k : string) : option N :=
  match k with
  | EmptyString => None
  | String c r =>
      if Ascii.eqb c "0" then
        match r with EmptyString => Some 0%N | _ => None end
      else
        match digits k 0 with
        | Some n => if (n <? 2 ^ 32 - 1)%N then Some n else None
        | None => None
        end
  end.

Definition is_index (p : string * counter) : bool :=
  match array_index (fst p) with Some _ => true | None => false end.

Definition index_of (p : string * counter) : Z :=
  match array_index (fst p) with Some n => Z.of_N n | None => 0%Z end.

(** The properties as [JSON.stringify] and [Object.keys] list them: the
    array indices in ascending order, then the other names in the order
    of their creation. *)
Definition enumerate (o : own_properties) : own_properties :=
  JS.sort (fun a b => inject_Z (index_of a - index_of b)) (filter is_index o)
  ++ filter (fun p => negb (is_index p)) o.

Definition analyzeThreatDistribution (threats : list threat)
  : own_properties :=
  let distribution :=
    fold_left
      (fun distribution threat =>
         set distribution (type threat)
           (plus_one (type threat) (get distribution (type threat))))
      threats [] in
  enumerate distribution.

Record risk_distribution := mkRisk {
  high_risk : nat;
  medium_risk : nat;
  low_risk : nat
}.

Definition analyzeRiskDistribution (threats : list threat) : risk_distribution :=
  {| high_risk :=
       length (filter (fun t => JS.Qlt_bool 0.8 (risk_score t)) threats);
     medium_risk :=
       length
         (filter
            (fun t => JS.Qlt_bool 0.6 (risk_score t) && Qle_bool (risk_score t) 0.8)
            threats);
     low_risk :=
       length (filter (fun t => Qle_bool (risk_score t) 0.6) threats) |}.

(** The key [`${threat.type}.${threat.subtype}`]. *)
Definition type_key (t : threat) : string := (type t ++ "." ++ subtype t)%string.

Definition getTopThreatTypes (threats : list threat) : list (string * nat) :=
  firstn 10
    (JS.sort (fun a b => JS.count_Q (snd b) - JS.count_Q (snd a))
       (JS.tally String.eqb (map type_key threats))).

Record recommendation := mkRecommendation {
  priority : string;
  action : string
}.

Definition generateRecommendations (threats : list threat) : list recommendation :=
  let highRiskThreats := filter (fun t => JS.Qlt_bool 0.8 (risk_score t)) threats in
  let credentialThreats :=
    filter (fun t => String.eqb (subtype t) "credential_harvesting") threats in
  let supplyChainThreats :=
    filter (fun t => String.eqb (type t) "supply_chain") threats in
  (if (0 <? length highRiskThreats)%nat
   then [mkRecommendation "high" "immediate_investigation"] else [])
  ++ (if (3 <? length credentialThreats)%nat
      then [mkRecommendation "medium" "enhanced_credential_monitoring"] else [])
  ++ (if (5 <? length supplyChainThreats)%nat
      then [mkRecommendation "medium" "skill_verification_review"] else []).

(** The snapshot that [updateThreatLandscape] writes, without its time
    stamp and the patterns read from the metadata of the threats. *)
Record landscape := mkLandscape {
  total_threats : nat;
  threat_distribution : own_properties;
  risk_dist : risk_distribution;
  top_threat_types : list (string * nat);
  recommendations : list recommendation
}.

Definition updateThreatLandscape (threats : list threat) : landscape :=
  {| total_threats := length threats;
     threat_distribution := analyzeThreatDistribution threats;
     risk_dist := analyzeRiskDistribution threats;
     top_threat_types := getTopThreatTypes threats;
     recommendations := generateRecommendations threats |}.

(** *** [storeThreats] and [analyze] *)

(** A row of [threat_intelligence]. *)
Record intelligence := mkIntelligence {
  threat_type : string;
  threat_subtype : string;
  ti_risk_score : Q
}.

Definition intelligence_of (t : threat) : intelligence :=
  mkIntelligence (type t) (subtype t) (risk_score t).

(** The table [threat_intelligence]: [None] while it does not exist. *)
Definition table := option (list intelligence).

(** The end of a call: it returns, or a statement fails and the call
    rejects; both leave a table behind. *)
Inductive outcome := Done (t : table) | Raised (t : table).

(** The loop of [INSERT]s; an [INSERT] into a table that does not exist
    fails. *)
Fixpoint insert_threats (threats : list threat) (t : table) : outcome :=
  match threats with
  | [] => Done t
  | threat :: threats' =>
      match t with
      | None => Raised None
      | Some rows => insert_threats threats' (Some (rows ++ [intelligence_of threat]))
      end
  end.

(** [CREATE TABLE IF NOT EXISTS threat_intelligence], after the loop. *)
Definition create_table (t : table) : table :=
  match t with None => Some [] | Some rows => Some rows end.

Definition storeThreats (threats : list threat) (t : table) : outcome :=
  match insert_threats threats t with
  | Done t' => Done (create_table t')
  | Raised t' => Raised t'
  end.

Definition highPriority (threats : list threat) : list threat :=
  filter (fun t => JS.Qlt_bool 0.6 (risk_score t)) threats.

(** [analyze], from the threats of the four detectors: the table it
    leaves and the snapshot it writes; a failure is logged and ends the
    run. *)
Definition analyze (agentBehaviorThreats supplyChainThreats networkThreats
    anomalyThreats : list threat) (t : table) : table * option landscape :=
  let correlatedThreats :=
    correlateThreats
      (agentBehaviorThreats ++ supplyChainThreats ++ networkThreats
       ++ anomalyThreats) in
  match storeThreats (highPriority correlatedThreats) t with
  | Done t' => (t', Some (updateThreatLandscape correlatedThreats))
  | Raised t' => (t', None)
  end.

(** Four skills of one author, released on four days. *)
Definition four_releases : list release :=
  [ mkRelease (Some "eve"%string) "a" (days 1);
    mkRelease (Some "eve"%string) "b" (days 2);
    mkRelease (Some "eve"%string) "c" (days 3);
    mkRelease (Some "eve"%string) "d" (days 4) ].

End Landscape.

(** ** Sorted arrays *)

Module SortFacts.
Open Scope Q_scope.

Section Sorted.
Variable A : Type.
Variable cmp : A -> A -> Q.
Variable R : A -> A -> Prop.
Hypothesis R_trans : forall a b c, R a b -> R b c -> R a c.
Hypothesis cmp_le : forall a b, cmp a b <= 0 -> R a b.
Hypothesis cmp_gt : forall a b, ~ cmp a b <= 0 -> R b a.

Lemma insert_sorted_Forall x y l :
  R y x -> Forall (R y) l -> Forall (R y) (JS.insert_sorted cmp x l).
Proof.
  intros Hx Hl. induction Hl as [|z l Hz Hl IH]; simpl.
  - now constructor.
  - destruct (Qle_bool (cmp x z) 0); repeat constructor; assumption.
Qed.

Lemma insert_sorted_sorted x l :
  StronglySorted R l -> StronglySorted R (JS.insert_sorted cmp x l).
Proof.
  induction 1 as [|y l Hs IH Hy]; simpl.
  - repeat constructor.
  - destruct (Qle_bool (cmp x y) 0) eqn:E.
    + apply Qle_bool_iff in E. apply cmp_le in E.
      constructor; [now constructor|].
      constructor; [exact E|].
      eapply Forall_impl; [|exact Hy]. intros z Hz. now apply R_trans with y.
    + constructor; [exact IH|].
      apply insert_sorted_Forall; [|exact Hy].
      apply cmp_gt. intro H. apply Qle_bool_iff in H. congruence.
Qed.

Lemma sort_sorted l : StronglySorted R (JS.sort cmp l).
Proof.
  induction l as [|x l IH]; simpl; [constructor|].
  now apply insert_sorted_sorted.
Qed.
End Sorted.

(** Sorting with the comparator [(a, b) => key(b) - key(a)] leaves the
    keys in descending order. *)
Lemma sort_descending (A : Type) (key : A -> Q) (l : list A) :
  StronglySorted (fun a b => key b <= key a)
    (JS.sort (fun a b => key b - key a) l).
Proof.
  apply sort_sorted.
  - intros a b c H1 H2. lra.
  - intros a b H. lra.
  - intros a b H. lra.
Qed.

Lemma sort_In (A : Type) (cmp : A -> A -> Q) (l : list A) x :
  In x (JS.sort cmp l) <-> In x l.
Proof.
  split; apply Permutation_in; [symmetry|]; apply JS.sort_perm.
Qed.

Lemma sort_length (A : Type) (cmp : A -> A -> Q) (l : list A) :
  length (JS.sort cmp l) = length l.
Proof. symmetry. apply Permutation_length, JS.sort_perm. Qed.

Lemma sorted_firstn (A : Type) (R : A -> A -> Prop) n (l : list A) :
  StronglySorted R l -> StronglySorted R (firstn n l).
Proof.
  intro H. revert n. induction H as [|x l Hs IH Hx]; intro n.
  - rewrite firstn_nil. constructor.
  - destruct n; simpl; constructor; [apply IH|].
    apply Forall_forall. intros y Hy.
    rewrite Forall_forall in Hx. apply Hx.
    rewrite <- (firstn_skipn n l). apply in_or_app. now left.
Qed.

End SortFacts.

(** ** Properties of the threat analyzer *)

Module LandscapeFacts.
Import Threat ThreatFacts Landscape SortFacts.
Open Scope Q_scope.

Lemma Qlt_bool_lt x y : JS.Qlt_bool x y = true <-> x < y.
Proof.
  unfold JS.Qlt_bool. rewrite negb_true_iff. split.
  - intro H. apply Qnot_le_lt. intro H'. apply Qle_bool_iff in H'. congruence.
  - intro H. apply not_true_is_false. intro H'. apply Qle_bool_iff in H'. lra.
Qed.

Lemma Qlt_bool_ge x y : JS.Qlt_bool x y = false <-> y <= x.
Proof. unfold JS.Qlt_bool. rewrite negb_false_iff. apply Qle_bool_iff. Qed.

Lemma Qle_bool_gt x y : Qle_bool x y = false <-> y < x.
Proof.
  split.
  - intro H. apply Qnot_le_lt. intro H'. apply Qle_bool_iff in H'. congruence.
  - intro H. apply not_true_is_false. intro H'. apply Qle_bool_iff in H'. lra.
Qed.

Lemma count_Q_nat_le n m : (n <= m)%nat -> JS.count_Q n <= JS.count_Q m.
Proof. intro H. unfold JS.count_Q. rewrite <- Zle_Qle. lia. Qed.

(** *** [correlateThreats] *)

Lemma correlateThreats_In ts t :
  In t (correlateThreats ts) <-> In t (map (correlated ts) ts).
Proof.
  unfold correlateThreats. cbv zeta. rewrite boosted_store. apply sort_In.
Qed.

(** X10: [correlateThreats] returns the signals in descending order of
    their risk. *)
Theorem correlateThreats_sorted threats :
  StronglySorted (fun a b => risk_score b <= risk_score a)
    (correlateThreats threats).
Proof. unfold correlateThreats. cbv zeta. apply sort_descending. Qed.

Lemma boostFactor_ge_1 n : (1 <= n)%nat -> 1 <= 1 + (JS.count_Q n - 1) * 0.2.
Proof.
  intro H. apply count_Q_nat_le in H. change (JS.count_Q 1) with 1 in H. lra.
Qed.

Lemma correlated_risk ts t :
  In t ts -> 0 <= risk_score t <= 1 ->
  risk_score t <= risk_score (correlated ts t) <= 1.
Proof.
  intros Hin Hr. unfold correlated. cbv zeta.
  destruct (1 <? signalCount ts (correlation_key t))%nat; [|lra].
  assert (Hb := boostFactor_ge_1 (signalCount_pos _ _ Hin)).
  cbn [boost risk_score]. split.
  - apply Q.min_glb; [nra|lra].
  - apply Qle_trans with 1.0; [apply Q.le_min_r|lra].
Qed.

(** X11: when the detectors deliver risks between 0 and 1, correlation
    lowers no risk and every risk it returns is between 0 and 1. *)
Theorem correlateThreats_range threats :
  Forall (fun t => 0 <= risk_score t <= 1) threats ->
  Forall (fun t => 0 <= risk_score t <= 1) (correlateThreats threats)
  /\ Forall (fun t => risk_score t <= risk_score (correlated threats t)) threats.
Proof.
  intro H. rewrite Forall_forall in H. split.
  - apply Forall_forall. intros t' Hin. apply correlateThreats_In in Hin.
    apply in_map_iff in Hin. destruct Hin as [t [<- Hin]].
    assert (Hr := correlated_risk _ _ Hin (H t Hin)).
    assert (H0 := H t Hin). lra.
  - apply Forall_forall. intros t Hin.
    apply (correlated_risk _ _ Hin (H t Hin)).
Qed.

Lemma correlateThreats_range_witness :
  Forall (fun t => 0 <= risk_score t <= 1)
    (correlateThreats [signal 42 0.5; signal 42 0.5; signal 7 0.9])
  /\ Forall (fun t => risk_score t
                      <= risk_score
                           (correlated [signal 42 0.5; signal 42 0.5; signal 7 0.9] t))
       [signal 42 0.5; signal 42 0.5; signal 7 0.9].
Proof.
  apply (@correlateThreats_range [signal 42 0.5; signal 42 0.5; signal 7 0.9]).
  repeat constructor; simpl; lra.
Defined.

(** *** The risk classes and what [analyze] stores *)

Lemma risk_classes ts :
  (high_risk (analyzeRiskDistribution ts) + medium_risk (analyzeRiskDistribution ts)
   + low_risk (analyzeRiskDistribution ts) = length ts)%nat
  /\ length (highPriority ts)
     = (high_risk (analyzeRiskDistribution ts)
        + medium_risk (analyzeRiskDistribution ts))%nat.
Proof.
  unfold analyzeRiskDistribution, highPriority. cbn [high_risk medium_risk low_risk].
  induction ts as [|t ts [IH1 IH2]]; [split; reflexivity|].
  cbn [filter].
  destruct (JS.Qlt_bool 0.8 (risk_score t)) eqn:E1;
    destruct (JS.Qlt_bool 0.6 (risk_score t)) eqn:E2;
    destruct (Qle_bool (risk_score t) 0.8) eqn:E3;
    destruct (Qle_bool (risk_score t) 0.6) eqn:E4;
    cbn [andb length];
    try (split; lia);
    exfalso;
    rewrite ?Qlt_bool_lt, ?Qlt_bool_ge, ?Qle_bool_iff, ?Qle_bool_gt in *; lra.
Qed.

Lemma insert_threats_existing ts : forall rows,
  insert_threats ts (Some rows) = Done (Some (rows ++ map intelligence_of ts)).
Proof.
  induction ts as [|t ts IH]; intro rows; cbn [insert_threats map].
  - now rewrite app_nil_r.
  - now rewrite IH, <- app_assoc.
Qed.

(** X12: with the table in place, [analyze] appends one row for every
    correlated signal of risk above 0.6, in descending order of risk, and
    writes a snapshot; the rows it appends are as many as the high and
    medium risks of the snapshot, whose three risk classes add up to the
    signals of the four detectors. *)
Theorem analyze_existing_table a s n d rows :
  exists stored snapshot,
    analyze a s n d (Some rows)
    = (Some (rows ++ map intelligence_of stored), Some snapshot)
    /\ (forall t, In t stored <->
                  In t (correlateThreats (a ++ s ++ n ++ d)) /\ 0.6 < risk_score t)
    /\ StronglySorted (fun x y => risk_score y <= risk_score x) stored
    /\ length stored
       = (high_risk (risk_dist snapshot) + medium_risk (risk_dist snapshot))%nat
    /\ (high_risk (risk_dist snapshot) + medium_risk (risk_dist snapshot)
        + low_risk (risk_dist snapshot))%nat
       = total_threats snapshot
    /\ total_threats snapshot = (length a + length s + length n + length d)%nat.
Proof.
  set (c := correlateThreats (a ++ s ++ n ++ d)).
  exists (highPriority c), (updateThreatLandscape c).
  split; [|split; [|split; [|split; [|split]]]].
  - unfold analyze, storeThreats. cbv zeta. fold c.
    now rewrite insert_threats_existing.
  - intro t. unfold highPriority. rewrite filter_In, Qlt_bool_lt. tauto.
  - unfold highPriority.
    assert (H := correlateThreats_sorted (a ++ s ++ n ++ d)). fold c in H.
    induction H as [|x l Hs IH Hx]; cbn [filter]; [constructor|].
    destruct (JS.Qlt_bool 0.6 (risk_score x)); [|exact IH].
    constructor; [exact IH|].
    apply Forall_forall. intros y Hy. apply filter_In in Hy.
    rewrite Forall_forall in Hx. now apply Hx.
  - apply risk_classes.
  - apply risk_classes.
  - cbn [updateThreatLandscape total_threats]. unfold c, correlateThreats.
    cbv zeta. rewrite sort_length, length_boost_entries, !length_app. lia.
Qed.

(** X13: [storeThreats] creates the table after its inserts.  While the
    table does not exist, a run of [analyze] with a signal of risk above
    0.6 fails at the first insert: it stores nothing, writes no snapshot
    and leaves the table missing; only a run without such a signal creates
    the table. *)
Theorem analyze_missing_table a s n d :
  analyze a s n d None
  = match highPriority (correlateThreats (a ++ s ++ n ++ d)) with
    | [] => (Some [],
             Some (updateThreatLandscape (correlateThreats (a ++ s ++ n ++ d))))
    | _ :: _ => (None, None)
    end.
Proof.
  unfold analyze, storeThreats. cbv zeta.
  now destruct (highPriority (correlateThreats (a ++ s ++ n ++ d))).
Qed.

(** *** Counting by type *)

Lemma filter_map_length (A B : Type) (f : A -> B) (g : B -> bool) l :
  length (filter g (map f l)) = length (filter (fun x => g (f x)) l).
Proof.
  induction l as [|x l IH]; simpl; [reflexivity|].
  destruct (g (f x)); simpl; now rewrite IH.
Qed.

Lemma tally_count keys k n :
  In (k, n) (JS.tally String.eqb keys) ->
  n = length (filter (fun k' => String.eqb k' k) keys).
Proof.
  intro H.
  rewrite <- (JS.tally_get_In _ String.eqb_eq _ _ _ (JS.tally_NoDup _ String.eqb_eq keys) H).
  unfold JS.tally. rewrite JS.tally_fold_get; [reflexivity|apply String.eqb_eq].
Qed.

Lemma bump_sum (k : string) m :
  list_sum (map snd (JS.bump String.eqb k m)) = S (list_sum (map snd m)).
Proof.
  induction m as [|[k0 n0] m IH]; simpl; [reflexivity|].
  destruct (String.eqb k0 k); simpl; [reflexivity|]. rewrite IH. lia.
Qed.

Lemma tally_sum keys :
  list_sum (map snd (JS.tally String.eqb keys)) = length keys.
Proof.
  unfold JS.tally.
  assert (H : forall m0,
    list_sum (map snd (fold_left (fun m k => JS.bump String.eqb k m) keys m0))
    = (list_sum (map snd m0) + length keys)%nat).
  { induction keys as [|k keys IH]; intro m0; simpl; [lia|].
    rewrite IH, bump_sum. lia. }
  exact (H []).
Qed.

(** The value that the counter holds for a name after [n] signals. *)
Definition counted (k : string) (n : nat) : counter :=
  if inherited k then Appended k n else Count n.

Definition counted_entry (e : string * nat) : string * counter :=
  (fst e, counted (fst e) (snd e)).

Definition not_proto (k : string) : bool := negb (String.eqb k "__proto__").

Lemma count_step m k :
  not_proto k = true ->
  set (map counted_entry m) k (plus_one k (get (map counted_entry m) k))
  = map counted_entry (JS.bump String.eqb k m).
Proof.
  intro Hk. unfold set. unfold not_proto in Hk.
  apply negb_true_iff in Hk. rewrite Hk.
  induction m as [|[k0 n0] m IH].
  - cbn [map own_set JS.bump get own_get]. rewrite Hk. cbn [orb].
    unfold counted_entry, counted. cbn [fst snd].
    now destruct (inherited k).
  - cbn [map JS.bump]. unfold counted_entry at 1 3. cbn [fst snd own_set].
    unfold get. cbn [own_get].
    destruct (String.eqb k0 k) eqn:E.
    + cbn [map]. unfold counted_entry at 2. cbn [fst snd].
      f_equal. f_equal. unfold counted. now destruct (inherited k0).
    + cbn [map]. unfold counted_entry at 2. cbn [fst snd].
      f_equal. exact IH.
Qed.

Lemma count_fold keys : forall m,
  fold_left (fun o k => set o k (plus_one k (get o k))) keys (map counted_entry m)
  = map counted_entry
      (fold_left (fun m k => JS.bump String.eqb k m) (filter not_proto keys) m).
Proof.
  induction keys as [|k keys IH]; intro m; [reflexivity|].
  cbn [fold_left filter]. destruct (not_proto k) eqn:Hk.
  - rewrite (@count_step m k Hk). cbn [fold_left]. apply IH.
  - unfold set at 2. unfold not_proto in Hk. apply negb_false_iff in Hk.
    rewrite Hk. apply IH.
Qed.

Lemma fold_types (threats : list threat) o :
  fold_left
    (fun distribution threat =>
       set distribution (type threat)
         (plus_one (type threat) (get distribution (type threat))))
    threats o
  = fold_left (fun o k => set o k (plus_one k (get o k))) (map type threats) o.
Proof.
  revert o. induction threats as [|t ts IH]; intro o; [reflexivity|].
  cbn [fold_left map]. apply IH.
Qed.

(** The own properties after the loop. *)
Lemma distribution_tally threats :
  fold_left
    (fun distribution threat =>
       set distribution (type threat)
         (plus_one (type threat) (get distribution (type threat))))
    threats []
  = map counted_entry
      (JS.tally String.eqb (filter not_proto (map type threats))).
Proof. rewrite fold_types. exact (count_fold (map type threats) []). Qed.

Lemma enumerate_perm o : Permutation o (enumerate o).
Proof.
  unfold enumerate.
  rewrite <- (JS.sort_perm _ (filter is_index o)).
  induction o as [|p o IH]; [constructor|].
  cbn [filter]. destruct (is_index p); cbn [negb app].
  - now apply perm_skip.
  - now apply Permutation_cons_app.
Qed.

Lemma enumerate_plain o :
  Forall (fun p => is_index p = false) o -> enumerate o = o.
Proof.
  intro H. unfold enumerate.
  assert (E : filter is_index o = []
              /\ filter (fun p => negb (is_index p)) o = o).
  { induction H as [|p o Hp _ [IH1 IH2]]; [now split|].
    cbn [filter]. rewrite Hp. cbn [negb]. now rewrite IH1, IH2. }
  destruct E as [-> ->]. reflexivity.
Qed.

(** A type name that is no array index and no member of the prototype. *)
Definition ordinary (k : string) : bool :=
  not_proto k && negb (inherited k)
  && match array_index k with Some _ => false | None => true end.

Lemma bump_positive (k : string) m :
  Forall (fun e : string * nat => (0 < snd e)%nat) m ->
  Forall (fun e : string * nat => (0 < snd e)%nat) (JS.bump String.eqb k m).
Proof.
  induction 1 as [|[k2 n2] m Hh Ht IHm]; cbn [JS.bump].
  - repeat constructor.
  - destruct (String.eqb k2 k); constructor; cbn [snd] in *;
      try lia; assumption.
Qed.

Lemma tally_positive (keys : list string) :
  Forall (fun e : string * nat => (0 < snd e)%nat) (JS.tally String.eqb keys).
Proof.
  unfold JS.tally.
  assert (H : forall m0,
            Forall (fun e : string * nat => (0 < snd e)%nat) m0 ->
            Forall (fun e : string * nat => (0 < snd e)%nat)
              (fold_left (fun m k => JS.bump String.eqb k m) keys m0)).
  { induction keys as [|k keys IH]; intros m0 Hm0; [exact Hm0|].
    cbn [fold_left]. apply IH. now apply bump_positive. }
  apply H. constructor.
Qed.

Lemma counted_tally_In keys k v :
  In (k, v) (map counted_entry (JS.tally String.eqb keys)) ->
  v = counted k (length (filter (fun k' => String.eqb k' k) keys))
  /\ In k keys.
Proof.
  intro H. apply in_map_iff in H. destruct H as [[k0 n] [E Hin]].
  unfold counted_entry in E. cbn [fst snd] in E. inversion E; subst k0 v.
  assert (Hn := tally_count _ _ _ Hin). split; [now rewrite <- Hn|].
  assert (H0 := tally_positive keys).
  rewrite Forall_forall in H0. apply H0 in Hin. cbn [snd] in Hin.
  destruct (filter (fun k' => String.eqb k' k) keys) as [|x l] eqn:Ef.
  - cbn [length] in Hn. lia.
  - assert (Hx : In x (filter (fun k' => String.eqb k' k) keys))
      by (rewrite Ef; now left).
    apply filter_In in Hx. destruct Hx as [Hx Hk].
    apply String.eqb_eq in Hk. now subst.
Qed.

Lemma filter_not_proto_count keys k :
  k <> "__proto__"%string ->
  length (filter (fun k' => String.eqb k' k) (filter not_proto keys))
  = length (filter (fun k' => String.eqb k' k) keys).
Proof.
  intro Hk. induction keys as [|x keys IH]; [reflexivity|].
  cbn [filter]. destruct (not_proto x) eqn:Hx; cbn [filter].
  - destruct (String.eqb x k); cbn [length]; now rewrite IH.
  - unfold not_proto in Hx. apply negb_false_iff, String.eqb_eq in Hx.
    subst x. destruct (String.eqb_spec "__proto__" k) as [E|_];
      [now elim Hk|exact IH].
Qed.

Lemma filter_not_proto_length keys :
  (length (filter not_proto keys)
   + length (filter (fun k => String.eqb k "__proto__") keys))%nat
  = length keys.
Proof.
  induction keys as [|x keys IH]; [reflexivity|].
  cbn [filter]. unfold not_proto at 1.
  destruct (String.eqb x "__proto__"); cbn [negb length]; lia.
Qed.

Lemma times_counted k n : times (counted k n) = n.
Proof. unfold counted. now destruct (inherited k). Qed.

Lemma times_sum m :
  list_sum (map (fun e => times (snd e)) (map counted_entry m))
  = list_sum (map snd m).
Proof.
  unfold list_sum. induction m as [|[k n] m IH]; [reflexivity|].
  cbn [map fold_right]. rewrite IH. unfold counted_entry. cbn [fst snd].
  now rewrite times_counted.
Qed.

(** X14: [analyzeThreatDistribution] counts in a plain object.  Its
    entries have distinct names, none of which is [__proto__]; the entry
    of a type holds the number of signals of that type, as a number when
    the type is no member of [Object.prototype] and as a text with one
    character 1 per signal when it is; every type other than [__proto__]
    has an entry; the numbers of the entries and the number of signals of
    type [__proto__] add up to the number of signals.  When no type is an
    array index, a member of the prototype or [__proto__], the entries
    are the types in the order of their first signal, each with its
    count. *)
Theorem analyzeThreatDistribution_counts threats :
  NoDup (map fst (analyzeThreatDistribution threats))
  /\ (forall k v, In (k, v) (analyzeThreatDistribution threats) ->
        k <> "__proto__"%string
        /\ times v = length (filter (fun t => String.eqb (type t) k) threats)
        /\ (0 < times v)%nat
        /\ v = if inherited k then Appended k (times v) else Count (times v))
  /\ (forall t, In t threats -> type t <> "__proto__"%string ->
        exists v, In (type t, v) (analyzeThreatDistribution threats))
  /\ (list_sum (map (fun e => times (snd e)) (analyzeThreatDistribution threats))
      + length (filter (fun t => String.eqb (type t) "__proto__") threats))%nat
     = length threats
  /\ (forallb (fun t => ordinary (type t)) threats = true ->
      analyzeThreatDistribution threats
      = map (fun e => (fst e, Count (snd e)))
          (JS.tally String.eqb (map type threats))).
Proof.
  unfold analyzeThreatDistribution. cbv zeta. rewrite distribution_tally.
  set (keys := filter not_proto (map type threats)).
  set (o := map counted_entry (JS.tally String.eqb keys)).
  assert (Hp : Permutation o (enumerate o)) by apply enumerate_perm.
  assert (Hin : forall k v, In (k, v) o ->
            k <> "__proto__"%string
            /\ v = counted k (length (filter (fun t => String.eqb (type t) k) threats))
            /\ In k (map type threats)).
  { intros k v H. apply counted_tally_In in H. destruct H as [Hv Hk].
    unfold keys in Hk. apply filter_In in Hk. destruct Hk as [Hk Hn].
    assert (Hne : k <> "__proto__"%string).
    { intro E. subst k. discriminate. }
    split; [exact Hne|]. split; [|exact Hk].
    rewrite Hv. unfold keys. rewrite (filter_not_proto_count _ Hne).
    now rewrite filter_map_length. }
  split; [|split; [|split; [|split]]].
  - apply (Permutation_NoDup (Permutation_map fst Hp)).
    unfold o. rewrite map_map.
    rewrite (map_ext (fun e => fst (counted_entry e)) fst) by reflexivity.
    apply JS.tally_NoDup, String.eqb_eq.
  - intros k v H. apply (Permutation_in _ (Permutation_sym Hp)) in H.
    destruct (Hin k v H) as [Hne [Hv Hk]]. split; [exact Hne|].
    rewrite Hv, times_counted. split; [reflexivity|]. split; [|reflexivity].
    apply in_map_iff in Hk. destruct Hk as [t [Et Ht]].
    assert (Hf : In t (filter (fun t => String.eqb (type t) k) threats)).
    { apply filter_In. split; [exact Ht|]. now apply String.eqb_eq. }
    destruct (filter _ threats); [destruct Hf|simpl; lia].
  - intros t Ht Hne.
    assert (Hk : In (type t) keys).
    { unfold keys. apply filter_In. split; [now apply in_map|].
      unfold not_proto. apply negb_true_iff.
      now apply String.eqb_neq. }
    assert (Hpos : (0 < JS.tally_get String.eqb (JS.tally String.eqb keys) (type t))%nat).
    { unfold JS.tally. rewrite JS.tally_fold_get by apply String.eqb_eq.
      cbn [JS.tally_get].
      assert (Hf : In (type t) (filter (fun k' => String.eqb k' (type t)) keys)).
      { apply filter_In. split; [exact Hk|apply String.eqb_refl]. }
      destruct (filter _ keys); [destruct Hf|simpl; lia]. }
    apply (JS.tally_get_pos _ String.eqb_eq) in Hpos.
    eexists. apply (Permutation_in _ Hp). unfold o.
    apply in_map_iff. eexists. split; [|exact Hpos]. reflexivity.
  - rewrite <- (Permutation_map (fun e => times (snd e)) Hp).
    unfold o. rewrite times_sum, tally_sum. unfold keys.
    assert (E := filter_not_proto_length (map type threats)).
    assert (E1 := filter_map_length type
                    (fun k => String.eqb k "__proto__") threats).
    rewrite length_map in E. cbv beta in E1. lia.
  - intro Hord.
    assert (Hall : forall k, In k (map type threats) -> ordinary k = true).
    { intros k Hk. apply in_map_iff in Hk. destruct Hk as [t [<- Ht]].
      rewrite forallb_forall in Hord. now apply Hord. }
    assert (Ek : keys = map type threats).
    { unfold keys. clear -Hall.
      induction (map type threats) as [|k l IH]; [reflexivity|].
      cbn [filter].
      assert (Hk : ordinary k = true) by (apply Hall; now left).
      unfold ordinary in Hk. apply andb_true_iff in Hk. destruct Hk as [Hk _].
      apply andb_true_iff in Hk. destruct Hk as [Hk _]. rewrite Hk.
      f_equal. apply IH. intros x Hx. apply Hall. now right. }
    rewrite enumerate_plain.
    + unfold o. rewrite Ek. apply map_ext_in. intros [k n] He.
      unfold counted_entry, counted. cbn [fst snd].
      assert (Hk : In k (map type threats)).
      { assert (H := tally_count _ _ _ He).
        assert (H' : In (k, counted k n) o).
        { unfold o. rewrite Ek. apply in_map_iff. exists (k, n). now split. }
        now destruct (Hin _ _ H') as [_ [_ ?]]. }
      apply Hall in Hk. unfold ordinary in Hk.
      apply andb_true_iff in Hk. destruct Hk as [Hk _].
      apply andb_true_iff in Hk. destruct Hk as [_ Hk].
      apply negb_true_iff in Hk. now rewrite Hk.
    + apply Forall_forall. intros [k v] He.
      destruct (Hin _ _ He) as [_ [_ Hk]]. apply Hall in Hk.
      unfold ordinary in Hk. apply andb_true_iff in Hk. destruct Hk as [_ Hk].
      unfold is_index. cbn [fst]. now destruct (array_index k).
Qed.

(** Signals of the types supply_chain, 10, constructor, __proto__, 2,
    constructor and supply_chain: the indices come first, the member of
    the prototype holds a text, and [__proto__] has no entry. *)
Lemma analyzeThreatDistribution_object :
  analyzeThreatDistribution
    (map (fun k => mkThreat k "" None None None 0.5 None)
       [ "supply_chain"; "10"; "constructor"; "__proto__"; "2"; "007";
         "constructor"; "supply_chain" ]%string)
  = [ ("2", Count 1); ("10", Count 1); ("supply_chain", Count 2);
      ("constructor", Appended "constructor" 2); ("007", Count 1) ]%string.
Proof. vm_compute. reflexivity. Qed.

(** X15: [getTopThreatTypes] returns at most ten entries, in descending
    order of their count; the count of an entry is the number of signals
    with its type and subtype. *)
Theorem getTopThreatTypes_top threats :
  (length (getTopThreatTypes threats) <= 10)%nat
  /\ StronglySorted (fun x y => (snd y <= snd x)%nat) (getTopThreatTypes threats)
  /\ (forall k n, In (k, n) (getTopThreatTypes threats) ->
        n = length (filter (fun t => String.eqb (type_key t) k) threats)).
Proof.
  unfold getTopThreatTypes. split; [|split].
  - apply firstn_le_length.
  - apply sorted_firstn.
    apply sort_sorted.
    + intros x y z H1 H2. lia.
    + intros x y H. unfold JS.count_Q in H.
      assert (H' : inject_Z (Z.of_nat (snd y)) <= inject_Z (Z.of_nat (snd x))) by lra.
      rewrite <- Zle_Qle in H'. lia.
    + intros x y H.
      assert (H' : (snd x <= snd y)%nat \/ (snd y < snd x)%nat) by lia.
      destruct H' as [H'|H']; [exact H'|]. elim H.
      assert (Hq := count_Q_nat_le (Nat.lt_le_incl _ _ H')). lra.
  - intros k n H.
    assert (H' : In (k, n) (JS.tally String.eqb (map type_key threats))).
    { eapply sort_In. rewrite <- (firstn_skipn 10). apply in_or_app. left. exact H. }
    apply tally_count in H'. now rewrite filter_map_length in H'.
Qed.

(** *** The detectors *)

Lemma suspicious_risk_cases skill :
  0.3 <= suspicious_risk skill <= 1
  /\ (0.6 < suspicious_risk skill
      <-> ss_security_score skill < 30 \/ ss_severity skill = Some "high"%string).
Proof.
  unfold suspicious_risk. cbv zeta.
  assert (Hsev : severity_is (ss_severity skill) "high" = true
                 <-> ss_severity skill = Some "high"%string).
  { unfold severity_is. destruct (ss_severity skill) as [x|].
    - rewrite String.eqb_eq. split; congruence.
    - split; discriminate. }
  destruct (severity_is (ss_severity skill) "high") eqn:E3.
  - assert (H3 : ss_severity skill = Some "high"%string) by now apply Hsev.
    destruct (JS.Qlt_bool (ss_security_score skill) 30),
             (3 <? ss_alert_count skill)%nat;
      (split; [split; [apply Q.min_glb; lra
                      |apply Qle_trans with 1.0; [apply Q.le_min_r|lra]]
              |split; [tauto|intros _; apply Q.min_glb_lt; lra]]).
  - assert (H3 : ss_severity skill <> Some "high"%string).
    { intro H. apply Hsev in H. discriminate. }
    destruct (JS.Qlt_bool (ss_security_score skill) 30) eqn:E1.
    + apply Qlt_bool_lt in E1.
      destruct (3 <? ss_alert_count skill)%nat;
        (split; [split; [apply Q.min_glb; lra
                        |apply Qle_trans with 1.0; [apply Q.le_min_r|lra]]
                |split; [tauto|intros _; apply Q.min_glb_lt; lra]]).
    + apply Qlt_bool_ge in E1.
      destruct (3 <? ss_alert_count skill)%nat;
        (split; [split; [apply Q.min_glb; lra
                        |apply Qle_trans with 1.0; [apply Q.le_min_r|lra]]
                |split; [intro H; exfalso;
                         apply Q.min_glb_lt_iff in H; lra
                        |intros [H|H]; [lra|contradiction]]]).
Qed.

(** The risk of a suspicious skill, case by case. *)
Lemma suspicious_risk_values skill :
  let low := ss_security_score skill < 30 in
  let high := ss_severity skill = Some "high"%string in
  let many := (3 < ss_alert_count skill)%nat in
  (~ low -> ~ high -> ~ many -> suspicious_risk skill == 0.3)
  /\ (~ low -> ~ high -> many -> suspicious_risk skill == 0.6)
  /\ (low -> ~ high -> ~ many -> suspicious_risk skill == 0.7)
  /\ (~ low -> high -> ~ many -> suspicious_risk skill == 0.8)
  /\ (low /\ many \/ low /\ high \/ high /\ many -> suspicious_risk skill == 1).
Proof.
  cbv zeta. unfold suspicious_risk. cbv zeta.
  assert (Hsev : severity_is (ss_severity skill) "high" = true
                 <-> ss_severity skill = Some "high"%string).
  { unfold severity_is. destruct (ss_severity skill) as [x|].
    - rewrite String.eqb_eq. split; congruence.
    - split; discriminate. }
  assert (Hmin : forall x, 1 <= x -> Qmin x 1.0 == 1).
  { intros x Hx. rewrite Q.min_r; [reflexivity|lra]. }
  assert (Hmin' : forall x, x <= 1 -> Qmin x 1.0 == x).
  { intros x Hx. rewrite Q.min_l; [reflexivity|lra]. }
  destruct (severity_is (ss_severity skill) "high") eqn:E3.
  - assert (H3 : ss_severity skill = Some "high"%string) by now apply Hsev.
    destruct (JS.Qlt_bool (ss_security_score skill) 30) eqn:E1;
      [apply Qlt_bool_lt in E1|apply Qlt_bool_ge in E1];
      (destruct (3 <? ss_alert_count skill)%nat eqn:E2;
       [apply Nat.ltb_lt in E2|apply Nat.ltb_ge in E2]);
      repeat split; intros; try contradiction; try lia; try lra;
        try (rewrite Hmin by lra; reflexivity);
        try (rewrite Hmin' by lra; reflexivity);
        try (exfalso; intuition (try lia; try lra)).
  - assert (H3 : ss_severity skill <> Some "high"%string).
    { intro H. apply Hsev in H. discriminate. }
    destruct (JS.Qlt_bool (ss_security_score skill) 30) eqn:E1;
      [apply Qlt_bool_lt in E1|apply Qlt_bool_ge in E1];
      (destruct (3 <? ss_alert_count skill)%nat eqn:E2;
       [apply Nat.ltb_lt in E2|apply Nat.ltb_ge in E2]);
      repeat split; intros; try contradiction; try lia; try lra;
        try (rewrite Hmin by lra; reflexivity);
        try (rewrite Hmin' by lra; reflexivity);
        try (exfalso; intuition (try lia; try lra)).
Qed.

(** X16: every signal of the supply-chain detector has a risk between 0.3
    and 1, the one of an early update 0.5.  The risk of a suspicious skill
    exceeds 0.6 exactly when its security score is below 30 or the
    severity of its alerts is high: more than three alerts alone give
    exactly 0.6, and no finding at all 0.3; a low score alone gives 0.7, a
    high severity alone 0.8, and any two of the three findings give 1. *)
Theorem analyzeSupplyChainRisks_risk suspiciousSkills unusualUpdates :
  Forall (fun t => 0.3 <= risk_score t <= 1)
    (analyzeSupplyChainRisks suspiciousSkills unusualUpdates)
  /\ Forall
       (fun skill =>
          0.6 < risk_score (suspicious_skill skill)
          <-> ss_security_score skill < 30
              \/ ss_severity skill = Some "high"%string)
       suspiciousSkills
  /\ Forall
       (fun skill =>
          let low := ss_security_score skill < 30 in
          let high := ss_severity skill = Some "high"%string in
          let many := (3 < ss_alert_count skill)%nat in
          (~ low -> ~ high -> many ->
           risk_score (suspicious_skill skill) == 0.6)
          /\ (~ low -> ~ high -> ~ many ->
              risk_score (suspicious_skill skill) == 0.3)
          /\ (low -> ~ high -> ~ many ->
              risk_score (suspicious_skill skill) == 0.7)
          /\ (~ low -> high -> ~ many ->
              risk_score (suspicious_skill skill) == 0.8)
          /\ (low /\ many \/ low /\ high \/ high /\ many ->
              risk_score (suspicious_skill skill) == 1))
       suspiciousSkills
  /\ Forall (fun t => risk_score t == 0.5)
       (map unusual_update_pattern unusualUpdates).
Proof.
  split; [|split; [|split]].
  - unfold analyzeSupplyChainRisks. apply Forall_app. split.
    + apply Forall_forall. intros t Ht. apply in_map_iff in Ht.
      destruct Ht as [skill [<- _]]. apply suspicious_risk_cases.
    + apply Forall_forall. intros t Ht. apply in_map_iff in Ht.
      destruct Ht as [skill [<- _]]. cbn [unusual_update_pattern risk_score]. lra.
  - apply Forall_forall. intros skill _. apply suspicious_risk_cases.
  - apply Forall_forall. intros skill _. cbv zeta.
    cbn [suspicious_skill risk_score].
    destruct (suspicious_risk_values skill) as [V1 [V2 [V3 [V4 V5]]]].
    cbv zeta in V1, V2, V3, V4, V5. tauto.
  - apply Forall_forall. intros t Ht. apply in_map_iff in Ht.
    destruct Ht as [skill [<- _]]. reflexivity.
Qed.

Lemma group_push_nonempty (K V : Type) (eqb : K -> K -> bool) k (v : V) m :
  Forall (fun e => snd e <> []) m ->
  Forall (fun e => snd e <> []) (JS.group_push eqb k v m).
Proof.
  induction 1 as [|[k0 vs] m H0 Hm IH]; simpl.
  - repeat constructor. discriminate.
  - destruct (eqb k0 k); constructor; try assumption.
    simpl. intro E. now apply app_eq_nil in E.
Qed.

Lemma group_by_nonempty (K V A : Type) (eqb : K -> K -> bool)
    (key_of : A -> K) (val_of : A -> V) items : forall m0,
  Forall (fun e => snd e <> []) m0 ->
  Forall (fun e => snd e <> []) (JS.group_by eqb key_of val_of items m0).
Proof.
  unfold JS.group_by.
  induction items as [|x items IH]; intros m0 H; simpl; [exact H|].
  apply IH. now apply group_push_nonempty.
Qed.

Lemma nodup_nonempty (A : Type) (dec : forall x y : A, {x = y} + {x <> y}) l :
  l <> [] -> (1 <= length (nodup dec l))%nat.
Proof.
  intro H. destruct l as [|x l]; [now elim H|].
  assert (Hx : In x (nodup dec (x :: l))) by (apply nodup_In; now left).
  destruct (nodup dec (x :: l)); [destruct Hx|simpl; lia].
Qed.

Lemma coordinatedGroups_having now skills g :
  In g (coordinatedGroups now skills) ->
  (4 <= skills_count g)%nat /\ (1 <= active_days g <= 4)%nat.
Proof.
  unfold coordinatedGroups. intro H. apply sort_In, filter_In in H.
  destruct H as [H Hh]. apply andb_true_iff in Hh. destruct Hh as [H1 H2].
  apply Nat.ltb_lt in H1, H2. split; [lia|]. split; [|lia].
  apply in_map_iff in H. destruct H as [e [<- He]].
  assert (Hne := group_by_nonempty author_eqb r_author (fun s => s)
                   (filter (fun s => (now - days 30 <? r_created_at s)%Z) skills)
                   (Forall_nil _)).
  rewrite Forall_forall in Hne. specialize (Hne e He).
  cbn [coordinated_of active_days]. apply nodup_nonempty.
  intro E. apply map_eq_nil in E. contradiction.
Qed.


(** X17: every signal of the network detector has a risk between 0.6 and
    0.9: an author is reported for more than three skills on fewer than
    five days, which gives at least 0.4 + 4 * 0.1 - 4 * 0.05. *)
Theorem analyzeNetworkPatterns_risk now skills reputationAnomalies :
  Forall (fun t => 0.6 <= risk_score t <= 0.9)
    (analyzeNetworkPatterns now skills reputationAnomalies).
Proof.
  unfold analyzeNetworkPatterns. apply Forall_app. split.
  - apply Forall_forall. intros t Ht. apply in_map_iff in Ht.
    destruct Ht as [g [<- Hg]]. apply coordinatedGroups_having in Hg.
    destruct Hg as [Hs [Hd1 Hd4]].
    apply count_Q_nat_le in Hs, Hd1, Hd4.
    change (JS.count_Q 4) with 4 in *. change (JS.count_Q 1) with 1 in *.
    cbn [coordinated_behavior risk_score]. split.
    + apply Q.min_glb; lra.
    + apply Q.le_min_r.
  - apply Forall_forall. intros t Ht. apply in_map_iff in Ht.
    destruct Ht as [name [<- _]]. cbn [reputation_manipulation risk_score]. lra.
Qed.

(** *** Corroboration *)

Lemma highPriority_correlated threats t :
  In t threats ->
  In (correlated threats t) (highPriority (correlateThreats threats))
  <-> 0.6 < risk_score (correlated threats t).
Proof.
  intro Hin. unfold highPriority. rewrite filter_In, Qlt_bool_lt.
  rewrite correlateThreats_In. split; [tauto|]. intro H. split; [|exact H].
  now apply in_map.
Qed.

Lemma correlated_risk_score threats t :
  risk_score (correlated threats t)
  = if (1 <? signalCount threats (correlation_key t))%nat
    then Qmin (risk_score t
               * (1 + (JS.count_Q (signalCount threats (correlation_key t)) - 1) * 0.2))
           1.0
    else risk_score t.
Proof.
  unfold correlated. cbv zeta. now destruct (1 <? _)%nat.
Qed.

(** X18: a signal of risk 0.5, as the one of an early update, is passed
    to [storeThreats] exactly when the run holds at least three signals
    under its key; a signal of risk 0.6, as the one of manipulated
    reputation, exactly when it holds at least two. *)
Theorem corroborated_signals threats t :
  In t threats ->
  (risk_score t == 0.5 ->
   (In (correlated threats t) (highPriority (correlateThreats threats))
    <-> (3 <= signalCount threats (correlation_key t))%nat))
  /\ (risk_score t == 0.6 ->
      (In (correlated threats t) (highPriority (correlateThreats threats))
       <-> (2 <= signalCount threats (correlation_key t))%nat)).
Proof.
  intro Hin. rewrite (highPriority_correlated _ _ Hin), correlated_risk_score.
  assert (Hpos := signalCount_pos _ _ Hin).
  set (n := signalCount threats (correlation_key t)) in *.
  split; intro Hr.
  - destruct (Nat.ltb_spec 1 n) as [H|H].
    + rewrite Hr. split.
      * intro Hlt. apply Q.min_glb_lt_iff in Hlt. destruct Hlt as [Hlt _].
        assert (Hn : ~ (n <= 2)%nat); [|lia].
        intro Hle. apply count_Q_nat_le in Hle.
        change (JS.count_Q 2) with 2 in Hle. lra.
      * intro Hge. apply count_Q_nat_le in Hge.
        change (JS.count_Q 3) with 3 in Hge.
        apply Q.min_glb_lt; lra.
    + rewrite Hr. split; [lra|lia].
  - destruct (Nat.ltb_spec 1 n) as [H|H].
    + rewrite Hr. split; [lia|]. intros _.
      assert (Hge := count_Q_nat_le H). change (JS.count_Q 2) with 2 in Hge.
      apply Q.min_glb_lt; lra.
    + rewrite Hr. split; [lra|lia].
Qed.

Lemma corroborated_signals_witness :
  In (correlated [signal 42 0.5; signal 42 0.5; signal 42 0.5] (signal 42 0.5))
     (highPriority (correlateThreats [signal 42 0.5; signal 42 0.5; signal 42 0.5]))
  <-> (3 <= signalCount [signal 42 0.5; signal 42 0.5; signal 42 0.5]
              (correlation_key (signal 42 0.5)))%nat.
Proof.
  apply (@corroborated_signals [signal 42 0.5; signal 42 0.5; signal 42 0.5]
           (signal 42 0.5)).
  - simpl. left. reflexivity.
  - reflexivity.
Defined.

(** *** The risks that the detectors emit *)





End LandscapeFacts.

(** ** The network analyzer: reputation edges, influence and health *)

Module Metrics.
Import Network.
Open Scope Q_scope.

(** A node of the interaction graph with its reputation.  The activity
    level of a node does not enter the measures below and is left out. *)
Record agent_node := mkAgentNode {
  an_id : Z;
  an_name : string;
  reputation : Q
}.

Definition node_of (a : agent_node) : node := mkNode (an_id a) (an_name a).

(** *** [addReputationInteractionEdges] *)

Definition reputation_key (a b : Z) : edge_key :=
  (Z.min a b, Z.max a b, "reputation"%string).

Definition reputation_link (es : list edge) (agent1 agent2 : agent_node)
  : list edge :=
  let reputationDiff := Qabs (reputation agent1 - reputation agent2) in
  let maxReputation := Qmax (reputation agent1) (reputation agent2) in
  if JS.Qlt_bool 0 maxReputation
     && JS.Qlt_bool (reputationDiff / maxReputation) 0.3
  then
    let edgeId := reputation_key (an_id agent1) (an_id agent2) in
    if negb (edges_has es edgeId) then
      es ++ [ {| edge_id := edgeId;
                 source := an_id agent1; target := an_id agent2;
                 edge_type := "reputation_peer";
                 weight := 0.3 * (1 - reputationDiff / Qmax maxReputation 1);
                 overlapping_hours := [] |} ]
    else es
  else es.

(** The two nested loops over [i] and [j > i]. *)
Fixpoint addReputationInteractionEdges (nodeArray : list agent_node)
    (es : list edge) : list edge :=
  match nodeArray with
  | [] => es
  | agent1 :: rest =>
      addReputationInteractionEdges rest
        (fold_left (fun es agent2 => reputation_link es agent1 agent2) rest es)
  end.

(** *** [calculateInfluenceMetrics] *)

Definition calculateDegreeCentrality (nodeId : Z) (es : list edge) : nat :=
  length (filter (incident nodeId) es).

Definition calculateWeightedDegree (nodeId : Z) (es : list edge) : Q :=
  sum_weights (filter (incident nodeId) es).

Definition directConnection (es : list edge) (a b : Z) : bool :=
  existsb
    (fun e => ((source e =? a)%Z && (target e =? b)%Z)
              || ((source e =? b)%Z && (target e =? a)%Z))
    es.

(** The pairs [i < j] of neighbours without an edge between them. *)
Fixpoint betweennessPaths (es : list edge) (neighbors : list Z) : nat :=
  match neighbors with
  | [] => O
  | a :: rest =>
      (length (filter (fun b => negb (directConnection es a b)) rest)
       + betweennessPaths es rest)%nat
  end.

Definition estimateBetweenness (nodeId : Z) (es : list edge) : nat :=
  let neighbors :=
    map (fun e => if (source e =? nodeId)%Z then target e else source e)
      (filter (incident nodeId) es) in
  betweennessPaths es neighbors.

(** [node.reputation || 1] *)
Definition baseScore (n : agent_node) : Q :=
  if Qeq_bool (reputation n) 0 then 1 else reputation n.

Definition calculateInfluenceScore (n : agent_node) (es : list edge) : Q :=
  let incomingWeight :=
    sum_weights (filter (fun e => (target e =? an_id n)%Z) es) in
  baseScore n + incomingWeight * 0.1.

Definition assessNetworkPosition (nodeId : Z) (es : list edge) : string :=
  let connections := filter (incident nodeId) es in
  let connectionTypes := nodup string_dec (map edge_type connections) in
  if (3 <=? length connectionTypes)%nat then "bridge"
  else if (10 <? length connections)%nat then "hub"
  else if (5 <? length connections)%nat then "connector"
  else "peripheral".

Record node_metrics := mkMetrics {
  m_id : Z;
  m_name : string;
  degree_centrality : nat;
  weighted_degree : Q;
  betweenness_estimate : nat;
  influence_score : Q;
  network_position : string;
  combined_influence : Q
}.

Definition nodeMetrics (es : list edge) (n : agent_node) : node_metrics :=
  let degree := calculateDegreeCentrality (an_id n) es in
  let weighted := calculateWeightedDegree (an_id n) es in
  let betweenness := estimateBetweenness (an_id n) es in
  let influence := calculateInfluenceScore n es in
  {| m_id := an_id n;
     m_name := an_name n;
     degree_centrality := degree;
     weighted_degree := weighted;
     betweenness_estimate := betweenness;
     influence_score := influence;
     network_position := assessNetworkPosition (an_id n) es;
     combined_influence :=
       JS.count_Q degree * 0.2 + weighted * 0.3
       + JS.count_Q betweenness * 0.2 + influence * 0.3 |}.

(** [metrics.set(node.id, nodeMetrics)]: a key that is present keeps its
    place. *)
Fixpoint metrics_set (m : node_metrics) (ms : list node_metrics)
  : list node_metrics :=
  match ms with
  | [] => [m]
  | m' :: ms' =>
      if (m_id m' =? m_id m)%Z then m :: ms' else m' :: metrics_set m ms'
  end.

Definition calculateInfluenceMetrics (ns : list agent_node) (es : list edge)
  : list node_metrics :=
  JS.sort (fun a b => combined_influence b - combined_influence a)
    (fold_left (fun ms n => metrics_set (nodeMetrics es n) ms) ns []).

(** *** [assessNetworkHealth] *)

Definition sum_influence (ms : list node_metrics) : Q :=
  fold_left (fun sum agent => sum + combined_influence agent) ms 0.

(** [1 - influenceConcentration] *)
Definition decentralization_score (influenceMetrics : list node_metrics) : Q :=
  let influenceConcentration :=
    sum_influence (firstn 10 influenceMetrics) / sum_influence influenceMetrics in
  1 - influenceConcentration.

Definition calculateNetworkResilience (g : interactions) : Q :=
  if (length (nodes g) =? 0)%nat then 0
  else
    let avgConnectivity :=
      JS.count_Q (length (edges g)) / JS.count_Q (length (nodes g)) in
    Qmin (avgConnectivity / 10) 1.0.

(** [calculateGini], on values that are whole numbers, as the activity
    levels are counts.  The sums and products of the function are then
    whole numbers, which a JavaScript number holds exactly below 2^53; the
    quotient that it returns is the quotient of real numbers, which the
    division rounds to the nearest number.  The function sorts its
    argument in ascending order. *)
Fixpoint gini_loop (sortedValues : list Z) (i : Z) (n : Z) (gini : Z) : Z :=
  match sortedValues with
  | [] => gini
  | v :: rest => gini_loop rest (i + 1) n (gini + v * (2 * i - n + 1))
  end.

Definition sum_values (values : list Z) : Z :=
  fold_left (fun sum value => sum + value)%Z values 0%Z.

Definition calculateGini (values : list Z) : Q :=
  let n := length values in
  if (n =? 0)%nat then 0
  else
    let sortedValues := JS.sort (fun a b => inject_Z (a - b)) values in
    let sum := sum_values sortedValues in
    if (sum =? 0)%Z then 0
    else inject_Z (gini_loop sortedValues 0 (Z.of_nat n) 0)
         / inject_Z (Z.of_nat n * sum).

(** Three agents of reputation 10, 9 and 8. *)
Definition three_peers : list agent_node :=
  [ mkAgentNode 1 "a" 10; mkAgentNode 2 "b" 9; mkAgentNode 3 "c" 8 ].

(** A path of three nodes. *)
Definition path_graph : interactions :=
  {| nodes := map (fun i => mkNode i "agent") [1; 2; 3]%Z;
     edges := [link 1 2 0.5; link 2 3 0.2] |}.

(** Two nodes joined by an edge of weight 0.3. *)
Definition weak_graph : interactions :=
  {| nodes := map (fun i => mkNode i "agent") [1; 2]%Z;
     edges := [link 1 2 0.3] |}.

End Metrics.

(** ** Properties of the network measures *)

Module MetricsFacts.
Import Network NetworkFacts Metrics SortFacts.
Open Scope Q_scope.

(** *** Edges that the exploration does not follow *)

Lemma visit_neighbors_weak th visited nbs queue c :
  (forall nb, In nb nbs -> nb_weight nb <= th) ->
  visit_neighbors th visited nbs queue c = (queue, c).
Proof.
  unfold visit_neighbors. revert queue c.
  induction nbs as [|nb nbs IH]; intros queue c H; simpl; [reflexivity|].
  assert (E : JS.Qlt_bool th (nb_weight nb) = false).
  { apply not_true_is_false. intro E. apply Qlt_bool_iff in E.
    assert (Hw := H nb (or_introl eq_refl)). lra. }
  rewrite E, andb_false_r. apply IH. intros nb' Hnb. apply H. now right.
Qed.

Lemma explore_loop_weak adj th start visited fuel :
  (forall u nb, In nb (adj_get adj u) -> nb_weight nb <= th) ->
  (length (x_nodes (fst (explore_loop fuel adj th [start] visited
                           (mkExploration [] 0 0)))) <= 1)%nat.
Proof.
  intro H. destruct fuel as [|fuel]; simpl; [lia|].
  destruct (mem start visited).
  - destruct fuel; simpl; lia.
  - rewrite visit_neighbors_weak by apply H.
    destruct fuel; simpl; lia.
Qed.

Lemma detect_fold_weak adj es ns : forall st,
  (forall u nb, In nb (adj_get adj u) -> nb_weight nb <= default_threshold) ->
  snd (fold_left (detect_step adj es) ns st) = snd st.
Proof.
  induction ns as [|n ns IH]; intros st H; simpl; [reflexivity|].
  rewrite IH by exact H. unfold detect_step.
  destruct (mem (node_id n) (fst st)); [reflexivity|]. cbv zeta.
  assert (Hl := @explore_loop_weak adj default_threshold (node_id n) (fst st)
                  (explore_fuel adj [node_id n] (fst st)) H).
  fold (exploreWeightedCommunity (node_id n) adj (fst st) default_threshold) in Hl.
  destruct (Nat.ltb_spec 1
              (length (x_nodes (fst (exploreWeightedCommunity (node_id n) adj
                                       (fst st) default_threshold)))));
    [lia|reflexivity].
Qed.

(** X19: a graph without an edge heavier than 0.3 has no community: the
    exploration follows an edge only when its weight exceeds the
    threshold. *)
Theorem detectCommunityStructures_weak g :
  (forall e, In e (edges g) -> weight e <= 0.3) ->
  detectCommunityStructures g = [].
Proof.
  intro H. unfold detectCommunityStructures. cbv zeta.
  rewrite detect_fold_weak; [reflexivity|].
  intros u nb Hnb. apply build_adjList_sound in Hnb.
  destruct Hnb as [e [He [Hw _]]]. rewrite <- Hw. now apply H.
Qed.

Lemma detectCommunityStructures_weak_witness :
  detectCommunityStructures weak_graph = [].
Proof.
  apply (@detectCommunityStructures_weak weak_graph).
  intros e [<-|[]]. simpl. lra.
Defined.

(** *** [addReputationInteractionEdges] *)

Definition peer_edge (e : edge) : Prop :=
  edge_type e = "reputation_peer"%string /\ 0.21 <= weight e <= 0.3.

Lemma reputation_link_edges es a1 a2 e :
  In e (reputation_link es a1 a2) -> In e es \/ peer_edge e.
Proof.
  unfold reputation_link. cbv zeta.
  set (d := Qabs (reputation a1 - reputation a2)).
  set (m := Qmax (reputation a1) (reputation a2)).
  destruct (JS.Qlt_bool 0 m && JS.Qlt_bool (d / m) 0.3) eqn:E; [|now left].
  destruct (negb _); [|now left].
  intro H. apply in_app_or in H. destruct H as [H|[<-|[]]]; [now left|].
  right. split; [reflexivity|]. cbn [weight].
  apply andb_true_iff in E. destruct E as [E1 E2].
  apply Qlt_bool_iff in E1, E2.
  assert (Hd : 0 <= d) by apply Qabs_nonneg.
  assert (Hm : m <= Qmax m 1) by apply Q.le_max_l.
  assert (H1 : 1 <= Qmax m 1) by apply Q.le_max_r.
  assert (Hlt : d < 0.3 * m).
  { assert (Ed : d == d / m * m) by (field; lra).
    revert Ed E2. generalize (d / m). intros t Ed E2. nra. }
  assert (Hq : 0 <= d / Qmax m 1 < 0.3).
  { split.
    - apply Qle_shift_div_l; lra.
    - apply Qlt_shift_div_r; lra. }
  lra.
Qed.

Lemma reputation_inner_edges a1 rest : forall es e,
  In e (fold_left (fun es a2 => reputation_link es a1 a2) rest es) ->
  In e es \/ peer_edge e.
Proof.
  induction rest as [|a2 rest IH]; intros es e H; simpl in H; [now left|].
  apply IH in H. destruct H as [H|H]; [|now right].
  now apply reputation_link_edges in H.
Qed.

Lemma addReputationInteractionEdges_edges ns : forall es e,
  In e (addReputationInteractionEdges ns es) -> In e es \/ peer_edge e.
Proof.
  induction ns as [|a1 rest IH]; intros es e H; simpl in H; [now left|].
  apply IH in H. destruct H as [H|H]; [|now right].
  now apply reputation_inner_edges in H.
Qed.

(** X20: an edge that the reputation pass adds has a weight between 0.21
    and 0.3, so a graph that holds only such edges has no community: the
    exploration asks for more than 0.3. *)
Theorem reputation_peers_no_community ns :
  Forall (fun e => edge_type e = "reputation_peer"%string /\ 0.21 <= weight e <= 0.3)
    (addReputationInteractionEdges ns [])
  /\ detectCommunityStructures
       {| nodes := map node_of ns;
          edges := addReputationInteractionEdges ns [] |} = [].
Proof.
  assert (H : forall e, In e (addReputationInteractionEdges ns []) -> peer_edge e).
  { intros e He. apply addReputationInteractionEdges_edges in He.
    destruct He as [[]|He]. exact He. }
  split.
  - apply Forall_forall. exact H.
  - unfold detectCommunityStructures. cbv zeta.
    rewrite detect_fold_weak; [reflexivity|].
    intros u nb Hnb. apply build_adjList_sound in Hnb.
    destruct Hnb as [e [He [Hw _]]]. rewrite <- Hw.
    apply H in He. apply He.
Qed.

(** *** The nodes that an exploration visits *)

Lemma explore_loop_visited adj th fuel : forall queue visited c,
  exists added,
    x_nodes (fst (explore_loop fuel adj th queue visited c)) = x_nodes c ++ added
    /\ snd (explore_loop fuel adj th queue visited c) = rev added ++ visited
    /\ NoDup added
    /\ (forall v, In v added -> ~ In v visited).
Proof.
  induction fuel as [|fuel IH]; intros queue visited c.
  - exists []. simpl. rewrite app_nil_r. repeat split; [constructor|tauto].
  - destruct queue as [|n queue].
    + exists []. simpl. rewrite app_nil_r. repeat split; [constructor|tauto].
    + cbn [explore_loop]. destruct (mem n visited) eqn:Hn; [apply IH|]. cbv zeta.
      set (c1 := {| x_nodes := x_nodes c ++ [n];
                    x_total_weight := x_total_weight c;
                    x_edges := x_edges c |}).
      destruct (visit_neighbors_spec th (n :: visited) (adj_get adj n) queue c1)
        as [Hnodes _].
      destruct (IH (fst (visit_neighbors th (n :: visited) (adj_get adj n) queue c1))
                  (n :: visited)
                  (snd (visit_neighbors th (n :: visited) (adj_get adj n) queue c1)))
        as [added [H1 [H2 [H3 H4]]]].
      exists (n :: added). split; [|split; [|split]].
      * rewrite H1, Hnodes. unfold c1. cbn [x_nodes]. now rewrite <- app_assoc.
      * rewrite H2. cbn [rev]. now rewrite <- app_assoc.
      * constructor; [|exact H3]. intro H. apply (H4 n H). now left.
      * intros v [<-|Hv].
        -- intro H. apply mem_In in H. congruence.
        -- intro H. apply (H4 v Hv). now right.
Qed.

Definition members (cs : list community) : list Z := flat_map com_nodes cs.

Lemma detect_step_members adj es st n :
  NoDup (members (snd st)) ->
  (forall v, In v (members (snd st)) -> In v (fst st)) ->
  NoDup (members (snd (detect_step adj es st n)))
  /\ (forall v, In v (members (snd (detect_step adj es st n))) ->
                In v (fst (detect_step adj es st n))).
Proof.
  intros Hnd Hin. unfold detect_step.
  destruct (mem (node_id n) (fst st)); [now split|]. cbv zeta.
  unfold exploreWeightedCommunity.
  destruct (explore_loop_visited adj default_threshold
              (explore_fuel adj [node_id n] (fst st)) [node_id n] (fst st)
              (mkExploration [] 0 0)) as [added [H1 [H2 [H3 H4]]]].
  cbn [x_nodes app] in H1.
  set (r := explore_loop _ adj default_threshold [node_id n] (fst st) _) in *.
  destruct (1 <? length (x_nodes (fst r)))%nat; cbn [fst snd].
  - unfold members. rewrite flat_map_app. cbn [flat_map]. rewrite app_nil_r.
    unfold make_community, generateCommunityId. cbn [com_nodes snd].
    assert (Hp : Permutation added (default_sort (x_nodes (fst r)))).
    { rewrite H1. apply JS.sort_perm. }
    split.
    + apply NoDup_app; [exact Hnd|now apply (Permutation_NoDup Hp)|].
      intros v Hv Hv'. apply (Permutation_in _ (Permutation_sym Hp)) in Hv'.
      apply (H4 v Hv'). now apply Hin.
    + intros v Hv. rewrite H2. apply in_or_app.
      apply in_app_or in Hv. destruct Hv as [Hv|Hv]; [right; now apply Hin|].
      left. apply in_rev. rewrite rev_involutive.
      now apply (Permutation_in _ (Permutation_sym Hp)).
  - split; [exact Hnd|]. intros v Hv. rewrite H2. apply in_or_app. right.
    now apply Hin.
Qed.

Lemma detect_fold_members adj es ns : forall st,
  NoDup (members (snd st)) ->
  (forall v, In v (members (snd st)) -> In v (fst st)) ->
  NoDup (members (snd (fold_left (detect_step adj es) ns st))).
Proof.
  induction ns as [|n ns IH]; intros st H1 H2; simpl; [exact H1|].
  destruct (detect_step_members adj es st n H1 H2) as [H1' H2'].
  now apply IH.
Qed.

(** X21: no agent is a member of two communities, and no community lists
    an agent twice. *)
Theorem detectCommunityStructures_disjoint g :
  NoDup (flat_map com_nodes (detectCommunityStructures g)).
Proof.
  unfold detectCommunityStructures. cbv zeta.
  eapply Permutation_NoDup.
  - apply Permutation_flat_map, JS.sort_perm.
  - apply detect_fold_members; simpl; [constructor|tauto].
Qed.

(** *** The adjacency list holds every edge between two nodes *)

Lemma adj_has_set_empty k adj k' :
  adj_has adj k' = true -> adj_has (adj_set_empty k adj) k' = true.
Proof.
  unfold adj_has. induction adj as [|[k0 ns] adj IH]; simpl; [discriminate|].
  destruct (Z.eqb_spec k0 k) as [->|Hne]; simpl.
  - tauto.
  - destruct (k0 =? k')%Z; simpl; [reflexivity|exact IH].
Qed.

Lemma adj_has_set_empty_same k adj : adj_has (adj_set_empty k adj) k = true.
Proof.
  unfold adj_has. induction adj as [|[k0 ns] adj IH]; simpl.
  - now rewrite Z.eqb_refl.
  - destruct (Z.eqb_spec k0 k) as [->|Hne]; simpl.
    + now rewrite Z.eqb_refl.
    + now rewrite IH, orb_true_r.
Qed.

Lemma adj_has_nodes ns : forall adj n,
  In n ns \/ adj_has adj (node_id n) = true ->
  adj_has (fold_left (fun adj n => adj_set_empty (node_id n) adj) ns adj)
    (node_id n) = true.
Proof.
  induction ns as [|x ns IH]; intros adj n H; simpl.
  - destruct H as [[]|H]. exact H.
  - apply IH. destruct H as [[->|H]|H].
    + right. apply adj_has_set_empty_same.
    + now left.
    + right. now apply adj_has_set_empty.
Qed.

Lemma adj_has_push k x adj k' : adj_has (adj_push k x adj) k' = adj_has adj k'.
Proof.
  unfold adj_has. induction adj as [|[k0 ns] adj IH]; simpl; [reflexivity|].
  destruct (k0 =? k)%Z; simpl; [reflexivity|]. now rewrite IH.
Qed.

Lemma adj_has_add_edge adj e k : adj_has (add_edge adj e) k = adj_has adj k.
Proof.
  unfold add_edge. destruct (_ && _); [|reflexivity].
  now rewrite !adj_has_push.
Qed.

Lemma adj_get_push_mono k x adj u nb :
  In nb (adj_get adj u) -> In nb (adj_get (adj_push k x adj) u).
Proof.
  unfold adj_get. induction adj as [|[k0 ns] adj IH]; simpl; [tauto|].
  destruct (Z.eqb_spec k0 k) as [->|Hne]; simpl.
  - destruct (k =? u)%Z; [|tauto]. intro H. apply in_or_app. now left.
  - destruct (k0 =? u)%Z; [tauto|exact IH].
Qed.

Lemma adj_get_push_same k x adj :
  adj_has adj k = true -> In x (adj_get (adj_push k x adj) k).
Proof.
  unfold adj_has, adj_get. induction adj as [|[k0 ns] adj IH]; simpl; [discriminate|].
  destruct (Z.eqb_spec k0 k) as [->|Hne]; simpl.
  - rewrite Z.eqb_refl. intros _. apply in_or_app. right. now left.
  - apply Z.eqb_neq in Hne. rewrite Hne. exact IH.
Qed.

Lemma add_edge_mono adj e u nb :
  In nb (adj_get adj u) -> In nb (adj_get (add_edge adj e) u).
Proof.
  intro H. unfold add_edge. destruct (_ && _); [|exact H].
  now apply adj_get_push_mono, adj_get_push_mono.
Qed.

Lemma fold_add_edge_mono es : forall adj u nb,
  In nb (adj_get adj u) -> In nb (adj_get (fold_left add_edge es adj) u).
Proof.
  induction es as [|e es IH]; intros adj u nb H; simpl; [exact H|].
  now apply IH, add_edge_mono.
Qed.

Lemma fold_add_edge_complete es : forall adj e,
  In e es ->
  adj_has adj (source e) = true -> adj_has adj (target e) = true ->
  In (mkNeighbor (target e) (weight e)) (adj_get (fold_left add_edge es adj) (source e))
  /\ In (mkNeighbor (source e) (weight e)) (adj_get (fold_left add_edge es adj) (target e)).
Proof.
  induction es as [|x es IH]; intros adj e Hin Hs Ht; [destruct Hin|].
  simpl. destruct Hin as [->|Hin].
  - split; apply fold_add_edge_mono; unfold add_edge; rewrite Hs, Ht; simpl.
    + apply adj_get_push_mono, adj_get_push_same, Hs.
    + apply adj_get_push_same. now rewrite adj_has_push.
  - apply IH; [exact Hin| |]; now rewrite adj_has_add_edge.
Qed.

Lemma build_adjList_complete g e :
  In e (edges g) ->
  In (source e) (map node_id (nodes g)) ->
  In (target e) (map node_id (nodes g)) ->
  In (mkNeighbor (target e) (weight e)) (adj_get (build_adjList g) (source e))
  /\ In (mkNeighbor (source e) (weight e)) (adj_get (build_adjList g) (target e)).
Proof.
  intros He Hs Ht. unfold build_adjList.
  apply in_map_iff in Hs. destruct Hs as [n1 [E1 H1]].
  apply in_map_iff in Ht. destruct Ht as [n2 [E2 H2]].
  apply fold_add_edge_complete; [exact He| |].
  - rewrite <- E1. apply adj_has_nodes. now left.
  - rewrite <- E2. apply adj_has_nodes. now left.
Qed.

(** *** The exploration is closed under the edges it follows *)

Lemma visit_neighbors_pushes th visited nbs : forall queue c,
  (forall q, In q queue -> In q (fst (visit_neighbors th visited nbs queue c)))
  /\ (forall nb, In nb nbs -> th < nb_weight nb ->
        In (nodeId nb) visited
        \/ In (nodeId nb) (fst (visit_neighbors th visited nbs queue c))).
Proof.
  unfold visit_neighbors.
  induction nbs as [|nb nbs IH]; intros queue c; simpl; [tauto|].
  destruct (negb (mem (nodeId nb) visited) && JS.Qlt_bool th (nb_weight nb)) eqn:E;
    simpl.
  - destruct (IH (queue ++ [nodeId nb])%list
                {| x_nodes := x_nodes c;
                   x_total_weight := x_total_weight c + nb_weight nb;
                   x_edges := S (x_edges c) |}) as [H1 H2].
    split.
    + intros q Hq. apply H1, in_or_app. now left.
    + intros nb' [<-|Hnb] Hw; [|now apply H2].
      right. apply H1, in_or_app. right. now left.
  - destruct (IH queue c) as [H1 H2]. split; [exact H1|].
    intros nb' [<-|Hnb] Hw; [|now apply H2].
    left. apply Qlt_bool_iff in Hw. rewrite Hw, andb_true_r in E.
    apply negb_false_iff in E. now apply mem_In.
Qed.

Lemma explore_loop_closed adj th fuel : forall queue visited c,
  (explore_fuel adj queue visited <= fuel)%nat ->
  (forall q, In q queue -> In q (snd (explore_loop fuel adj th queue visited c)))
  /\ (forall v, In v visited -> In v (snd (explore_loop fuel adj th queue visited c)))
  /\ (forall n, In n (snd (explore_loop fuel adj th queue visited c)) ->
        ~ In n visited ->
        forall nb, In nb (adj_get adj n) -> th < nb_weight nb ->
                   In (nodeId nb) (snd (explore_loop fuel adj th queue visited c))).
Proof.
  induction fuel as [|fuel IH]; intros queue visited c Hf.
  - unfold explore_fuel in Hf. destruct queue; [|simpl in Hf; lia].
    simpl. split; [tauto|]. split; [tauto|]. intros n H H'. contradiction.
  - destruct queue as [|n queue].
    { simpl. split; [tauto|]. split; [tauto|]. intros n H H'. contradiction. }
    cbn [explore_loop]. unfold explore_fuel in Hf. simpl in Hf.
    destruct (mem n visited) eqn:Hn.
    + destruct (IH queue visited c) as [H1 [H2 H3]];
        [unfold explore_fuel; lia|].
      split; [|split; [exact H2|exact H3]].
      intros q [<-|Hq]; [|now apply H1]. apply H2. now apply mem_In.
    + cbv zeta.
      set (c1 := {| x_nodes := x_nodes c ++ [n];
                    x_total_weight := x_total_weight c;
                    x_edges := x_edges c |}).
      assert (Hq := visit_neighbors_length th (n :: visited) (adj_get adj n) queue c1).
      assert (Hw := unvisited_work_visit adj n visited Hn).
      destruct (visit_neighbors_pushes th (n :: visited) (adj_get adj n) queue c1)
        as [Hkeep Hpush].
      destruct (IH (fst (visit_neighbors th (n :: visited) (adj_get adj n) queue c1))
                  (n :: visited)
                  (snd (visit_neighbors th (n :: visited) (adj_get adj n) queue c1)))
        as [H1 [H2 H3]]; [unfold explore_fuel; lia|].
      split; [|split].
      * intros q [<-|Hq']; [apply H2; now left|]. now apply H1, Hkeep.
      * intros v Hv. apply H2. now right.
      * intros m Hm Hnew nb Hnb Hwt.
        destruct (Z.eq_dec m n) as [->|Hne].
        -- destruct (Hpush nb Hnb Hwt) as [H|H]; [now apply H2|now apply H1].
        -- apply (H3 m Hm); [|exact Hnb|exact Hwt].
           intros [E|H]; [congruence|contradiction].
Qed.

Lemma two_members (l : list Z) u v :
  In u l -> In v l -> u <> v -> (1 < length l)%nat.
Proof.
  intros Hu Hv Hne. destruct l as [|x [|y l]]; [destruct Hu| |simpl; lia].
  destruct Hu as [<-|[]], Hv as [<-|[]]. congruence.
Qed.

Section Joined.
Variable adj : adjacency.
Variable es : list edge.
Variables u v : Z.
Hypothesis Huv : u <> v.
Hypothesis Hu : exists nb, In nb (adj_get adj u) /\ nodeId nb = v
                           /\ default_threshold < nb_weight nb.
Hypothesis Hv : exists nb, In nb (adj_get adj v) /\ nodeId nb = u
                           /\ default_threshold < nb_weight nb.

(** Both ends are unvisited, or one community holds both. *)
Definition together (st : list Z * list community) : Prop :=
  (~ In u (fst st) /\ ~ In v (fst st))
  \/ exists c, In c (snd st) /\ In u (com_nodes c) /\ In v (com_nodes c).

Lemma detect_step_together st n :
  together st -> together (detect_step adj es st n).
Proof.
  intro H. unfold detect_step.
  destruct (mem (node_id n) (fst st)); [exact H|]. cbv zeta.
  unfold exploreWeightedCommunity.
  destruct (explore_loop_visited adj default_threshold
              (explore_fuel adj [node_id n] (fst st)) [node_id n] (fst st)
              (mkExploration [] 0 0)) as [added [H1 [H2 [H3 H4]]]].
  destruct (explore_loop_closed adj default_threshold [node_id n] (fst st)
              (mkExploration [] 0 0) (Nat.le_refl _)) as [_ [_ Hc]].
  cbn [x_nodes app] in H1.
  set (r := explore_loop _ adj default_threshold [node_id n] (fst st) _) in *.
  destruct H as [[Hnu Hnv]|[c [Hc1 Hc2]]].
  - assert (Hboth : In u (snd r) \/ In v (snd r) -> In u added /\ In v added).
    { assert (Hadd : forall x, In x (snd r) -> ~ In x (fst st) -> In x added).
      { intros x Hx Hnx. rewrite H2 in Hx. apply in_app_or in Hx.
        destruct Hx as [Hx|Hx]; [|contradiction]. now apply in_rev. }
      intros [Hin|Hin].
      - split; [now apply Hadd|]. apply Hadd; [|exact Hnv].
        destruct Hu as [nb [Hnb [<- Hw]]]. now apply (Hc u Hin Hnu).
      - split; [|now apply Hadd]. apply Hadd; [|exact Hnu].
        destruct Hv as [nb [Hnb [<- Hw]]]. now apply (Hc v Hin Hnv). }
    destruct (in_dec Z.eq_dec u (snd r)) as [Hin|Hnin];
      [|destruct (in_dec Z.eq_dec v (snd r)) as [Hin|Hnin']].
    + destruct (Hboth (or_introl Hin)) as [Ha Hb].
      assert (Hlen := two_members _ Ha Hb Huv). rewrite <- H1 in Hlen.
      apply Nat.ltb_lt in Hlen. rewrite Hlen. right.
      exists (make_community es (fst r)). cbn [snd]. split.
      * apply in_or_app. right. now left.
      * unfold make_community, generateCommunityId. cbn [com_nodes snd].
        rewrite H1. split; apply sort_In; assumption.
    + destruct (Hboth (or_intror Hin)) as [Ha Hb].
      assert (Hlen := two_members _ Ha Hb Huv). rewrite <- H1 in Hlen.
      apply Nat.ltb_lt in Hlen. rewrite Hlen. right.
      exists (make_community es (fst r)). cbn [snd]. split.
      * apply in_or_app. right. now left.
      * unfold make_community, generateCommunityId. cbn [com_nodes snd].
        rewrite H1. split; apply sort_In; assumption.
    + left. destruct (1 <? length (x_nodes (fst r)))%nat; cbn [fst]; now split.
  - right. exists c.
    destruct (1 <? length (x_nodes (fst r)))%nat; cbn [snd]; [|tauto].
    split; [apply in_or_app; now left|exact Hc2].
Qed.

Lemma detect_step_visits st n :
  In (node_id n) (fst (detect_step adj es st n))
  /\ (forall x, In x (fst st) -> In x (fst (detect_step adj es st n))).
Proof.
  unfold detect_step.
  destruct (mem (node_id n) (fst st)) eqn:Hn.
  - split; [now apply mem_In|tauto].
  - cbv zeta. unfold exploreWeightedCommunity.
    destruct (explore_loop_closed adj default_threshold [node_id n] (fst st)
                (mkExploration [] 0 0) (Nat.le_refl _)) as [Hq [Hkeep _]].
    destruct (1 <? _)%nat; cbn [fst]; (split; [apply Hq; now left|exact Hkeep]).
Qed.

Lemma detect_fold_together ns : forall st,
  together st ->
  together (fold_left (detect_step adj es) ns st)
  /\ (forall n, In n ns \/ In (node_id n) (fst st) ->
                In (node_id n) (fst (fold_left (detect_step adj es) ns st))).
Proof.
  induction ns as [|x ns IH]; intros st H; simpl.
  - split; [exact H|]. intros n [[]|Hn]. exact Hn.
  - destruct (IH _ (detect_step_together x H)) as [I1 I2].
    split; [exact I1|]. intros n Hn. apply I2.
    destruct (detect_step_visits st x) as [V1 V2].
    destruct Hn as [[->|Hn]|Hn]; [now right|now left|right; now apply V2].
Qed.
End Joined.

(** The fill follows every edge heavier than the threshold. *)
Lemma strong_edge_joined g e :
  In e (edges g) -> 0.3 < weight e -> source e <> target e ->
  In (source e) (map node_id (nodes g)) ->
  In (target e) (map node_id (nodes g)) ->
  exists c, In c (detectCommunityStructures g)
            /\ In (source e) (com_nodes c) /\ In (target e) (com_nodes c).
Proof.
  intros He Hw Hne Hs Ht.
  destruct (build_adjList_complete g e He Hs Ht) as [A1 A2].
  assert (Hu : exists nb, In nb (adj_get (build_adjList g) (source e))
                          /\ nodeId nb = target e
                          /\ default_threshold < nb_weight nb).
  { eexists. split; [exact A1|]. split; [reflexivity|exact Hw]. }
  assert (Hv : exists nb, In nb (adj_get (build_adjList g) (target e))
                          /\ nodeId nb = source e
                          /\ default_threshold < nb_weight nb).
  { eexists. split; [exact A2|]. split; [reflexivity|exact Hw]. }
  destruct (@detect_fold_together (build_adjList g) (edges g) (source e) (target e)
              Hne Hu Hv (nodes g) ([], [])) as [T V].
  { left. simpl. tauto. }
  apply in_map_iff in Hs. destruct Hs as [n [En Hn]].
  assert (Hvis := V n (or_introl Hn)). rewrite En in Hvis.
  destruct T as [[Hnu _]|[c [Hc Hm]]]; [contradiction|].
  exists c. split; [|exact Hm].
  unfold detectCommunityStructures. cbv zeta. now apply sort_In.
Qed.

(** X22: two agents of the graph that are joined by an edge heavier than
    0.3 are members of one community. *)
Theorem detectCommunityStructures_joins g e :
  In e (edges g) -> 0.3 < weight e -> source e <> target e ->
  In (source e) (map node_id (nodes g)) ->
  In (target e) (map node_id (nodes g)) ->
  exists c, In c (detectCommunityStructures g)
            /\ In (source e) (com_nodes c) /\ In (target e) (com_nodes c).
Proof.
  intros He Hw Hne Hs Ht.
  destruct (build_adjList_complete g e He Hs Ht) as [A1 A2].
  assert (Hu : exists nb, In nb (adj_get (build_adjList g) (source e))
                          /\ nodeId nb = target e
                          /\ default_threshold < nb_weight nb).
  { eexists. split; [exact A1|]. split; [reflexivity|exact Hw]. }
  assert (Hv : exists nb, In nb (adj_get (build_adjList g) (target e))
                          /\ nodeId nb = source e
                          /\ default_threshold < nb_weight nb).
  { eexists. split; [exact A2|]. split; [reflexivity|exact Hw]. }
  destruct (@detect_fold_together (build_adjList g) (edges g) (source e) (target e)
              Hne Hu Hv (nodes g) ([], [])) as [T V].
  { left. simpl. tauto. }
  apply in_map_iff in Hs. destruct Hs as [n [En Hn]].
  assert (Hvis := V n (or_introl Hn)). rewrite En in Hvis.
  destruct T as [[Hnu _]|[c [Hc Hm]]]; [contradiction|].
  exists c. split; [|exact Hm].
  unfold detectCommunityStructures. cbv zeta. now apply sort_In.
Qed.

Lemma detectCommunityStructures_joins_witness :
  exists c, In c (detectCommunityStructures five_node_graph)
            /\ In 1%Z (com_nodes c) /\ In 2%Z (com_nodes c).
Proof.
  apply (@detectCommunityStructures_joins five_node_graph (link 1 2 0.5)).
  - simpl. left. reflexivity.
  - simpl. lra.
  - discriminate.
  - simpl. left. reflexivity.
  - simpl. right. left. reflexivity.
Defined.

(** C7: community detection is a flood fill along the edges of weight
    strictly above 0.3.  Every community that
    [detectCommunityStructures] returns has two or more members, all
    reached from one start node along edges heavier than 0.3 between
    members; the fill follows every such edge, so two different nodes
    that an edge heavier than 0.3 joins are members of one returned
    community, which a community of two nodes is as well; no node is a
    member of two communities.  On the five-node graph ({1,2,3} pairwise
    at 0.5, 4-5 at 0.1) the result is the single community {1,2,3}, and
    no community holds node 4 or node 5. *)
Theorem detectCommunityStructures_flood_fill :
  (forall g c, In c (detectCommunityStructures g) -> flooded g c)
  /\ (forall g e,
        In e (edges g) -> 0.3 < weight e -> source e <> target e ->
        In (source e) (map node_id (nodes g)) ->
        In (target e) (map node_id (nodes g)) ->
        exists c, In c (detectCommunityStructures g)
                  /\ In (source e) (com_nodes c) /\ In (target e) (com_nodes c))
  /\ (forall g, NoDup (flat_map com_nodes (detectCommunityStructures g)))
  /\ map com_nodes
       (detectCommunityStructures
          {| nodes := [mkNode 8 "agent"; mkNode 9 "agent"];
             edges := [link 8 9 0.31] |}) = [[8; 9]%Z]
  /\ detectCommunityStructures
       {| nodes := [mkNode 8 "agent"; mkNode 9 "agent"];
          edges := [link 8 9 0.3] |} = []
  /\ map com_nodes (detectCommunityStructures five_node_graph) = [[1; 2; 3]%Z]
  /\ (forall c, In c (detectCommunityStructures five_node_graph) ->
                ~ In 4%Z (com_nodes c) /\ ~ In 5%Z (com_nodes c)).
Proof.
  split; [|split; [|split; [|split; [|split; [|split]]]]].
  - intros g c Hc. unfold detectCommunityStructures in Hc. cbv zeta in Hc.
    apply (Permutation_in _ (Permutation_sym (JS.sort_perm _ _))) in Hc.
    assert (H := @detect_fold_flooded g (nodes g) ([], []) (incl_refl _)
                   (Forall_nil _)).
    rewrite Forall_forall in H. now apply H.
  - intros g e. apply strong_edge_joined.
  - intro g. unfold detectCommunityStructures. cbv zeta.
    eapply Permutation_NoDup.
    + apply Permutation_flat_map, JS.sort_perm.
    + apply detect_fold_members; simpl; [constructor|tauto].
  - vm_compute. reflexivity.
  - vm_compute. reflexivity.
  - vm_compute. reflexivity.
  - intros c Hc.
    assert (Hm : In (com_nodes c)
                   (map com_nodes (detectCommunityStructures five_node_graph)))
      by (apply in_map; exact Hc).
    assert (E : map com_nodes (detectCommunityStructures five_node_graph)
                = [[1; 2; 3]%Z]) by (vm_compute; reflexivity).
    rewrite E in Hm.
    destruct Hm as [<-|[]]. split; intros [H|[H|[H|[]]]]; discriminate.
Qed.

(** *** Degrees *)

Definition touched (e : edge) (ids : list Z) : nat :=
  list_sum (map (fun i => if incident i e then 1%nat else O) ids).

Lemma touched_cons e i ids :
  touched e (i :: ids) = ((if incident i e then 1 else 0) + touched e ids)%nat.
Proof. reflexivity. Qed.

Lemma touched_count e ids :
  source e <> target e ->
  touched e ids
  = (count_occ Z.eq_dec ids (source e) + count_occ Z.eq_dec ids (target e))%nat.
Proof.
  intro Hne. induction ids as [|i ids IH]; [reflexivity|].
  rewrite touched_cons, IH. cbn [count_occ]. unfold incident.
  destruct (Z.eq_dec i (source e)) as [E1|E1], (Z.eq_dec i (target e)) as [E2|E2];
    try congruence.
  - rewrite E1, Z.eqb_refl. simpl. lia.
  - rewrite E2, Z.eqb_refl, orb_true_r. lia.
  - assert (H1 : (source e =? i)%Z = false) by (apply Z.eqb_neq; congruence).
    assert (H2 : (target e =? i)%Z = false) by (apply Z.eqb_neq; congruence).
    rewrite H1, H2. simpl. lia.
Qed.

Lemma touched_two e ids :
  NoDup ids -> In (source e) ids -> In (target e) ids ->
  source e <> target e -> touched e ids = 2%nat.
Proof.
  intros Hnd Hs Ht Hne. rewrite touched_count by exact Hne.
  rewrite (NoDup_count_occ' Z.eq_dec) in Hnd.
  now rewrite (Hnd _ Hs), (Hnd _ Ht).
Qed.

Lemma degree_sum_cons e es ids :
  list_sum (map (fun i => calculateDegreeCentrality i (e :: es)) ids)
  = (touched e ids + list_sum (map (fun i => calculateDegreeCentrality i es) ids))%nat.
Proof.
  induction ids as [|i ids IH]; [reflexivity|].
  rewrite touched_cons. cbn [map].
  change (list_sum (calculateDegreeCentrality i (e :: es)
                    :: map (fun i => calculateDegreeCentrality i (e :: es)) ids))
    with (calculateDegreeCentrality i (e :: es)
          + list_sum (map (fun i => calculateDegreeCentrality i (e :: es)) ids))%nat.
  change (list_sum (calculateDegreeCentrality i es
                    :: map (fun i => calculateDegreeCentrality i es) ids))
    with (calculateDegreeCentrality i es
          + list_sum (map (fun i => calculateDegreeCentrality i es) ids))%nat.
  rewrite IH. unfold calculateDegreeCentrality. cbn [filter].
  destruct (incident i e); simpl; lia.
Qed.

(** X23: in a graph whose nodes have distinct ids and whose edges join two
    different nodes, the degree centralities of the nodes add up to twice
    the number of edges. *)
Theorem degree_centrality_sum g :
  NoDup (map node_id (nodes g)) ->
  Forall (fun e => source e <> target e
                   /\ In (source e) (map node_id (nodes g))
                   /\ In (target e) (map node_id (nodes g))) (edges g) ->
  list_sum (map (fun n => calculateDegreeCentrality (node_id n) (edges g)) (nodes g))
  = (2 * length (edges g))%nat.
Proof.
  intros Hnd He.
  rewrite <- (map_map node_id (fun i => calculateDegreeCentrality i (edges g))).
  induction He as [|e es [H1 [H2 H3]] _ IH].
  - clear Hnd. simpl. induction (map node_id (nodes g)); simpl; auto.
  - rewrite degree_sum_cons, IH, touched_two by assumption. simpl. lia.
Qed.

Lemma degree_centrality_sum_witness :
  list_sum (map (fun n => calculateDegreeCentrality (node_id n) (edges path_graph))
              (nodes path_graph))
  = (2 * length (edges path_graph))%nat.
Proof.
  apply (@degree_centrality_sum path_graph).
  - repeat constructor; simpl; intuition discriminate.
  - repeat constructor; simpl; auto; discriminate.
Defined.

(** *** The ranking *)

Lemma metrics_set_ids m ms :
  map m_id (metrics_set m ms)
  = if existsb (fun m' => (m_id m' =? m_id m)%Z) ms
    then map m_id ms else map m_id ms ++ [m_id m].
Proof.
  induction ms as [|m' ms IH]; simpl; [reflexivity|].
  destruct (Z.eqb_spec (m_id m') (m_id m)) as [E|Hne]; simpl.
  - now rewrite E.
  - rewrite IH. now destruct (existsb _ ms).
Qed.

Lemma metrics_set_In m ms x :
  In x (metrics_set m ms) -> x = m \/ In x ms.
Proof.
  induction ms as [|m' ms IH]; simpl; [intros [<-|[]]; now left|].
  destruct (m_id m' =? m_id m)%Z; simpl.
  - intros [<-|H]; [now left|right; now right].
  - intros [H|H]; [right; now left|]. apply IH in H. tauto.
Qed.

Lemma metrics_fold es ns : forall ms,
  NoDup (map m_id ms) ->
  let r := fold_left (fun ms n => metrics_set (nodeMetrics es n) ms) ns ms in
  NoDup (map m_id r)
  /\ (forall i, In i (map m_id r) <-> In i (map m_id ms) \/ In i (map an_id ns))
  /\ (forall m, In m r -> In m ms \/ exists n, In n ns /\ m = nodeMetrics es n).
Proof.
  induction ns as [|n ns IH]; intros ms Hnd; cbn [fold_left].
  - cbv zeta. split; [exact Hnd|].
    split; [intro i; simpl; tauto|intros m Hm; now left].
  - assert (Hids := metrics_set_ids (nodeMetrics es n) ms).
    assert (Hnd' : NoDup (map m_id (metrics_set (nodeMetrics es n) ms))).
    { rewrite Hids. destruct (existsb _ ms) eqn:E; [exact Hnd|].
      apply NoDup_app; [exact Hnd|repeat constructor; intros []|].
      intros i Hi [<-|[]]. apply in_map_iff in Hi. destruct Hi as [m' [E' Hm']].
      assert (existsb (fun m' => (m_id m' =? m_id (nodeMetrics es n))%Z) ms = true);
        [|congruence].
      apply existsb_exists. exists m'. split; [exact Hm'|now apply Z.eqb_eq]. }
    destruct (IH _ Hnd') as [I1 [I2 I3]]. cbv zeta.
    split; [exact I1|]. split.
    + intro i. rewrite I2, Hids. cbn [map].
      destruct (existsb _ ms) eqn:E.
      * apply existsb_exists in E. destruct E as [m' [Hm' E]].
        apply Z.eqb_eq in E. cbn [nodeMetrics m_id] in E.
        split; [intros [H|H]; [now left|right; now right]|].
        intros [H|[<-|H]]; [now left| |now right].
        left. rewrite <- E. now apply in_map.
      * rewrite in_app_iff. cbn [nodeMetrics m_id In]. tauto.
    + intros m Hm. apply I3 in Hm. destruct Hm as [Hm|[n' [Hn' ->]]].
      * apply metrics_set_In in Hm. destruct Hm as [->|Hm]; [|now left].
        right. exists n. split; [now left|reflexivity].
      * right. exists n'. split; [now right|reflexivity].
Qed.

(** X24: the ranking of [calculateInfluenceMetrics] is in descending
    order of the combined influence and holds one entry for every id of
    the graph; every entry holds the measures of a node of the graph. *)
Theorem calculateInfluenceMetrics_ranking ns es :
  StronglySorted (fun a b => combined_influence b <= combined_influence a)
    (calculateInfluenceMetrics ns es)
  /\ NoDup (map m_id (calculateInfluenceMetrics ns es))
  /\ (forall i, In i (map m_id (calculateInfluenceMetrics ns es))
                <-> In i (map an_id ns))
  /\ (forall m, In m (calculateInfluenceMetrics ns es) ->
                exists n, In n ns /\ m = nodeMetrics es n).
Proof.
  unfold calculateInfluenceMetrics.
  destruct (@metrics_fold es ns [] (NoDup_nil _)) as [H1 [H2 H3]].
  cbv zeta in H1, H2, H3.
  set (r := fold_left (fun ms n => metrics_set (nodeMetrics es n) ms) ns []) in *.
  assert (Hp := JS.sort_perm (fun a b => combined_influence b - combined_influence a) r).
  split; [apply sort_descending|]. split; [|split].
  - apply (Permutation_NoDup (Permutation_map m_id Hp) H1).
  - intro i. transitivity (In i (map m_id r)).
    + split; apply Permutation_in; [symmetry|]; now apply Permutation_map.
    + rewrite H2. simpl. tauto.
  - intros m Hm. apply sort_In in Hm. apply H3 in Hm.
    destruct Hm as [[]|Hm]. exact Hm.
Qed.

(** X25: the betweenness estimate of a node counts pairs of its
    connections, so twice the estimate is at most d (d - 1) for a node of
    degree centrality d. *)
Theorem estimateBetweenness_bound nodeId es :
  (2 * estimateBetweenness nodeId es
   <= calculateDegreeCentrality nodeId es
      * (calculateDegreeCentrality nodeId es - 1))%nat.
Proof.
  unfold estimateBetweenness, calculateDegreeCentrality. cbv zeta.
  rewrite <- (length_map (fun e => if (source e =? nodeId)%Z then target e else source e)
                (filter (incident nodeId) es)).
  generalize (map (fun e => if (source e =? nodeId)%Z then target e else source e)
                (filter (incident nodeId) es)) as l.
  induction l as [|a rest IH]; cbn [betweennessPaths length]; [lia|].
  assert (H := filter_length_le (fun b => negb (directConnection es a b)) rest).
  destruct (length rest); simpl in *; nia.
Qed.

(** *** [calculateGini] *)

Fixpoint weighted (l : list Z) (a : Z) : Z :=
  match l with
  | [] => 0
  | v :: r => v * a + weighted r (a + 2)
  end.

Fixpoint zsum (l : list Z) : Z :=
  match l with
  | [] => 0
  | v :: r => v + zsum r
  end.

(** The sum of the differences [l[j] - l[i]] over the pairs [i < j]. *)
Fixpoint gaps (l : list Z) : Z :=
  match l with
  | [] => 0
  | v :: r => (zsum r - Z.of_nat (length r) * v) + gaps r
  end.

Lemma gini_loop_weighted l : forall i n g,
  gini_loop l i n g = (g + weighted l (2 * i - n + 1))%Z.
Proof.
  induction l as [|v r IH]; intros i n g; cbn [gini_loop weighted]; [lia|].
  rewrite IH. replace (2 * (i + 1) - n + 1)%Z with (2 * i - n + 1 + 2)%Z by lia.
  lia.
Qed.

Lemma weighted_shift l : forall a t,
  weighted l (a + t) = (weighted l a + t * zsum l)%Z.
Proof.
  induction l as [|v r IH]; intros a t; cbn [weighted zsum]; [lia|].
  replace (a + t + 2)%Z with (a + 2 + t)%Z by lia.
  rewrite IH. lia.
Qed.

Lemma weighted_gaps l : weighted l (1 - Z.of_nat (length l)) = gaps l.
Proof.
  induction l as [|v r IH]; [reflexivity|].
  cbn [weighted gaps length].
  replace (1 - Z.of_nat (S (length r)) + 2)%Z
    with (1 - Z.of_nat (length r) + 1)%Z by lia.
  rewrite weighted_shift, IH. lia.
Qed.

Lemma zsum_ge v r :
  Forall (Z.le v) r -> (Z.of_nat (length r) * v <= zsum r)%Z.
Proof.
  induction 1 as [|x r Hx _ IH]; cbn [zsum length]; lia.
Qed.

Lemma gaps_nonneg l : StronglySorted Z.le l -> (0 <= gaps l)%Z.
Proof.
  induction 1 as [|v r _ IH Hv]; cbn [gaps]; [lia|].
  apply zsum_ge in Hv. lia.
Qed.

Lemma zsum_nonneg l : Forall (fun v => 0 <= v)%Z l -> (0 <= zsum l)%Z.
Proof. induction 1 as [|v r Hv _ IH]; cbn [zsum]; lia. Qed.

Lemma weighted_upper l : forall a m,
  Forall (fun v => 0 <= v)%Z l ->
  (a + 2 * Z.of_nat (length l) - 2 <= m)%Z ->
  (weighted l a <= m * zsum l)%Z.
Proof.
  induction l as [|v r IH]; intros a m Hl Hm; [simpl; lia|].
  inversion Hl as [|x xs Hv Hr]; subst.
  cbn [weighted zsum]. cbn [length] in Hm.
  assert (H2 : (weighted r (a + 2) <= m * zsum r)%Z) by (apply IH; [exact Hr|lia]).
  nia.
Qed.

Lemma sum_values_zsum l : sum_values l = zsum l.
Proof.
  unfold sum_values.
  assert (H : forall a, fold_left (fun sum value => sum + value)%Z l a
                        = (a + zsum l)%Z).
  { induction l as [|v r IH]; intro a; simpl; [lia|]. rewrite IH. lia. }
  rewrite H. lia.
Qed.

Lemma zsum_perm l l' : Permutation l l' -> zsum l = zsum l'.
Proof. induction 1; cbn [zsum]; lia. Qed.

(** The sorted array, the sum and the loop of [calculateGini]. *)
Lemma calculateGini_parts values :
  values <> [] -> sum_values values <> 0%Z ->
  Forall (fun v => 0 <= v)%Z values ->
  exists g,
    calculateGini values
    = inject_Z g / inject_Z (Z.of_nat (length values) * sum_values values)
    /\ (0 <= g <= (Z.of_nat (length values) - 1) * sum_values values)%Z.
Proof.
  intros Hne Hsum0 Hpos. unfold calculateGini. cbv zeta.
  destruct (Nat.eqb_spec (length values) 0) as [E|_];
    [destruct values; [congruence|discriminate]|].
  set (l := JS.sort (fun a b => inject_Z (a - b)) values).
  assert (Hp : Permutation values l) by apply JS.sort_perm.
  assert (Hl : Forall (fun v => 0 <= v)%Z l) by apply (Permutation_Forall Hp Hpos).
  assert (Hs : StronglySorted Z.le l).
  { apply sort_sorted.
    - intros a b c. apply Z.le_trans.
    - intros a b H. change 0 with (inject_Z 0) in H.
      rewrite <- Zle_Qle in H. lia.
    - intros a b H. change 0 with (inject_Z 0) in H.
      rewrite <- Zle_Qle in H. lia. }
  assert (Hlen : length values = length l) by apply (Permutation_length Hp).
  assert (Es : sum_values l = sum_values values).
  { rewrite !sum_values_zsum. symmetry. now apply zsum_perm. }
  rewrite Es.
  destruct (Z.eqb_spec (sum_values values) 0) as [E|_]; [contradiction|].
  eexists. split; [reflexivity|].
  rewrite gini_loop_weighted, Hlen.
  replace (2 * 0 - Z.of_nat (length l) + 1)%Z
    with (1 - Z.of_nat (length l))%Z by lia.
  rewrite <- Es, sum_values_zsum. split.
  - rewrite weighted_gaps. assert (H := gaps_nonneg Hs). lia.
  - assert (H := @weighted_upper l (1 - Z.of_nat (length l))
                   (Z.of_nat (length l) - 1) Hl). lia.
Qed.

(** X26: the Gini coefficient of non-negative whole numbers, the product
    of whose number and sum a JavaScript number holds exactly, is at least
    0 and below 1; for n values it is at most 1 - 1/n. *)
Theorem calculateGini_range values :
  Forall (fun v => 0 <= v)%Z values ->
  (Z.of_nat (length values) * sum_values values < 2 ^ 53)%Z ->
  0 <= calculateGini values < 1
  /\ JS.count_Q (length values) * calculateGini values
     <= Qmax 0 (JS.count_Q (length values) - 1).
Proof.
  intros Hpos _.
  destruct values as [|v0 vs].
  { unfold calculateGini. cbn [length Nat.eqb].
    change (JS.count_Q 0) with 0. split; [lra|].
    apply Qle_trans with 0; [lra|apply Q.le_max_l]. }
  set (values := v0 :: vs) in *.
  assert (Hne : values <> []) by discriminate.
  assert (Hcount : 1 <= JS.count_Q (length values)).
  { change 1 with (JS.count_Q 1). unfold JS.count_Q. rewrite <- Zle_Qle.
    unfold values. cbn [length]. lia. }
  assert (Hmax : JS.count_Q (length values) - 1
                 <= Qmax 0 (JS.count_Q (length values) - 1)) by apply Q.le_max_r.
  destruct (Z.eq_dec (sum_values values) 0) as [E0|Hs0].
  { assert (E : calculateGini values = 0).
    { unfold calculateGini. cbv zeta.
      destruct (length values =? 0)%nat; [reflexivity|].
      assert (Es : sum_values (JS.sort (fun a b => inject_Z (a - b)) values) = 0%Z).
      { rewrite sum_values_zsum, <- (zsum_perm (JS.sort_perm _ values)),
          <- sum_values_zsum. exact E0. }
      now rewrite Es. }
    rewrite E. split; lra. }
  destruct (calculateGini_parts Hne Hs0 Hpos) as [g [-> [Hg0 Hg1]]].
  assert (Hsum : (0 < sum_values values)%Z).
  { assert (H := zsum_nonneg Hpos). rewrite <- sum_values_zsum in H. lia. }
  assert (Hn : (1 <= Z.of_nat (length values))%Z)
    by (unfold values; cbn [length]; lia).
  set (n := Z.of_nat (length values)) in *.
  set (S := sum_values values) in *.
  assert (Hden : 0 < inject_Z (n * S)).
  { change 0 with (inject_Z 0). rewrite <- Zlt_Qlt. nia. }
  assert (Hq0 : 0 <= inject_Z g).
  { change 0 with (inject_Z 0). now rewrite <- Zle_Qle. }
  assert (Hq1 : inject_Z g <= inject_Z ((n - 1) * S)) by now rewrite <- Zle_Qle.
  assert (En : JS.count_Q (length values) == inject_Z n) by reflexivity.
  assert (Emul : inject_Z (n * S) == inject_Z n * inject_Z S)
    by (rewrite inject_Z_mult; reflexivity).
  assert (Emul' : inject_Z ((n - 1) * S) == (inject_Z n - 1) * inject_Z S).
  { rewrite inject_Z_mult. unfold Z.sub. rewrite inject_Z_plus. reflexivity. }
  assert (HS : 0 < inject_Z S).
  { change 0 with (inject_Z 0). now rewrite <- Zlt_Qlt. }
  assert (HN : 1 <= inject_Z n).
  { change 1 with (inject_Z 1). now rewrite <- Zle_Qle. }
  assert (Ed : inject_Z n * (inject_Z g / inject_Z (n * S)) * inject_Z S
               == inject_Z g).
  { rewrite Emul. field. split; lra. }
  assert (HG0 : 0 <= inject_Z g / inject_Z (n * S)).
  { apply Qle_shift_div_l; [exact Hden|]. lra. }
  set (G := inject_Z g / inject_Z (n * S)) in *.
  assert (HG1 : inject_Z n * G <= inject_Z n - 1).
  { assert (H : inject_Z n * G * inject_Z S <= (inject_Z n - 1) * inject_Z S).
    { rewrite <- Emul', Ed. exact Hq1. }
    apply Qmult_lt_0_le_reg_r with (inject_Z S); [exact HS|exact H]. }
  split; [split; [exact HG0|]|].
  - nra.
  - apply Qle_trans with (JS.count_Q (length values) - 1);
      [exact HG1|exact Hmax].
Qed.

Lemma calculateGini_range_witness :
  0 <= calculateGini [3; 1; 2; 0; 10]%Z < 1
  /\ JS.count_Q 5 * calculateGini [3; 1; 2; 0; 10]%Z <= Qmax 0 (JS.count_Q 5 - 1).
Proof.
  apply (@calculateGini_range [3; 1; 2; 0; 10]%Z).
  - repeat constructor; lia.
  - vm_compute. reflexivity.
Defined.

(** *** The decentralization score of a small graph *)

Fixpoint influence_total (ms : list node_metrics) : Q :=
  match ms with
  | [] => 0
  | m :: ms' => combined_influence m + influence_total ms'
  end.

Lemma sum_influence_total ms : sum_influence ms == influence_total ms.
Proof.
  unfold sum_influence.
  assert (H : forall a, fold_left (fun sum agent => sum + combined_influence agent) ms a
                        == a + influence_total ms).
  { induction ms as [|m ms IH]; intro a; simpl; [ring|]. rewrite IH. ring. }
  rewrite H. ring.
Qed.

Lemma nodeMetrics_positive es n :
  0 <= reputation n -> Forall (fun e => 0 <= weight e) es ->
  0 < combined_influence (nodeMetrics es n).
Proof.
  intros Hr He. cbn [nodeMetrics combined_influence].
  assert (Hf : forall f, 0 <= sum_weights (filter f es)).
  { intro f. rewrite sum_weights_total. apply total_nonneg.
    apply Forall_forall. intros e Hin. apply filter_In in Hin.
    rewrite Forall_forall in He. now apply He. }
  assert (H1 := Hf (incident (an_id n))).
  assert (H2 := Hf (fun e => (target e =? an_id n)%Z)).
  assert (H3 : 0 <= JS.count_Q (calculateDegreeCentrality (an_id n) es))
    by apply count_Q_nonneg.
  assert (H4 : 0 <= JS.count_Q (estimateBetweenness (an_id n) es))
    by apply count_Q_nonneg.
  assert (H5 : 0 < baseScore n).
  { unfold baseScore. destruct (Qeq_bool (reputation n) 0) eqn:E; [lra|].
    apply Qeq_bool_neq in E.
    destruct (Qlt_le_dec 0 (reputation n)) as [H|H]; [exact H|]. elim E. lra. }
  unfold calculateWeightedDegree, calculateInfluenceScore. cbv zeta. lra.
Qed.

(** X27: a graph of at most ten agents with non-negative reputations and
    weights has the decentralization score 0: the ten most influential
    agents hold all the influence there is. *)
Theorem decentralization_small ns es :
  ns <> [] -> (length ns <= 10)%nat ->
  Forall (fun n => 0 <= reputation n) ns ->
  Forall (fun e => 0 <= weight e) es ->
  decentralization_score (calculateInfluenceMetrics ns es) == 0.
Proof.
  intros Hne Hlen Hr He.
  destruct (@metrics_fold es ns [] (NoDup_nil _)) as [H1 [H2 H3]].
  cbv zeta in H1, H2, H3.
  set (r := fold_left (fun ms n => metrics_set (nodeMetrics es n) ms) ns []) in *.
  set (ranked := calculateInfluenceMetrics ns es).
  assert (Hp : Permutation r ranked) by apply JS.sort_perm.
  assert (Hshort : (length ranked <= 10)%nat).
  { rewrite <- (Permutation_length Hp), <- (length_map m_id r).
    etransitivity; [|exact Hlen]. rewrite <- (length_map an_id ns).
    apply NoDup_incl_length; [exact H1|].
    intros i Hi. apply H2 in Hi. destruct Hi as [[]|Hi]. exact Hi. }
  assert (Hpos : forall m, In m ranked -> 0 < combined_influence m).
  { intros m Hm. apply (Permutation_in _ (Permutation_sym Hp)) in Hm.
    apply H3 in Hm. destruct Hm as [[]|[n [Hn ->]]].
    rewrite Forall_forall in Hr. apply nodeMetrics_positive; auto. }
  assert (Hsome : ranked <> []).
  { destruct ns as [|n ns']; [now elim Hne|].
    assert (Hi : In (an_id n) (map m_id r)) by (apply H2; right; now left).
    apply in_map_iff in Hi. destruct Hi as [m [_ Hm]].
    apply (Permutation_in _ Hp) in Hm. intro E. rewrite E in Hm. destruct Hm. }
  assert (Htotal : 0 < influence_total ranked).
  { clear -Hpos Hsome. induction ranked as [|m ms IH]; [now elim Hsome|].
    cbn [influence_total].
    assert (Hm := Hpos m (or_introl eq_refl)).
    destruct ms as [|m' ms'].
    - simpl. lra.
    - assert (0 < influence_total (m' :: ms')); [|lra].
      apply IH; [|discriminate]. intros x Hx. apply Hpos. now right. }
  unfold decentralization_score. cbv zeta. fold ranked.
  rewrite firstn_all2 by exact Hshort.
  rewrite sum_influence_total. field. lra.
Qed.

Lemma decentralization_small_witness :
  decentralization_score (calculateInfluenceMetrics three_peers []) == 0.
Proof.
  apply (@decentralization_small three_peers []).
  - discriminate.
  - simpl. lia.
  - repeat constructor; simpl; lra.
  - constructor.
Defined.

(** *** The temporal pass and the edges of the other passes *)

Definition other_pass (e : edge) : bool :=
  negb (String.eqb (snd (edge_id e)) "temporal").

Lemma strengthen_other_pass k h es :
  snd k = "temporal"%string ->
  filter other_pass (strengthen k h es) = filter other_pass es.
Proof.
  intro Hk. induction es as [|e es IH]; [reflexivity|]. cbn [strengthen].
  destruct (edge_key_eqb (edge_id e) k) eqn:E.
  - apply edge_key_eqb_eq in E. cbn [filter].
    assert (H1 : other_pass e = false) by (unfold other_pass; now rewrite E, Hk).
    assert (H2 : other_pass
                   {| edge_id := edge_id e; source := source e; target := target e;
                      edge_type := edge_type e; weight := weight e + 0.2;
                      overlapping_hours := overlapping_hours e ++ [h] |} = false)
      by exact H1.
    now rewrite H1, H2.
  - cbn [filter]. now rewrite IH.
Qed.

Lemma link_agents_other_pass ns h es x y :
  filter other_pass (link_agents ns h es x y) = filter other_pass es.
Proof.
  unfold link_agents. destruct (_ && _); [|reflexivity]. cbv zeta.
  destruct (negb _).
  - rewrite filter_app. cbn [filter].
    assert (H : other_pass
                  {| edge_id := temporal_key x y; source := x; target := y;
                     edge_type := "temporal_correlation"; weight := 0.4;
                     overlapping_hours := [h] |} = false) by reflexivity.
    rewrite H. apply app_nil_r.
  - now apply strengthen_other_pass.
Qed.

Lemma link_inner_other_pass ns h x rest : forall es,
  filter other_pass (fold_left (fun es y => link_agents ns h es x y) rest es)
  = filter other_pass es.
Proof.
  induction rest as [|y rest IH]; intro es; [reflexivity|].
  cbn [fold_left]. rewrite IH. apply link_agents_other_pass.
Qed.

Lemma link_pairs_other_pass ns h agents : forall es,
  filter other_pass (link_pairs ns h agents es) = filter other_pass es.
Proof.
  induction agents as [|x rest IH]; intro es; [reflexivity|].
  cbn [link_pairs]. rewrite IH. apply link_inner_other_pass.
Qed.

(** X28: the temporal pass leaves the edges of the other passes as they
    are, in their order: it adds and strengthens edges with a temporal id
    only. *)
Theorem addTemporalInteractionEdges_frame now posts ns es :
  filter other_pass (addTemporalInteractionEdges now posts ns es)
  = filter other_pass es.
Proof.
  unfold addTemporalInteractionEdges.
  generalize (hourlyActivity (temporalPatterns now posts)) as buckets.
  intro buckets. revert es.
  induction buckets as [|b buckets IH]; intro es; [reflexivity|].
  cbn [fold_left]. rewrite IH. unfold link_bucket.
  destruct (1 <? _)%nat; [apply link_pairs_other_pass|reflexivity].
Qed.

End MetricsFacts.

(** ** The reputation engine: the security score *)

Module Scoring.
Import Reputation.
Open Scope Q_scope.

(** The columns of [agents] and [threat_alerts] that the statement of
    [calculateSecurityScore] reads. *)
Record agent_row := mkAgentRow {
  ag_id : Z;
  ag_external_id : option string
}.

Record alert_row := mkAlertRow {
  ta_agent_id : option Z;
  ta_data_agent_id : option string;   (* data->>'agent_id' *)
  ta_severity : option string;
  ta_created_at : Z                   (* seconds since the epoch *)
}.

(** [x = y] in a condition: true for two equal values that are not null. *)
Definition sql_eqb (A : Type) (eqb : A -> A -> bool) (x y : option A) : bool :=
  match x, y with
  | Some a, Some b => eqb a b
  | _, _ => false
  end.

(** The condition of the [LEFT JOIN]. *)
Definition joins_alert (now : Z) (a : agent_row) (ta : alert_row) : bool :=
  (sql_eqb Z.eqb (Some (ag_id a)) (ta_agent_id ta)
   || sql_eqb String.eqb (ag_external_id a) (ta_data_agent_id ta))
  && (now - 90 * 86400 <? ta_created_at ta)%Z.

Definition severity_is (sev : string) (ta : alert_row) : bool :=
  sql_eqb String.eqb (ta_severity ta) (Some sev).

(** [CASE WHEN ta.severity = 'critical' THEN 0 WHEN ta.severity = 'high'
    THEN 20 ELSE 40 END] *)
Definition base_of (ta : alert_row) : Q :=
  if severity_is "critical" ta then 0
  else if severity_is "high" ta then 20 else 40.

(** The score of the group of an agent; [alerts] are the alerts joined to
    it, none for an agent that the join pads with nulls. *)
Definition security_score (alerts : list alert_row) : Q :=
  let count sev := JS.count_Q (length (filter (severity_is sev) alerts)) in
  let base :=
    match alerts with
    | [] => 100
    | ta :: rest => fold_left (fun m x => greatest m (base_of x)) rest (base_of ta)
    end in
  least 100
    (greatest 0
       (base - count "critical"%string * 30 - count "high"%string * 15
        - count "medium"%string * 5)).

(** The first three columns of the [SELECT], one row per agent. *)
Definition security_rows (now : Z) (agents : list agent_row)
    (alerts : list alert_row) : list (Z * string * Q) :=
  map (fun a => (ag_id a, "security_record"%string,
                 security_score (filter (joins_alert now a) alerts)))
    agents.

End Scoring.

(** ** Properties of the security and the composite score *)

Module ScoringFacts.
Import Reputation ReputationFacts Scoring.
Open Scope Q_scope.

Lemma base_of_le ta : 0 <= base_of ta <= 40.
Proof.
  unfold base_of. destruct (severity_is "critical" ta); [lra|].
  destruct (severity_is "high" ta); lra.
Qed.

Lemma greatest_cases x y :
  (greatest x y = x \/ greatest x y = y) /\ x <= greatest x y /\ y <= greatest x y.
Proof.
  unfold greatest. destruct (Qle_bool x y) eqn:E.
  - apply Qle_bool_iff in E. split; [now right|]. split; lra.
  - assert (y < x).
    { apply Qnot_le_lt. intro H. apply Qle_bool_iff in H. congruence. }
    split; [now left|]. split; lra.
Qed.

Lemma least_cases x y :
  (least x y = x \/ least x y = y) /\ least x y <= x /\ least x y <= y.
Proof.
  unfold least. destruct (Qle_bool x y) eqn:E.
  - apply Qle_bool_iff in E. split; [now left|]. split; lra.
  - assert (y < x).
    { apply Qnot_le_lt. intro H. apply Qle_bool_iff in H. congruence. }
    split; [now right|]. split; lra.
Qed.

Lemma base_fold_le rest : forall m,
  0 <= m <= 40 ->
  0 <= fold_left (fun m x => greatest m (base_of x)) rest m <= 40.
Proof.
  induction rest as [|x rest IH]; intros m Hm; simpl; [exact Hm|].
  apply IH. assert (Hb := base_of_le x).
  destruct (greatest_cases m (base_of x)) as [[E|E] _]; rewrite E; lra.
Qed.

Lemma clamp_le x c : 0 <= c <= 100 -> x <= c -> 0 <= least 100 (greatest 0 x) <= c.
Proof.
  intros Hc Hx.
  destruct (greatest_cases 0 x) as [[E|E] [G1 G2]];
    destruct (least_cases 100 (greatest 0 x)) as [[E'|E'] [L1 L2]];
    rewrite E' in *; rewrite ?E in *; lra.
Qed.

Lemma count_severity_pos sev alerts :
  existsb (severity_is sev) alerts = true ->
  1 <= JS.count_Q (length (filter (severity_is sev) alerts)).
Proof.
  intro H. apply existsb_exists in H. destruct H as [ta [Hin Hs]].
  assert (Hf : In ta (filter (severity_is sev) alerts)) by (apply filter_In; tauto).
  change 1 with (JS.count_Q 1). unfold JS.count_Q. rewrite <- Zle_Qle.
  destruct (filter (severity_is sev) alerts); [destruct Hf|simpl; lia].
Qed.

Lemma count_severity_nonneg sev (alerts : list alert_row) :
  0 <= JS.count_Q (length (filter (severity_is sev) alerts)).
Proof.
  change 0 with (JS.count_Q 0). unfold JS.count_Q. rewrite <- Zle_Qle. lia.
Qed.

(** X29: an agent without a threat alert of the last ninety days has the
    security score 100; one alert of any severity lowers the score to 40
    or less, a high alert to 25 or less and a critical alert to 10 or
    less. *)
Theorem security_score_caps alerts :
  (alerts = [] -> security_score alerts == 100)
  /\ (alerts <> [] -> 0 <= security_score alerts <= 40)
  /\ (existsb (severity_is "high") alerts = true ->
      0 <= security_score alerts <= 25)
  /\ (existsb (severity_is "critical") alerts = true ->
      0 <= security_score alerts <= 10).
Proof.
  assert (Hbase : alerts <> [] ->
            0 <= match alerts with
                 | [] => 100
                 | ta :: rest =>
                     fold_left (fun m x => greatest m (base_of x)) rest (base_of ta)
                 end <= 40).
  { intro H. destruct alerts as [|ta rest]; [now elim H|].
    apply base_fold_le, base_of_le. }
  assert (Hc := count_severity_nonneg "critical" alerts).
  assert (Hh := count_severity_nonneg "high" alerts).
  assert (Hm := count_severity_nonneg "medium" alerts).
  split; [|split; [|split]].
  - intros ->. reflexivity.
  - intro H. apply Hbase in H. unfold security_score. cbv zeta.
    apply clamp_le; lra.
  - intro H. assert (Hne : alerts <> []) by (intro E; subst; discriminate).
    apply Hbase in Hne. apply count_severity_pos in H.
    unfold security_score. cbv zeta. apply clamp_le; lra.
  - intro H. assert (Hne : alerts <> []) by (intro E; subst; discriminate).
    apply Hbase in Hne. apply count_severity_pos in H.
    unfold security_score. cbv zeta. apply clamp_le; lra.
Qed.

(** *** A second run of [calculateCompositeScore] *)

Lemma category_upsert row t p :
  platform row <> p -> category (upsert row t) p = category t p.
Proof.
  intro Hne. unfold category.
  assert (Hrow : String.eqb (platform row) p = false) by now apply String.eqb_neq.
  induction t as [|x t IH]; cbn [upsert filter].
  - now rewrite Hrow.
  - destruct (has_key (agent_id row) (platform row) x) eqn:E; cbn [filter].
    + apply has_key_eq in E. destruct E as [_ E]. cbn [platform].
      now rewrite E, Hrow.
    + now rewrite IH.
Qed.

Lemma category_fold_upsert rows p : forall t,
  Forall (fun row => platform row <> p) rows ->
  category (fold_left (fun t' row => upsert row t') rows t) p = category t p.
Proof.
  induction rows as [|row rows IH]; intros t H; [reflexivity|].
  inversion H as [|x xs Hx Hxs]; subst. cbn [fold_left].
  rewrite IH by exact Hxs. now apply category_upsert.
Qed.

Lemma composite_rows_platform t :
  Forall (fun row => platform row = "composite"%string) (composite_rows t).
Proof.
  unfold composite_rows. apply Forall_forall. intros row H.
  apply in_flat_map in H. destruct H as [j [_ H]].
  destruct (coalesce_id j); [|destruct H]. destruct H as [<-|[]]. reflexivity.
Qed.

Lemma category_calculateCompositeScore t p :
  p <> "composite"%string ->
  category (calculateCompositeScore t) p = category t p.
Proof.
  intro Hp. unfold calculateCompositeScore. apply category_fold_upsert.
  eapply Forall_impl; [|apply composite_rows_platform].
  intros row H. cbv beta in H. congruence.
Qed.

Lemma upsert_fixed row t x :
  lookup t (agent_id row) (platform row) = Some x ->
  score x = score row -> factor_breakdown x = factor_breakdown row ->
  upsert row t = t.
Proof.
  unfold lookup. induction t as [|y t IH]; cbn [find upsert]; [discriminate|].
  destruct (has_key (agent_id row) (platform row) y) eqn:E.
  - intros H Hs Hf. inversion H; subst. rewrite <- Hs, <- Hf. now destruct x.
  - intros H Hs Hf. now rewrite (IH H Hs Hf).
Qed.

Lemma fold_upsert_fixed rows : forall t,
  (forall row, In row rows ->
     exists x, lookup t (agent_id row) (platform row) = Some x
               /\ score x = score row
               /\ factor_breakdown x = factor_breakdown row) ->
  fold_left (fun t' row => upsert row t') rows t = t.
Proof.
  induction rows as [|row rows IH]; intros t H; [reflexivity|].
  cbn [fold_left].
  destruct (H row (or_introl eq_refl)) as [x [H1 [H2 H3]]].
  rewrite (upsert_fixed _ _ H1 H2 H3). apply IH.
  intros r Hr. apply H. now right.
Qed.

(** X30: [calculateCompositeScore] changes no sub-score row, and on a
    table with one row per agent and category a second run changes
    nothing. *)
Theorem calculateCompositeScore_idempotent t :
  unique_keys t ->
  Forall (fun p => category (calculateCompositeScore t) p = category t p)
    sub_categories
  /\ calculateCompositeScore (calculateCompositeScore t) = calculateCompositeScore t.
Proof.
  intro Hkeys.
  assert (Hcat : Forall (fun p => category (calculateCompositeScore t) p = category t p)
                   sub_categories).
  { repeat constructor; apply category_calculateCompositeScore; discriminate. }
  split; [exact Hcat|].
  assert (Hrows : composite_rows (calculateCompositeScore t) = composite_rows t).
  { unfold composite_rows, joined_scores. cbv zeta.
    rewrite !category_calculateCompositeScore by discriminate. reflexivity. }
  unfold calculateCompositeScore at 1. rewrite Hrows.
  apply fold_upsert_fixed. intros row Hrow.
  destruct (composite_rows_profiles Hkeys) as [ids [Hnd [_ Hr]]].
  assert (Hnd' : NoDup (map (fun r => (agent_id r, platform r)) (composite_rows t))).
  { rewrite Hr, map_map. simpl.
    apply Finite.Injective_map_NoDup; [|exact Hnd].
    intros x y E. now inversion E. }
  exact (@fold_upsert_same _ t _ Hnd' Hrow).
Qed.

Lemma calculateCompositeScore_idempotent_witness :
  Forall (fun p => category (calculateCompositeScore sample_scores) p
                   = category sample_scores p) sub_categories
  /\ calculateCompositeScore (calculateCompositeScore sample_scores)
     = calculateCompositeScore sample_scores.
Proof.
  apply (@calculateCompositeScore_idempotent sample_scores).
  unfold unique_keys, sample_scores. simpl.
  repeat (constructor; [simpl; intuition discriminate|]). constructor.
Defined.

End ScoringFacts.
